(** * Huffman coding: the codec of [huffman.c]

    A shallow embedding of [src/huffman.c] and the properties its
    specification states about it.

    Conventions of the embedding.
    - A C function that can call [error], fail an assertion or run into
      undefined behaviour returns an [outcome].
    - A [bit_t *] string is the list of the characters stored at the pointer;
      the terminating NUL is the end of the list, and a loop that tests
      [!= '\0'] also stops at a NUL stored in the list.  A buffer obtained
      from [xcalloc] is the list of exactly its cells, and every store into
      it is bounds-checked.
    - [unsigned int] is 32 bits wide and its additions wrap; [uint8_t]
      additions wrap at 256.  A [size_t] only ever counts or indexes the
      cells of objects held in memory and is a [nat].
    - The contract macros [REQUIRES], [ASSERT] and [ENSURES] of
      [lib/contracts.h] are checked when the program is compiled with
      [DEBUG] and vanish otherwise; [DEBUG] is a parameter.  Contracts that
      only say that a pointer is not NULL hold by the type of the argument
      and are left out.
    - [xmalloc] and [xcalloc] return the memory asked for.
    - The headers that declare [symbol_t] and [NUM_SYMBOLS] and the priority
      queue of [lib/heaps.h] are not part of the sources: [NUM_SYMBOLS] is a
      parameter, symbols are the numbers below it, and the queue is a
      parameter with the laws of a bounded bag.
    - The file that [build_freqtable] opens is the list of its characters,
      or nothing when [fopen] returns NULL; [int] is 32 bits wide.
    - A tree is a value of an inductive type, except in [Heap], where
      [free_htree] runs on an explicit heap. *)

From Stdlib Require Import ZArith NArith Ascii String List Lia.
From stdpp Require Import base option list gmap.

Local Open Scope Z_scope.
Local Open Scope nat_scope.

(** ** Outcomes of a C function *)

Inductive outcome (A : Type) : Type :=
| Ret (a : A)            (* normal return *)
| Exit (msg : string)    (* [error(msg)]: the message is printed, [exit(1)] *)
| Abort                  (* a failed [assert] or contract *)
| Undefined              (* undefined behaviour: NULL dereference, access
                            outside an object or to a freed object *)
| OutOfFuel.             (* the model's bound on a [while] loop ran out *)

Arguments Ret {A} a.
Arguments Exit {A} msg.
Arguments Abort {A}.
Arguments Undefined {A}.
Arguments OutOfFuel {A}.

#[global] Instance outcome_ret : MRet outcome := fun A a => Ret a.
#[global] Instance outcome_bind : MBind outcome := fun A B f m =>
  match m with
  | Ret a => f a
  | Exit msg => Exit msg
  | Abort => Abort
  | Undefined => Undefined
  | OutOfFuel => OutOfFuel
  end.

(** [for (size_t i = i0; i < i0 + n; i++) body] over a loop state. *)
Fixpoint for_loop {St : Type} (n i : nat) (body : nat -> St -> outcome St)
    (s : St) : outcome St :=
  match n with
  | O => Ret s
  | S n' => s' ← body i s; for_loop n' (S i) body s'
  end.

(** [buf[i] = x] on an allocated array of [length buf] cells. *)
Definition store {A : Type} (buf : list A) (i : nat) (x : A) : outcome (list A) :=
  if i <? length buf then Ret (<[i:=x]> buf) else Undefined.

(** ** C strings *)

(** [typedef char bit_t; typedef bit_t *bitstring_t;] *)
Abbreviation bit_t := ascii (only parsing).
Abbreviation bitstring_t := (list ascii) (only parsing).

Definition NUL : ascii := "000"%char.
Definition is_nul (c : ascii) : bool := Ascii.eqb c NUL.

(** The characters before the terminator. *)
Fixpoint c_string (s : bitstring_t) : bitstring_t :=
  match s with
  | [] => []
  | c :: s' => if is_nul c then [] else c :: c_string s'
  end.

Definition strlen (s : bitstring_t) : nat := length (c_string s).

(** [strcpy(buf + off, s)]: the characters of [s] and a terminator. *)
Definition strcpy_at (buf : bitstring_t) (off : nat) (s : bitstring_t)
  : outcome bitstring_t :=
  let data := c_string s ++ [NUL] in
  if off + length data <=? length buf
  then Ret (take off buf ++ data ++ drop (off + length data) buf)
  else Undefined.

(** A string of ASCII bits. *)
Definition is_bit (c : ascii) : Prop := c = "0"%char \/ c = "1"%char.
Definition bits_ok (s : bitstring_t) : Prop := Forall is_bit s.

(** ** Huffman trees

    [symbol_t], [NUM_SYMBOLS] and [freqtable_t] are declared in headers that
    are not part of the sources: a symbol is a number below [NUM_SYMBOLS]
    (a parameter below), a frequency table is an array of [unsigned int]. *)

Abbreviation symbol_t := nat (only parsing).
Abbreviation freqtable_t := (list N) (only parsing).

(** A code table: every entry is [NULL] or a string. *)
Abbreviation codetable_t := (list (option (list ascii))) (only parsing).

(** Addition of two [unsigned int]. *)
Definition uint_add (a b : N) : N := ((a + b) mod 2 ^ 32)%N.

(** A value of type [htree *]: [NULL], or the address of a [struct
    htree_node] with its four fields.  Every node is allocated once and
    referenced by one parent, so the pointer graph is this tree. *)
Inductive htree : Type :=
| Null
| Node (value : symbol_t) (frequency : N) (left right : htree).

#[global] Instance htree_eq_dec : EqDecision htree.
Proof. solve_decision. Defined.

Definition is_null (H : htree) : bool :=
  match H with Null => true | Node _ _ _ _ => false end.

(** [H->value], [H->frequency], [H->left], [H->right]. *)
Definition get_value (H : htree) : outcome symbol_t :=
  match H with Null => Undefined | Node v _ _ _ => Ret v end.
Definition get_frequency (H : htree) : outcome N :=
  match H with Null => Undefined | Node _ f _ _ => Ret f end.
Definition get_left (H : htree) : outcome htree :=
  match H with Null => Undefined | Node _ _ l _ => Ret l end.
Definition get_right (H : htree) : outcome htree :=
  match H with Null => Undefined | Node _ _ _ r => Ret r end.

(** *** Task 1: data structure invariants *)

Definition is_htree_leaf (H : htree) : bool :=
  match H with
  | Null => false
  | Node _ f l r =>
      if (f <=? 0)%N then false
      else is_null l && is_null r
  end.

(** [is_htree] and [is_htree_interior] call each other; [is_htree] is defined
    with the body of [is_htree_interior] in place, and [is_htree_unfold]
    below gives the equation of the source. *)
Fixpoint is_htree (H : htree) : bool :=
  match H with
  | Null => false
  | Node _ f l r =>
      is_htree_leaf H ||
      (if negb (is_htree l && is_htree r) then false
       else match l, r with
            | Node _ fl _ _, Node _ fr _ _ => (f =? uint_add fl fr)%N
            | _, _ => false
            end)
  end.

Definition is_htree_interior (H : htree) : bool :=
  match H with
  | Null => false
  | Node _ f l r =>
      if negb (is_htree l && is_htree r) then false
      else match l, r with
           | Node _ fl _ _, Node _ fr _ _ => (f =? uint_add fl fr)%N
           | _, _ => false
           end
  end.

(** ** The priority queue of [lib/heaps.h]

    The library is not part of the sources.  The codec uses it through
    [pq_new], [pq_empty], [pq_full], [pq_add] and [pq_rem]; a queue is a
    value that [pq_add] and [pq_rem] turn into the next one.  [pq_elems] and
    [pq_capacity] are not operations of the library: they name the items a
    queue holds and the capacity it was created with, to state the laws. *)
Class PriorityQueue (elem : Type) : Type := {
  pq_t : Type;
  pq_new : nat -> (elem -> elem -> outcome bool) -> pq_t;
  pq_empty : pq_t -> bool;
  pq_full : pq_t -> bool;
  pq_add : pq_t -> elem -> pq_t;
  pq_rem : pq_t -> elem * pq_t;
  pq_elems : pq_t -> list elem;
  pq_capacity : pq_t -> nat
}.

(** What the codec relies on: the queue is a bounded bag.  Which of its
    items [pq_rem] returns is left open. *)
Class PriorityQueueLaws {elem : Type} (PQ : PriorityQueue elem) : Prop := {
  pq_new_elems : forall cap prio, pq_elems (pq_new cap prio) = [];
  pq_new_capacity : forall cap prio, pq_capacity (pq_new cap prio) = cap;
  pq_empty_spec : forall Q, pq_empty Q = true <-> pq_elems Q = [];
  pq_full_spec : forall Q,
    pq_full Q = true <-> pq_capacity Q <= length (pq_elems Q);
  pq_add_spec : forall Q e, pq_full Q = false ->
    pq_elems (pq_add Q e) ≡ₚ e :: pq_elems Q /\
    pq_capacity (pq_add Q e) = pq_capacity Q;
  pq_rem_spec : forall Q, pq_empty Q = false ->
    pq_elems Q ≡ₚ (pq_rem Q).1 :: pq_elems (pq_rem Q).2 /\
    pq_capacity (pq_rem Q).2 = pq_capacity Q
}.

Section Codec.

Variable DEBUG : bool.
Variable NUM_SYMBOLS : nat.
Context {PQ : PriorityQueue htree}.

(** [lib/contracts.h]: a contract is evaluated only under [DEBUG], where
    a false one aborts the program. *)
Definition contract (c : bool) : outcome unit :=
  if c then Ret tt else if DEBUG then Abort else Ret tt.

Definition REQUIRES := contract.
Definition ASSERT := contract.
Definition ENSURES := contract.

(** [assert] of [assert.h]. *)
Definition assert (c : bool) : outcome unit :=
  if c then Ret tt else Abort.

(** ** Task 2: building Huffman trees from frequency tables *)

Definition htree_higher_priority (e1 e2 : htree) : outcome bool :=
  REQUIRES (negb (is_null e1));;
  REQUIRES (negb (is_null e2));;
  let tree1 := e1 in
  let tree2 := e2 in
  ASSERT (is_htree tree1);;
  ASSERT (is_htree tree2);;
  f1 ← get_frequency tree1;
  f2 ← get_frequency tree2;
  Ret (f1 <? f2)%N.

Definition build_pq (Q : pq_t) (table : freqtable_t) : outcome pq_t :=
  REQUIRES (pq_empty Q);;
  '(Q, char_count) ← for_loop NUM_SYMBOLS 0 (fun i '(Q, char_count) =>
      match table !! i with
      | None => Undefined
      | Some freq =>
          if (0 <? freq)%N then
            let node := Node i freq Null Null in
            ASSERT (negb (pq_full Q));;
            Ret (pq_add Q node, S char_count)
          else Ret (Q, char_count)
      end) (Q, 0);
  if char_count <? 2
  then Exit "Only 0 or 1 distinct character in the text"
  else Ret Q.

(** The [while] loop of [build_htree]; every round takes one item out of
    the queue, [fuel] bounds the number of rounds. *)
Fixpoint build_htree_loop (fuel : nat) (Q : pq_t) : outcome htree :=
  match fuel with
  | O => OutOfFuel
  | S fuel' =>
      if pq_empty Q then assert false;; Ret Null
      else
        let '(tree1, Q) := pq_rem Q in
        ASSERT (is_htree tree1);;
        if pq_empty Q then Ret tree1
        else
          let '(tree2, Q) := pq_rem Q in
          ASSERT (is_htree tree2);;
          f1 ← get_frequency tree1;
          f2 ← get_frequency tree2;
          let root :=
            if (f1 <=? f2)%N
            then Node 0 (uint_add f1 f2) tree1 tree2
            else Node 0 (uint_add f1 f2) tree2 tree1 in
          ASSERT (negb (pq_full Q));;
          build_htree_loop fuel' (pq_add Q root)
  end.

(** The queue starts with at most [NUM_SYMBOLS] items, which bounds the
    rounds of the loop.  The destructor [elem_free] given to [pq_new] is
    used by [pq_free] alone, which is called on a queue that holds no item
    and is left out. *)
Definition build_htree (table : freqtable_t) : outcome htree :=
  let Q := pq_new NUM_SYMBOLS htree_higher_priority in
  Q ← build_pq Q table;
  build_htree_loop NUM_SYMBOLS Q.

(** ** Task 3: decoding a text *)

(** One round of the traversal: the child chosen by [c]. *)
Definition descend (node : htree) (c : bit_t) : outcome htree :=
  if Ascii.eqb c "0" then get_left node else get_right node.

(** The loop of [find_len]; returns [node] and [res] at its exit. *)
Fixpoint find_len_loop (H node : htree) (code : bitstring_t) (res : nat)
  : outcome (htree * nat) :=
  match code with
  | [] => Ret (node, res)
  | c :: code' =>
      if is_nul c then Ret (node, res)
      else
        node ← descend node c;
        if is_htree_leaf node
        then find_len_loop H H code' (S res)
        else find_len_loop H node code' res
  end.

(** [node != H] compares two pointers into one tree; [node] is [H] itself
    or a node below it, which as a value differs from [H]
    ([below_root_neq]). *)
Definition find_len (H : htree) (code : bitstring_t) : outcome nat :=
  REQUIRES (is_htree H);;
  '(node, res) ← find_len_loop H H code 0;
  if bool_decide (node ≠ H) then Exit "Invalid code to decode!"
  else Ret res.

Fixpoint parse_code_loop (H node : htree) (code : bitstring_t)
    (res : list symbol_t) (array_ind : nat) : outcome (list symbol_t * nat) :=
  match code with
  | [] => Ret (res, array_ind)
  | c :: code' =>
      if is_nul c then Ret (res, array_ind)
      else
        node ← descend node c;
        if is_htree_leaf node then
          v ← get_value node;
          res ← store res array_ind v;
          parse_code_loop H H code' res (S array_ind)
        else parse_code_loop H node code' res array_ind
  end.

Definition parse_code (H : htree) (code : bitstring_t) (res : list symbol_t)
    (len : nat) : outcome (list symbol_t) :=
  REQUIRES (is_htree H);;
  '(res, array_ind) ← parse_code_loop H H code res 0;
  assert (len =? array_ind);;
  Ret res.

(** Returns the array and the value stored in [*src_len]. *)
Definition decode_src (H : htree) (code : bitstring_t)
  : outcome (list symbol_t * nat) :=
  REQUIRES (is_htree H);;
  len ← find_len H code;
  let src_len := len in
  let res := replicate len 0 in
  res ← parse_code H code res len;
  Ret (res, src_len).

(** ** Task 4: building code tables from Huffman trees *)

(** [INT_MAX] of a 32-bit [int]. *)
Definition INT_MAX : Z := 2147483647.

(** [len] is an [int]: counting the characters and then one more overflows
    it when the string has [INT_MAX] characters or more.  [str[i]] is read
    for [i] up to the terminator. *)
Definition create_char_ptr (str : bitstring_t) : outcome bitstring_t :=
  if (INT_MAX <=? Z.of_nat (strlen str))%Z then Undefined
  else
    let len := strlen str + 1 in
    let res := replicate len NUL in
    for_loop len 0 (fun i res =>
      let c := default NUL (str !! i) in
      ASSERT (is_nul c || Ascii.eqb c "0" || Ascii.eqb c "1");;
      store res i c) res.

(** A fresh string of [strlen(prev_string)+2] cells holding [prev_string]
    followed by [bit]. *)
Definition next_path (prev_string : bitstring_t) (bit : bit_t) : bitstring_t :=
  c_string prev_string ++ [bit].

Fixpoint htree_to_codetable_body (H : htree) (table : codetable_t)
    (prev_string : bitstring_t) : outcome codetable_t :=
  REQUIRES (is_htree H);;
  if is_htree_leaf H then
    v ← get_value H;
    store table v (Some prev_string)
  else
    ASSERT (is_htree_interior H);;
    match H with
    | Null => Undefined
    | Node _ _ l r =>
        let next_path_left := next_path prev_string "0"%char in
        table ← htree_to_codetable_body l table next_path_left;
        let next_path_right := next_path prev_string "1"%char in
        htree_to_codetable_body r table next_path_right
    end.

Definition max (x y : nat) : nat :=
  if y <? x then x else y.

Fixpoint max_depth (H : htree) : outcome nat :=
  REQUIRES (is_htree H);;
  if is_htree_leaf H then Ret 1
  else
    ASSERT (is_htree_interior H);;
    match H with
    | Null => Undefined
    | Node _ _ l r =>
        dl ← max_depth l;
        dr ← max_depth r;
        Ret (max dl dr + 1)
    end.

Definition htree_to_codetable (H : htree) : outcome codetable_t :=
  REQUIRES (is_htree H);;
  let table := replicate NUM_SYMBOLS None in
  let empty_bstring := [] in
  htree_to_codetable_body H table empty_bstring.

(** ** Task 5: encoding a text *)

(** [table[src[i]]], dereferenced by [strlen] and [strcpy]. *)
Definition code_of (table : codetable_t) (src : list symbol_t) (i : nat)
  : outcome bitstring_t :=
  match src !! i with
  | None => Undefined
  | Some sym =>
      match table !! sym with
      | None => Undefined
      | Some None => Undefined
      | Some (Some bs) => Ret bs
      end
  end.

Definition get_size (table : codetable_t) (src : list symbol_t)
    (src_len : nat) : outcome nat :=
  for_loop src_len 0 (fun i size =>
    bs ← code_of table src i;
    Ret (size + strlen bs)) 0.

(** Returns [target_bs] as the loop leaves it. *)
Definition populate_bstring (target_bs : bitstring_t) (table : codetable_t)
    (src : list symbol_t) (src_len curr_ind : nat) : outcome bitstring_t :=
  '(target_bs, _) ← for_loop src_len 0 (fun i '(target_bs, curr_ind) =>
      bs ← code_of table src i;
      target_bs ← strcpy_at target_bs curr_ind bs;
      Ret (target_bs, curr_ind + strlen bs)) (target_bs, curr_ind);
  Ret target_bs.

Definition encode_src (table : codetable_t) (src : list symbol_t)
    (src_len : nat) : outcome bitstring_t :=
  size ← get_size table src src_len;
  let res_size := size + 1 in
  let res := replicate res_size NUL in
  populate_bstring res table src src_len 0.

(** ** Task 6: building a frequency table from a file *)

(** The loop over the characters that [fgetc] returns until [EOF]; a
    character is an [unsigned char] value, [table[c]++] adds to an
    [unsigned int]. *)
Fixpoint build_freqtable_loop (contents : list ascii) (table : freqtable_t)
  : outcome freqtable_t :=
  match contents with
  | [] => Ret table
  | ch :: contents' =>
      let c := nat_of_ascii ch in
      ASSERT (c <? NUM_SYMBOLS);;
      match table !! c with
      | None => Undefined
      | Some count =>
          build_freqtable_loop contents' (<[c := uint_add count 1]> table)
      end
  end.

(** The file named [fname] is what [fopen] finds: [None] when it cannot be
    opened ([fopen] returns [NULL], which [fgetc] is then called with),
    else the characters of the file. *)
Definition build_freqtable (file : option (list ascii)) : outcome freqtable_t :=
  match file with
  | None => Undefined
  | Some contents =>
      let table := replicate NUM_SYMBOLS 0%N in
      build_freqtable_loop contents table
  end.

(** ** Task 7: packing and unpacking a bitstring *)

Definition get_res_len (bits_len : nat) : nat :=
  let step := 8 in
  if bits_len mod step =? 0 then bits_len / step else bits_len / step + 1.

(** The inner loop of [populate_byte_array]: [n] rounds are left,
    [starting_bit] is what remains to be read. *)
Fixpoint pack_byte (n : nat) (starting_bit : bitstring_t) (byte placeval : Z)
  : outcome Z :=
  match n, starting_bit with
  | O, _ => Ret byte
  | S _, [] => Ret byte
  | S n', c :: rest =>
      if is_nul c then Ret byte
      else if Ascii.eqb c "1" then
        ASSERT (0 <? placeval)%Z;;
        pack_byte n' rest ((byte + placeval * 1) mod 256)%Z (placeval / 2)%Z
      else
        ASSERT (Ascii.eqb c "0");;
        ASSERT (0 <? placeval)%Z;;
        pack_byte n' rest byte (placeval / 2)%Z
  end.

Definition populate_byte_array (bytes : list Z) (bytes_len : nat)
    (bits : bitstring_t) : outcome (list Z) :=
  let step := 8 in
  for_loop bytes_len 0 (fun i bytes =>
    ASSERT (i * step <? strlen bits);;
    if length bits <? i * step then Undefined
    else
      byte ← pack_byte step (drop (i * step) bits) 0%Z 128%Z;
      store bytes i byte) bytes.

Definition pack (bits : bitstring_t) : outcome (list Z) :=
  let len := strlen bits in
  let res_len := get_res_len len in
  let res := replicate res_len 0%Z in
  populate_byte_array res res_len bits.

(** [(byte >> shift_place) & 0x01] for round [i] of [byte2bit], and the
    character stored for it. *)
Definition byte2bit_shift (byte : Z) (i : nat) : Z :=
  let step := 8 in
  let shift_place := step - i - 1 in
  Z.land (Z.shiftr byte (Z.of_nat shift_place)) 1.

Definition byte2bit_digit (byte : Z) (i : nat) : ascii :=
  let digit := byte2bit_shift byte i in
  if (digit =? 1)%Z then "1"%char else "0"%char.

(** [starting_bit] is [bits + off]. *)
Definition byte2bit (bits : bitstring_t) (off : nat) (byte : Z)
  : outcome bitstring_t :=
  let step := 8 in
  for_loop step 0 (fun i bits =>
    let digit := byte2bit_shift byte i in
    ASSERT ((digit =? 1)%Z || (digit =? 0)%Z);;
    store bits (off + i) (byte2bit_digit byte i)) bits.

Definition unpack (c : list Z) (len : nat) : outcome bitstring_t :=
  let step := 8 in
  let bits := replicate (step * len + 1) NUL in
  for_loop len 0 (fun i bits =>
    match c !! i with
    | None => Undefined
    | Some byte => byte2bit bits (step * i) byte
    end) bits.

End Codec.

(** ** [free_htree] on an explicit heap

    Releasing nodes is a statement about memory, so this function alone is
    modelled over a heap: a pointer is [None] ([NULL]) or an address, the
    heap maps the addresses of the live nodes to their fields, [free]
    removes an address, and reading through an address that is not live is
    undefined behaviour. *)
Module Heap.

Definition ptr := option nat.

Record htree_node : Type := {
  value : symbol_t;
  frequency : N;
  left : ptr;
  right : ptr
}.

Definition heap := gmap nat htree_node.

Definition is_NULL (p : ptr) : bool :=
  match p with None => true | Some _ => false end.

(** Reading a field through [p]. *)
Definition load (h : gmap nat htree_node) (p : ptr) : outcome htree_node :=
  match p with
  | None => Undefined
  | Some a =>
      match h !! a with
      | None => Undefined
      | Some node => Ret node
      end
  end.

(** [free(p)]: nothing for [NULL], undefined for an address that is not live. *)
Definition free (h : gmap nat htree_node) (p : ptr) : outcome (gmap nat htree_node) :=
  match p with
  | None => Ret h
  | Some a =>
      match h !! a with
      | None => Undefined
      | Some _ => Ret (delete a h)
      end
  end.

Section Free.

Variable DEBUG : bool.

(** A contract whose condition reads the heap: the condition is evaluated
    only under [DEBUG]. *)
Definition contract (c : outcome bool) : outcome unit :=
  if DEBUG then (b ← c; if (b : bool) then Ret tt else Abort)
  else Ret tt.

Definition is_htree_leaf (h : gmap nat htree_node) (H : ptr) : outcome bool :=
  if is_NULL H then Ret false
  else
    node ← load h H;
    if (frequency node <=? 0)%N then Ret false
    else Ret (is_NULL (left node) && is_NULL (right node)).

(** [is_htree] with the body of [is_htree_interior] in place; [fuel] bounds
    the depth of the recursion. *)
Fixpoint is_htree (fuel : nat) (h : gmap nat htree_node) (H : ptr) : outcome bool :=
  match fuel with
  | O => OutOfFuel
  | S fuel' =>
      if is_NULL H then Ret false
      else
        leaf ← is_htree_leaf h H;
        if (leaf : bool) then Ret true
        else if is_NULL H then Ret false
        else
          node ← load h H;
          wl ← is_htree fuel' h (left node);
          if negb wl then Ret false
          else
            wr ← is_htree fuel' h (right node);
            if negb wr then Ret false
            else
              nl ← load h (left node);
              nr ← load h (right node);
              Ret (frequency node =? uint_add (frequency nl) (frequency nr))%N
  end.

Definition is_htree_interior (fuel : nat) (h : gmap nat htree_node) (H : ptr)
  : outcome bool :=
  if is_NULL H then Ret false
  else
    node ← load h H;
    wl ← is_htree fuel h (left node);
    if negb wl then Ret false
    else
      wr ← is_htree fuel h (right node);
      if negb wr then Ret false
      else
        nl ← load h (left node);
        nr ← load h (right node);
        Ret (frequency node =? uint_add (frequency nl) (frequency nr))%N.

(** The body of the source, statement by statement: the branch of the leaf
    has no [return], so control goes on to the assertion. *)
Fixpoint free_htree (fuel : nat) (h : gmap nat htree_node) (tree : ptr)
  : outcome (gmap nat htree_node) :=
  match fuel with
  | O => OutOfFuel
  | S fuel' =>
      contract (is_htree fuel h tree);;
      leaf ← is_htree_leaf h tree;
      h ← (if (leaf : bool) then free h tree else Ret h);
      contract (is_htree_interior fuel h tree);;
      node ← load h tree;
      h ← free_htree fuel' h (left node);
      node ← load h tree;
      h ← free_htree fuel' h (right node);
      free h tree
  end.

(** The destructor given to the priority queue. *)
Definition elem_free (fuel : nat) (h : gmap nat htree_node) (e : ptr)
  : outcome (gmap nat htree_node) :=
  let tree := e in
  contract (is_htree fuel h tree);;
  free_htree fuel h tree.

End Free.

End Heap.

(** ** A priority queue to run the codec with *)

(** Modelled from the spec: the priority queue of [lib/heaps.h], which is
    not part of the sources.  The items are kept in a list ordered by the
    injected strict comparator, an item entering behind the items that it
    does not strictly precede; [pq_rem] takes the head of the list. *)
Record list_pq : Type := {
  lq_capacity : nat;
  lq_prior : htree -> htree -> outcome bool;
  lq_items : list htree
}.

Fixpoint lq_insert (prior : htree -> htree -> outcome bool) (e : htree)
    (items : list htree) : list htree :=
  match items with
  | [] => [e]
  | x :: rest =>
      match prior e x with
      | Ret true => e :: x :: rest
      | _ => x :: lq_insert prior e rest
      end
  end.

#[global] Instance list_priority_queue : PriorityQueue htree := {|
  pq_t := list_pq;
  pq_new := fun cap prior =>
    {| lq_capacity := cap; lq_prior := prior; lq_items := [] |};
  pq_empty := fun Q => match lq_items Q with [] => true | _ :: _ => false end;
  pq_full := fun Q => lq_capacity Q <=? length (lq_items Q);
  pq_add := fun Q e =>
    {| lq_capacity := lq_capacity Q; lq_prior := lq_prior Q;
       lq_items := lq_insert (lq_prior Q) e (lq_items Q) |};
  pq_rem := fun Q =>
    match lq_items Q with
    | [] => (Null, Q)
    | x :: rest =>
        (x, {| lq_capacity := lq_capacity Q; lq_prior := lq_prior Q;
               lq_items := rest |})
    end;
  pq_elems := lq_items;
  pq_capacity := lq_capacity
|}.

(** ** Notions of the specification *)

(** The symbols with nonzero frequency, in increasing order. *)
Definition nonzero_symbols (table : freqtable_t) : list symbol_t :=
  filter (fun i => table !! i <> Some 0%N) (seq 0 (length table)).

(** The symbols at the leaves, from left to right; a leaf is a node that
    [is_htree_leaf] accepts. *)
Fixpoint leaves (H : htree) : list symbol_t :=
  match H with
  | Null => []
  | Node v _ l r => if is_htree_leaf H then [v] else leaves l ++ leaves r
  end.

(** The symbol of the leaf that [path] leads to from [H], '0' going left
    and '1' going right; [None] when the path leaves the tree, stops above a
    leaf, goes on below one, or holds another character. *)
Fixpoint leaf_at (H : htree) (path : bitstring_t) : option symbol_t :=
  match H with
  | Null => None
  | Node v _ l r =>
      if is_htree_leaf H then
        match path with [] => Some v | _ :: _ => None end
      else
        match path with
        | [] => None
        | c :: path' =>
            if Ascii.eqb c "0" then leaf_at l path'
            else if Ascii.eqb c "1" then leaf_at r path'
            else None
        end
  end.

(** The node that [path] leads to from [H], by the decoder's reading of the
    characters. *)
Fixpoint node_at (H : htree) (path : bitstring_t) : outcome htree :=
  match path with
  | [] => Ret H
  | c :: path' => child ← descend H c; node_at child path'
  end.

Fixpoint nodes (H : htree) : nat :=
  match H with
  | Null => 0
  | Node _ _ l r => S (nodes l + nodes r)
  end.

(** The traversal that both passes of the decoder make, as a function:
    the node reached when the string ends, and the symbols of the leaves
    met on the way.  It agrees with the two loops on trees whose root is an
    interior node ([decode_loops]). *)
Fixpoint traverse (H node : htree) (code : bitstring_t) : htree * list symbol_t :=
  match code with
  | [] => (node, [])
  | c :: code' =>
      if is_nul c then (node, [])
      else
        let child :=
          match node with
          | Null => Null
          | Node _ _ l r => if Ascii.eqb c "0" then l else r
          end in
        if is_htree_leaf child
        then ((traverse H H code').1,
              match child with Null => 0 | Node v _ _ _ => v end
                :: (traverse H H code').2)
        else traverse H child code'
  end.

(** The characters of the code of [sym] in [table]. *)
Definition code_string (table : codetable_t) (sym : symbol_t) : bitstring_t :=
  match table !! sym with
  | Some (Some bs) => c_string bs
  | _ => []
  end.

(** The sum of a frequency table, without wrap-around. *)
Definition total_frequency (table : freqtable_t) : N := foldr N.add 0%N table.

(** The frequency stored at the root of a tree, and the sum of these over
    the trees of a list. *)
Definition root_frequency (H : htree) : N :=
  match H with Null => 0%N | Node _ f _ _ => f end.

Definition sum_frequency (trees : list htree) : N :=
  foldr (fun t acc => (root_frequency t + acc)%N) 0%N trees.

(** The symbols with nonzero frequency among the first [i], and the leaves
    that [build_pq] makes for them. *)
Definition nonzero_below (table : freqtable_t) (i : nat) : list symbol_t :=
  filter (fun j => table !! j <> Some 0%N) (seq 0 i).

Definition leaf_node (table : freqtable_t) (j : symbol_t) : htree :=
  Node j (default 0%N (table !! j)) Null Null.

Definition leaf_nodes (table : freqtable_t) (i : nat) : list htree :=
  map (leaf_node table) (nonzero_below table i).

(** Every interior node holds the sum of its children, the sum being that
    of the natural numbers. *)
Fixpoint exact_sums (H : htree) : Prop :=
  match H with
  | Null => True
  | Node _ f l r =>
      is_htree_leaf H = true \/
      (exact_sums l /\ exact_sums r /\
       match l, r with
       | Node _ fl _ _, Node _ fr _ _ => f = (fl + fr)%N
       | _, _ => False
       end)
  end.

(** A string without a NUL character. *)
Definition nul_free (s : bitstring_t) : Prop := Forall (fun c => is_nul c = false) s.

(** What the decoder takes a character for. *)
Definition as_bit (c : bit_t) : bit_t :=
  if Ascii.eqb c "0" then "0"%char else "1"%char.

(** The value packed from the first [n] characters of a group, the first
    one weighing [placeval]. *)
Fixpoint chunk_value (n : nat) (s : bitstring_t) (placeval : Z) : Z :=
  match n, s with
  | S n', c :: rest =>
      ((if Ascii.eqb c "1" then placeval else 0) + chunk_value n' rest (placeval / 2))%Z
  | _, _ => 0%Z
  end.

(** The byte packed from the group that starts at bit [8 * i]. *)
Definition packed_byte (s : bitstring_t) (i : nat) : Z :=
  chunk_value 8 (drop (i * 8) s) 128.

(** The eight characters that [byte2bit] writes for a byte. *)
Definition digits (byte : Z) : bitstring_t := map (byte2bit_digit byte) (seq 0 8).

(** A group of up to eight bits, filled with '0' to eight. *)
Definition padded_group (s : bitstring_t) (i : nat) : bitstring_t :=
  take 8 (drop (i * 8) s ++ replicate 8 "0"%char).

(** A well-formed node that is not a leaf. *)
Definition interior (H : htree) : Prop :=
  is_htree H = true /\ is_htree_leaf H = false.

(** Every symbol of [src] has a string in the table. *)
Definition populated (table : codetable_t) (src : list symbol_t) : Prop :=
  forall sym, sym ∈ src -> exists bs, table !! sym = Some (Some bs).

(** The queue that the loop of [build_pq] leaves: one leaf for every symbol
    with nonzero frequency. *)
Definition leaf_queue {PQ : PriorityQueue htree} (NUM_SYMBOLS : nat)
    (table : freqtable_t) (i : nat) (st : pq_t * nat) : Prop :=
  st.2 = length (nonzero_below table i) /\
  pq_capacity st.1 = NUM_SYMBOLS /\
  pq_elems st.1 ≡ₚ leaf_nodes table i.

(** The number of edges on the longest path from the root to a leaf. *)
Fixpoint height (H : htree) : nat :=
  match H with
  | Null => 0
  | Node _ _ l r => if is_htree_leaf H then 0 else S (Nat.max (height l) (height r))
  end.

(** The leaves with their frequencies, from left to right. *)
Fixpoint leaf_counts (H : htree) : list (symbol_t * N) :=
  match H with
  | Null => []
  | Node v f l r => if is_htree_leaf H then [(v, f)] else leaf_counts l ++ leaf_counts r
  end.

(** At every interior node the frequency stored at the left child is not
    greater than the one stored at the right child. *)
Fixpoint lighter_left (H : htree) : Prop :=
  match H with
  | Null => True
  | Node _ _ l r =>
      is_htree_leaf H = true \/
      (lighter_left l /\ lighter_left r /\
       (root_frequency l <= root_frequency r)%N)
  end.

(** The number of times a symbol occurs in a text. *)
Definition occurrences (contents : list ascii) (sym : symbol_t) : nat :=
  length (filter (fun ch => nat_of_ascii ch = sym) contents).

(** The heap [h] holds the tree [t] at [p]: every node of [t] is live in
    [h] with the fields of [t]. *)
Inductive heap_tree (h : gmap nat Heap.htree_node) : Heap.ptr -> htree -> Prop :=
| heap_tree_null : heap_tree h None Null
| heap_tree_node (a : nat) (node : Heap.htree_node) (l r : htree) :
    h !! a = Some node ->
    heap_tree h (Heap.left node) l ->
    heap_tree h (Heap.right node) r ->
    heap_tree h (Some a) (Node (Heap.value node) (Heap.frequency node) l r).

(** The node that a round of [build_htree] makes of the two trees it took
    from the queue. *)
Definition merged (tree1 tree2 : htree) : htree :=
  if (root_frequency tree1 <=? root_frequency tree2)%N
  then Node 0 (uint_add (root_frequency tree1) (root_frequency tree2)) tree1 tree2
  else Node 0 (uint_add (root_frequency tree1) (root_frequency tree2)) tree2 tree1.

(** The sum of the frequencies of a list of leaves. *)
Definition count_sum (counts : list (symbol_t * N)) : N :=
  foldr (fun p acc => (p.2 + acc)%N) 0%N counts.

(** The symbols of nonzero frequency with their entries of the table. *)
Definition nonzero_counts (table : freqtable_t) : list (symbol_t * N) :=
  map (fun sym => (sym, default 0%N (table !! sym))) (nonzero_symbols table).

(** A heap that holds the tree of two leaves at the address 1. *)
Definition two_leaves_heap : gmap nat Heap.htree_node :=
  <[1 := {| Heap.value := 0; Heap.frequency := 5;
            Heap.left := Some 2; Heap.right := Some 3 |}]>
  (<[2 := {| Heap.value := 97; Heap.frequency := 3;
             Heap.left := None; Heap.right := None |}]>
  (<[3 := {| Heap.value := 98; Heap.frequency := 2;
             Heap.left := None; Heap.right := None |}]> ∅)).

(** What [populate_byte_array] takes a character for when its assertions
    are off. *)
Definition as_packed_bit (c : bit_t) : bit_t :=
  if Ascii.eqb c "1" then "1"%char else "0"%char.

(** [code] is the codes of the symbols [syms] in the tree, one after the
    other. *)
Definition codes_of (H : htree) (syms : list symbol_t) (code : bitstring_t)
  : Prop :=
  exists paths : list bitstring_t,
    Forall2 (fun sym path => leaf_at H path = Some sym) syms paths /\
    concat paths = code.

(** [code] ends on a code boundary: it is the codes of some symbols, with
    nothing left over. *)
Definition code_boundary (H : htree) (code : bitstring_t) : Prop :=
  exists syms, codes_of H syms code.

(** ** Inputs to run the codec on *)

(** The frequencies of "aaabbc" over an alphabet of four symbols. *)
Definition example_table : freqtable_t := [3%N; 2%N; 1%N; 0%N].

(** The tree with codes a = "0", b = "1". *)
Definition two_leaves : htree :=
  Node 0 5 (Node 97 3 Null Null) (Node 98 2 Null Null).

Definition one_leaf : htree := Node 97 5 Null Null.

(** The tree with codes a = "0", c = "10", b = "11". *)
Definition three_leaves : htree :=
  Node 0 6 (Node 97 3 Null Null)
           (Node 0 3 (Node 99 1 Null Null) (Node 98 2 Null Null)).

(** * Proofs *)

(** ** Outcomes and loops *)

Lemma bind_Ret {A B} (f : A -> outcome B) (a : A) : (Ret a ≫= f) = f a.
Proof. reflexivity. Qed.

Lemma bind_Ret_inv {A B} (f : A -> outcome B) (m : outcome A) (b : B) :
  (m ≫= f) = Ret b -> exists a, m = Ret a /\ f a = Ret b.
Proof. destruct m; simpl; intros E; try discriminate. eauto. Qed.

Lemma bind_ext {A B} (f g : A -> outcome B) (m : outcome A) :
  (forall a, f a = g a) -> (m ≫= f) = (m ≫= g).
Proof. intros E. destruct m; simpl; auto. Qed.

Lemma contract_true DEBUG : contract DEBUG true = Ret tt.
Proof. reflexivity. Qed.

(** Total correctness of a [for] loop from an invariant. *)
Lemma for_loop_inv {St : Type} (P : nat -> St -> Prop) (body : nat -> St -> outcome St) :
  forall n i s,
    P i s ->
    (forall j t, i <= j < i + n -> P j t -> exists t', body j t = Ret t' /\ P (S j) t') ->
    exists s', for_loop n i body s = Ret s' /\ P (i + n) s'.
Proof.
  induction n as [|n IH]; intros i s Hs Hbody; simpl.
  - exists s. rewrite Nat.add_0_r. auto.
  - destruct (Hbody i s) as (t' & E & Ht'); [lia | assumption |].
    rewrite E; simpl.
    destruct (IH (S i) t') as (s' & E' & Hs'); [assumption | |].
    + intros j t Hj. apply Hbody. lia.
    + exists s'. split; [assumption |]. replace (i + S n) with (S i + n) by lia. assumption.
Qed.

Lemma store_middle {A} (w : list A) (y : A) (rest : list A) (x : A) :
  store (w ++ y :: rest) (length w) x = Ret (w ++ x :: rest).
Proof.
  unfold store. rewrite length_app. simpl.
  destruct (Nat.ltb_spec (length w) (length w + S (length rest))); [| lia].
  f_equal. rewrite insert_app_r_alt by lia. rewrite Nat.sub_diag. reflexivity.
Qed.

(** ** Strings *)

Lemma is_bit_not_nul c : is_bit c -> is_nul c = false.
Proof. intros [-> | ->]; reflexivity. Qed.

Lemma c_string_bits s : bits_ok s -> c_string s = s.
Proof.
  induction 1 as [|c s Hc Hs IH]; simpl; [reflexivity |].
  rewrite (is_bit_not_nul c Hc), IH. reflexivity.
Qed.

Lemma c_string_app_nul s t : bits_ok s -> c_string (s ++ NUL :: t) = s.
Proof.
  induction 1 as [|c s Hc Hs IH]; simpl; [reflexivity |].
  rewrite (is_bit_not_nul c Hc), IH. reflexivity.
Qed.

(** ** Packing *)

Lemma get_res_len_ceil n : get_res_len n = (n + 7) / 8.
Proof.
  unfold get_res_len.
  pose proof (Nat.div_mod_eq n 8) as E.
  pose proof (Nat.mod_upper_bound n 8 ltac:(lia)) as B.
  destruct (Nat.eqb_spec (n mod 8) 0) as [Hz | Hnz].
  - apply (Nat.div_unique _ 8 _ 7); lia.
  - apply (Nat.div_unique _ 8 _ (n mod 8 - 1)); lia.
Qed.

Lemma pow2_half (k : nat) : (2 ^ Z.of_nat (S k) / 2 = 2 ^ Z.of_nat k)%Z.
Proof.
  rewrite Nat2Z.inj_succ, Z.pow_succ_r by lia.
  rewrite Z.mul_comm, Z.div_mul by lia. reflexivity.
Qed.

Lemma chunk_value_bound n s (k : nat) :
  n <= S k -> (0 <= chunk_value n s (2 ^ Z.of_nat k) < 2 ^ Z.of_nat (S k))%Z.
Proof.
  revert s k. induction n as [|n IH]; intros s k Hn; simpl.
  - pose proof (Z.pow_pos_nonneg 2 (Z.of_nat (S k))). lia.
  - destruct s as [|c rest].
    + pose proof (Z.pow_pos_nonneg 2 (Z.of_nat (S k))). lia.
    + assert (Hp : (2 ^ Z.of_nat (S k) = 2 * 2 ^ Z.of_nat k)%Z).
      { rewrite Nat2Z.inj_succ, Z.pow_succ_r by lia. reflexivity. }
      assert (Hpos : (0 < 2 ^ Z.of_nat k)%Z) by (apply Z.pow_pos_nonneg; lia).
      assert (Hrest : (0 <= chunk_value n rest (2 ^ Z.of_nat k / 2) < 2 ^ Z.of_nat k)%Z).
      { destruct k as [|k].
        - destruct n; [| lia]. simpl. lia.
        - rewrite pow2_half. apply IH. lia. }
      destruct (Ascii.eqb c "1"); lia.
Qed.

Section Packing.

Variable DEBUG : bool.

Lemma pack_byte_value n : forall s (k : nat) byte,
  bits_ok s -> n <= S k -> (0 <= byte)%Z ->
  (byte + 2 ^ Z.of_nat (S k) <= 256)%Z ->
  pack_byte DEBUG n s byte (2 ^ Z.of_nat k) =
    Ret (byte + chunk_value n s (2 ^ Z.of_nat k))%Z.
Proof.
  induction n as [|n IH]; intros s k byte Hs Hn Hb Hfit; simpl.
  - f_equal; lia.
  - destruct Hs as [|c rest Hc Hrest]; [f_equal; lia |].
    rewrite (is_bit_not_nul c Hc).
    assert (Hp : (2 ^ Z.of_nat (S k) = 2 * 2 ^ Z.of_nat k)%Z).
    { rewrite Nat2Z.inj_succ, Z.pow_succ_r by lia. reflexivity. }
    assert (Hpos : (0 < 2 ^ Z.of_nat k)%Z) by (apply Z.pow_pos_nonneg; lia).
    assert (Hpv : (0 <? 2 ^ Z.of_nat k)%Z = true) by (apply Z.ltb_lt; assumption).
    unfold ASSERT. rewrite Hpv. simpl.
    assert (Hnext : forall b, (0 <= b)%Z -> (b + 2 ^ Z.of_nat k <= 256)%Z ->
      pack_byte DEBUG n rest b (2 ^ Z.of_nat k / 2) =
        Ret (b + chunk_value n rest (2 ^ Z.of_nat k / 2))%Z).
    { intros b Hb0 Hb1. destruct k as [|k].
      - destruct n; [| lia]. simpl. f_equal; lia.
      - rewrite pow2_half. apply IH; [assumption | lia | assumption | assumption]. }
    destruct Hc as [-> | ->]; simpl.
    + rewrite Hnext by lia. f_equal; lia.
    + rewrite Z.mul_1_r, Z.mod_small by lia. rewrite Hnext by lia. f_equal; lia.
Qed.

End Packing.

(** Bits of a sum of a multiple of [2^k] and a remainder below [2^k]. *)
Lemma testbit_weight_low (b r : Z) (k m : nat) :
  m < k -> Z.testbit (b * 2 ^ Z.of_nat k + r) (Z.of_nat m) = Z.testbit r (Z.of_nat m).
Proof.
  intros Hm.
  rewrite <- (Z.mod_pow2_bits_low (b * 2 ^ Z.of_nat k + r) (Z.of_nat k)) by lia.
  rewrite <- (Z.mod_pow2_bits_low r (Z.of_nat k) (Z.of_nat m)) by lia.
  f_equal. rewrite Z.add_comm, Z_mod_plus_full. reflexivity.
Qed.

Lemma testbit_weight_high (b r : Z) (k : nat) :
  (0 <= r < 2 ^ Z.of_nat k)%Z ->
  Z.testbit (b * 2 ^ Z.of_nat k + r) (Z.of_nat k) = Z.odd b.
Proof.
  intros Hr.
  rewrite <- (Z.add_0_l (Z.of_nat k)) at 2.
  rewrite <- Z.div_pow2_bits by lia.
  rewrite Z.bit0_odd. f_equal.
  rewrite Z.add_comm, Z.div_add by lia.
  rewrite Z.div_small by lia. reflexivity.
Qed.

Lemma chunk_value_testbit n : forall s (k j : nat),
  bits_ok s -> n <= S k -> j < n ->
  Z.testbit (chunk_value n s (2 ^ Z.of_nat k)) (Z.of_nat (k - j)) =
    bool_decide (s !! j = Some "1"%char).
Proof.
  induction n as [|n IH]; intros s k j Hs Hn Hj; [lia |].
  destruct Hs as [|c rest Hc Hrest].
  - simpl. rewrite Z.bits_0. reflexivity.
  - simpl chunk_value.
    assert (Hrest_b : (0 <= chunk_value n rest (2 ^ Z.of_nat k / 2) < 2 ^ Z.of_nat k)%Z).
    { destruct k as [|k].
      - destruct n; [| lia]. simpl. lia.
      - rewrite pow2_half. apply chunk_value_bound. lia. }
    set (b := (if Ascii.eqb c "1" then 1 else 0)%Z).
    replace (if Ascii.eqb c "1" then 2 ^ Z.of_nat k else 0)%Z with (b * 2 ^ Z.of_nat k)%Z
      by (subst b; destruct (Ascii.eqb c "1"); lia).
    destruct j as [|j].
    + rewrite Nat.sub_0_r, testbit_weight_high by assumption.
      subst b. simpl. destruct Hc as [-> | ->]; reflexivity.
    + destruct k as [|k]; [lia |].
      rewrite testbit_weight_low by lia.
      rewrite pow2_half. simpl. apply IH; [assumption | lia | lia].
Qed.

Section PackingLaws.

Variable DEBUG : bool.

Lemma get_res_len_covers n i : i < get_res_len n -> i * 8 < n.
Proof.
  rewrite get_res_len_ceil. intros Hi.
  pose proof (Nat.div_mod_eq (n + 7) 8) as E.
  pose proof (Nat.mod_upper_bound (n + 7) 8 ltac:(lia)). lia.
Qed.

Lemma populate_byte_array_fill (s : bitstring_t) (n : nat) :
  bits_ok s -> n <= get_res_len (length s) ->
  populate_byte_array DEBUG (replicate n 0%Z) n s = Ret (map (packed_byte s) (seq 0 n)).
Proof.
  intros Hs Hn. unfold populate_byte_array.
  destruct (for_loop_inv
    (fun i bytes => bytes = map (packed_byte s) (seq 0 i) ++ replicate (n - i) 0%Z)
    (fun i bytes =>
       ASSERT DEBUG (i * 8 <? strlen s);;
       if length s <? i * 8 then Undefined
       else byte ← pack_byte DEBUG 8 (drop (i * 8) s) 0%Z 128%Z; store bytes i byte)
    n 0 (replicate n 0%Z)) as (bytes & E & Hbytes).
  - simpl. rewrite Nat.sub_0_r. reflexivity.
  - intros j t Hj ->.
    assert (Hlt : j * 8 < length s) by (apply get_res_len_covers; lia).
    unfold strlen. rewrite (c_string_bits s Hs).
    destruct (Nat.ltb_spec (j * 8) (length s)); [| lia].
    destruct (Nat.ltb_spec (length s) (j * 8)); [lia |].
    change (ASSERT DEBUG true) with (Ret (A:=unit) tt). rewrite bind_Ret.
    change 128%Z with (2 ^ Z.of_nat 7)%Z.
    rewrite (pack_byte_value DEBUG 8 (drop (j * 8) s) 7 0);
      [| apply Forall_drop; assumption | lia | lia | simpl; lia].
    simpl mbind.
    replace (n - j) with (S (n - S j)) by lia. simpl replicate.
    pose proof (store_middle (map (packed_byte s) (seq 0 j)) 0%Z
                  (replicate (n - S j) 0%Z)) as St.
    rewrite length_map, length_seq in St. rewrite St.
    eexists; split; [reflexivity |].
    rewrite seq_S, map_app. simpl. rewrite <- app_assoc. reflexivity.
  - rewrite E. f_equal. rewrite Hbytes. simpl.
    rewrite Nat.sub_diag. simpl. apply app_nil_r.
Qed.

Lemma pack_bytes (s : bitstring_t) :
  bits_ok s ->
  pack DEBUG s = Ret (map (packed_byte s) (seq 0 (get_res_len (length s)))).
Proof.
  intros Hs. unfold pack, strlen. rewrite (c_string_bits s Hs).
  apply populate_byte_array_fill; [assumption | lia].
Qed.

End PackingLaws.

(** ** Unpacking *)

Lemma byte2bit_digit_testbit byte (i : nat) :
  i < 8 ->
  byte2bit_digit byte i = if Z.testbit byte (Z.of_nat (7 - i)) then "1"%char else "0"%char.
Proof.
  intros Hi. unfold byte2bit_digit, byte2bit_shift.
  replace (8 - i - 1) with (7 - i) by lia.
  change 1%Z with (Z.ones 1) at 1. rewrite Z.land_ones by lia.
  change (2 ^ 1)%Z with 2%Z.
  rewrite <- (Z.bit0_mod (Z.shiftr byte (Z.of_nat (7 - i)))).
  rewrite Z.shiftr_spec, Z.add_0_l by lia.
  destruct (Z.testbit byte (Z.of_nat (7 - i))); reflexivity.
Qed.

Lemma length_digits byte : length (digits byte) = 8.
Proof. reflexivity. Qed.

Lemma byte2bit_shift_bit byte i :
  ((byte2bit_shift byte i =? 1)%Z || (byte2bit_shift byte i =? 0)%Z) = true.
Proof.
  unfold byte2bit_shift.
  change 1%Z with (Z.ones 1) at 1 3. rewrite Z.land_ones by lia.
  change (2 ^ 1)%Z with 2%Z.
  pose proof (Z.mod_pos_bound (Z.shiftr byte (Z.of_nat (8 - i - 1))) 2 ltac:(lia)) as B.
  apply orb_true_iff. rewrite Z.eqb_eq, Z.eqb_eq. change (Z.ones 1) with 1%Z. lia.
Qed.

Section Unpacking.

Variable DEBUG : bool.

Lemma byte2bit_fill (w : bitstring_t) (k : nat) byte :
  byte2bit DEBUG (w ++ replicate (8 + k) NUL) (length w) byte =
    Ret (w ++ digits byte ++ replicate k NUL).
Proof.
  unfold byte2bit.
  destruct (for_loop_inv
    (fun j buf => buf = w ++ map (byte2bit_digit byte) (seq 0 j) ++ replicate (8 - j + k) NUL)
    (fun i bits =>
       ASSERT DEBUG ((byte2bit_shift byte i =? 1)%Z || (byte2bit_shift byte i =? 0)%Z);;
       store bits (length w + i) (byte2bit_digit byte i))
    8 0 (w ++ replicate (8 + k) NUL)) as (buf & E & Hbuf).
  - reflexivity.
  - intros j t Hj ->.
    unfold ASSERT. rewrite byte2bit_shift_bit, contract_true, bind_Ret.
    replace (8 - j + k) with (S (7 - j + k)) by lia. simpl replicate.
    pose proof (store_middle (w ++ map (byte2bit_digit byte) (seq 0 j)) NUL
                  (replicate (7 - j + k) NUL) (byte2bit_digit byte j)) as St.
    rewrite length_app, length_map, length_seq, <- !app_assoc in St.
    rewrite St. eexists; split; [reflexivity |].
    rewrite seq_S, map_app, <- !app_assoc. reflexivity.
  - cbv zeta. rewrite E, Hbuf. reflexivity.
Qed.

Lemma length_flat_map_digits (c : list Z) : length (flat_map digits c) = 8 * length c.
Proof.
  induction c as [|b c IH]; [reflexivity |].
  change (flat_map digits (b :: c)) with (digits b ++ flat_map digits c).
  rewrite length_app, IH, length_digits. simpl. lia.
Qed.

Lemma unpack_digits (c : list Z) (len : nat) :
  len <= length c ->
  unpack DEBUG c len = Ret (flat_map digits (take len c) ++ [NUL]).
Proof.
  intros Hlen. unfold unpack.
  destruct (for_loop_inv
    (fun i buf => buf = flat_map digits (take i c) ++ replicate (8 * (len - i) + 1) NUL)
    (fun i bits =>
       match c !! i with
       | None => Undefined
       | Some byte => byte2bit DEBUG bits (8 * i) byte
       end)
    len 0 (replicate (8 * len + 1) NUL)) as (buf & E & Hbuf).
  - rewrite Nat.sub_0_r. reflexivity.
  - intros j t Hj ->.
    destruct (lookup_lt_is_Some_2 c j) as [byte Hbyte]; [lia |].
    rewrite Hbyte.
    replace (8 * (len - j) + 1) with (8 + (8 * (len - S j) + 1)) by lia.
    pose proof (byte2bit_fill (flat_map digits (take j c)) (8 * (len - S j) + 1) byte) as Fill.
    rewrite length_flat_map_digits, length_take, Nat.min_l in Fill by lia.
    rewrite Fill. eexists; split; [reflexivity |].
    rewrite (take_S_r c j byte Hbyte), flat_map_app.
    change (flat_map digits [byte]) with (digits byte ++ []).
    rewrite app_nil_r, <- app_assoc. reflexivity.
  - rewrite E, Hbuf. simpl. rewrite Nat.sub_diag. reflexivity.
Qed.

End Unpacking.


Lemma digits_packed_byte (s : bitstring_t) (i : nat) :
  bits_ok s -> digits (packed_byte s i) = padded_group s i.
Proof.
  intros Hs. unfold digits, packed_byte, padded_group.
  assert (Ht : bits_ok (drop (i * 8) s)) by (apply Forall_drop; assumption).
  generalize dependent (drop (i * 8) s). intros t Ht.
  apply list_eq. intros j.
  rewrite list_lookup_fmap.
  destruct (Nat.lt_ge_cases j 8) as [Hj | Hj].
  - rewrite lookup_seq_lt by assumption.
    cbn [fmap option_fmap option_map Nat.add].
    rewrite lookup_take_lt by assumption.
    rewrite byte2bit_digit_testbit by assumption.
    change 128%Z with (2 ^ Z.of_nat 7)%Z.
    rewrite (chunk_value_testbit 8 t 7 j Ht) by lia.
    destruct (Nat.lt_ge_cases j (length t)) as [Hin | Hout].
    + rewrite lookup_app_l by assumption.
      destruct (lookup_lt_is_Some_2 t j Hin) as [c Hc]. rewrite Hc.
      assert (Hbit : is_bit c).
      { eapply Forall_lookup_1; eassumption. }
      destruct Hbit as [-> | ->]; reflexivity.
    + rewrite lookup_app_r by assumption.
      rewrite (lookup_ge_None_2 t j Hout).
      rewrite lookup_replicate_2 by lia. reflexivity.
  - rewrite lookup_seq_ge by assumption. simpl.
    rewrite lookup_take_ge by assumption. reflexivity.
Qed.

Lemma padded_groups (n : nat) : forall s : bitstring_t,
  length s <= 8 * n ->
  flat_map (padded_group s) (seq 0 n) = s ++ replicate (8 * n - length s) "0"%char.
Proof.
  induction n as [|n IH]; intros s Hlen.
  - destruct s; [reflexivity | simpl in Hlen; lia].
  - change (seq 0 (S n)) with (0 :: seq 1 n).
    rewrite <- seq_shift.
    change (flat_map (padded_group s) (0 :: map S (seq 0 n)))
      with (padded_group s 0 ++ flat_map (padded_group s) (map S (seq 0 n))).
    assert (Hshift : flat_map (padded_group s) (map S (seq 0 n)) =
                     flat_map (padded_group (drop 8 s)) (seq 0 n)).
    { rewrite !flat_map_concat_map, map_map. f_equal.
      apply map_ext. intros i. unfold padded_group.
      rewrite drop_drop. repeat f_equal; lia. }
    rewrite Hshift, IH by (rewrite length_drop; lia).
    unfold padded_group. change (drop (0 * 8) s) with s. rewrite length_drop.
    destruct (Nat.le_gt_cases 8 (length s)) as [Hge | Hlt].
    + rewrite take_app_le by assumption.
      rewrite app_assoc, take_drop.
      replace (8 * n - (length s - 8)) with (8 * S n - length s) by lia.
      reflexivity.
    + rewrite take_app_ge by lia.
      rewrite take_replicate, drop_ge by lia. simpl.
      rewrite <- app_assoc, <- replicate_add.
      do 2 f_equal. lia.
Qed.

(** ** Claims on packing *)

Section PackingClaims.

Variable DEBUG : bool.

(** C8: packing a string of n bits gives ceil(n/8) bytes; bit [8*i + j] of
    the string is bit [7 - j] of byte [i], counted from the least
    significant one, so the first bit of a group weighs 128, and the
    positions of the last byte beyond the string are 0; "000101011" packs
    to 0x15, 0x80. *)
Theorem pack_msb_first (s : bitstring_t) :
  bits_ok s ->
  (exists bytes, pack DEBUG s = Ret bytes /\
     length bytes = (length s + 7) / 8 /\
     forall i b, bytes !! i = Some b ->
       (0 <= b < 256)%Z /\
       forall j, j < 8 ->
         Z.testbit b (Z.of_nat (7 - j)) = bool_decide (s !! (8 * i + j) = Some "1"%char)) /\
  pack DEBUG ["0"; "0"; "0"; "1"; "0"; "1"; "0"; "1"; "1"]%char = Ret [0x15; 0x80]%Z.
Proof.
  intros Hs. split.
  - exists (map (packed_byte s) (seq 0 (get_res_len (length s)))).
    split; [apply pack_bytes; assumption |].
    split; [rewrite length_map, length_seq; apply get_res_len_ceil |].
    intros i b Hb.
    rewrite list_lookup_fmap in Hb.
    destruct (seq 0 (get_res_len (length s)) !! i) as [i'|] eqn:Hi; [| discriminate].
    apply lookup_seq in Hi as [-> _]. simpl in Hb. injection Hb as <-.
    unfold packed_byte. change 128%Z with (2 ^ Z.of_nat 7)%Z.
    assert (Ht : bits_ok (drop (i * 8) s)) by (apply Forall_drop; assumption).
    split.
    + pose proof (chunk_value_bound 8 (drop (i * 8) s) 7 ltac:(lia)) as B.
      change (2 ^ Z.of_nat 8)%Z with 256%Z in B. exact B.
    + intros j Hj.
      rewrite (chunk_value_testbit 8 _ 7 j Ht) by lia.
      rewrite lookup_drop. replace (i * 8 + j) with (8 * i + j) by lia. reflexivity.
  - rewrite pack_bytes by (repeat constructor; (left; reflexivity) || (right; reflexivity)).
    reflexivity.
Qed.

(** C3: unpacking the bytes packed from a string of bits gives the string
    followed by '0' characters up to the next multiple of eight. *)
Theorem unpack_pack_padding (s : bitstring_t) :
  bits_ok s ->
  exists bytes buf,
    pack DEBUG s = Ret bytes /\
    unpack DEBUG bytes ((length s + 7) / 8) = Ret buf /\
    let pad := 8 * ((length s + 7) / 8) - length s in
    c_string buf = s ++ replicate pad "0"%char /\
    pad < 8 /\
    length s <= strlen buf /\
    take (length s) (c_string buf) = s.
Proof.
  intros Hs.
  set (n := (length s + 7) / 8).
  assert (Hn : get_res_len (length s) = n) by apply get_res_len_ceil.
  assert (Hlo : length s <= 8 * n /\ 8 * n - length s < 8).
  { subst n. pose proof (Nat.div_mod_eq (length s + 7) 8).
    pose proof (Nat.mod_upper_bound (length s + 7) 8 ltac:(lia)). lia. }
  exists (map (packed_byte s) (seq 0 n)).
  exists (s ++ replicate (8 * n - length s) "0"%char ++ [NUL]).
  split; [rewrite pack_bytes, Hn by assumption; reflexivity |].
  assert (Hpadded : bits_ok (s ++ replicate (8 * n - length s) "0"%char)).
  { apply Forall_app. split; [assumption |].
    apply Forall_replicate. left. reflexivity. }
  assert (Hc : c_string (s ++ replicate (8 * n - length s) "0"%char ++ [NUL]) =
               s ++ replicate (8 * n - length s) "0"%char).
  { rewrite app_assoc. apply c_string_app_nul. assumption. }
  split.
  - rewrite unpack_digits by (rewrite length_map, length_seq; lia).
    rewrite take_ge by (rewrite length_map, length_seq; lia).
    f_equal. rewrite app_assoc. f_equal.
    rewrite flat_map_concat_map, map_map.
    rewrite <- (padded_groups n s) by lia.
    rewrite flat_map_concat_map. f_equal.
    apply map_ext. intros i. apply digits_packed_byte. assumption.
  - cbv zeta. unfold strlen. rewrite Hc.
    split; [reflexivity |]. split; [lia |].
    split; [rewrite length_app; lia |].
    apply take_app_length.
Qed.

End PackingClaims.

(** ** Trees *)

(** The equation of the source for [is_htree]. *)
Lemma is_htree_unfold H :
  is_htree H = if is_null H then false else is_htree_leaf H || is_htree_interior H.
Proof. destruct H; reflexivity. Qed.

Lemma is_htree_leaf_inv H :
  is_htree_leaf H = true ->
  exists v f, H = Node v f Null Null /\ (0 < f)%N.
Proof.
  destruct H as [|v f l r]; simpl; [discriminate |].
  destruct (N.leb_spec f 0); [discriminate |].
  destruct l, r; simpl; try discriminate. eauto.
Qed.

Lemma is_htree_leaf_is_htree H : is_htree_leaf H = true -> is_htree H = true.
Proof. destruct H; simpl; [discriminate |]. intros ->. reflexivity. Qed.

(** A well-formed node that is not a leaf has two well-formed children. *)
Lemma is_htree_interior_inv v f l r :
  is_htree (Node v f l r) = true ->
  is_htree_leaf (Node v f l r) = false ->
  is_htree l = true /\ is_htree r = true /\
  is_htree_interior (Node v f l r) = true.
Proof.
  intros Hw Hl. rewrite is_htree_unfold in Hw. simpl is_null in Hw.
  rewrite Hl in Hw. simpl orb in Hw. split_and!; [| | assumption].
  - simpl in Hw. destruct (is_htree l); [reflexivity | discriminate].
  - simpl in Hw. destruct (is_htree l), (is_htree r); try reflexivity; discriminate.
Qed.

Lemma is_htree_not_null H : is_htree H = true -> is_null H = false.
Proof. destruct H; [discriminate | reflexivity]. Qed.

Lemma leaves_eq v f l r :
  leaves (Node v f l r) =
    if is_htree_leaf (Node v f l r) then [v] else leaves l ++ leaves r.
Proof. reflexivity. Qed.

Lemma leaf_at_eq v f l r path :
  leaf_at (Node v f l r) path =
    if is_htree_leaf (Node v f l r) then
      match path with [] => Some v | _ :: _ => None end
    else
      match path with
      | [] => None
      | c :: path' =>
          if Ascii.eqb c "0" then leaf_at l path'
          else if Ascii.eqb c "1" then leaf_at r path'
          else None
      end.
Proof. reflexivity. Qed.

Lemma leaves_leaf H : is_htree_leaf H = true -> exists v, leaves H = [v] /\ get_value H = Ret v.
Proof.
  intros Hl. destruct H as [|v f l r]; [discriminate |].
  exists v. rewrite leaves_eq, Hl. split; reflexivity.
Qed.

Lemma leaves_interior v f l r :
  is_htree_leaf (Node v f l r) = false ->
  leaves (Node v f l r) = leaves l ++ leaves r.
Proof. intros Hl. rewrite leaves_eq, Hl. reflexivity. Qed.

Lemma leaves_nonempty H : is_htree H = true -> leaves H <> [].
Proof.
  induction H as [|v f l IHl r IHr]; intros Hw; [discriminate |].
  destruct (is_htree_leaf (Node v f l r)) eqn:Hl.
  - destruct (leaves_leaf _ Hl) as (x & -> & _). discriminate.
  - rewrite leaves_interior by assumption.
    destruct (is_htree_interior_inv _ _ _ _ Hw Hl) as (Hwl & _ & _).
    intros E. apply app_eq_nil in E as [E _]. exact (IHl Hwl E).
Qed.

(** A tree with two leaves or more has an interior root. *)
Lemma two_leaves_interior H :
  2 <= length (leaves H) -> is_htree_leaf H = false.
Proof.
  intros Hlen. destruct (is_htree_leaf H) eqn:Hl; [| reflexivity].
  destruct (leaves_leaf _ Hl) as (x & E & _). rewrite E in Hlen. simpl in Hlen. lia.
Qed.

Lemma leaf_at_bits H : forall path sym, leaf_at H path = Some sym -> bits_ok path.
Proof.
  induction H as [|v f l IHl r IHr]; intros path sym; [discriminate |].
  rewrite leaf_at_eq. destruct (is_htree_leaf (Node v f l r)).
  - destruct path; [constructor | discriminate].
  - destruct path as [|c path]; [discriminate |].
    destruct (Ascii.eqb_spec c "0") as [-> | _].
    + intros E. constructor; [left; reflexivity | exact (IHl _ _ E)].
    + destruct (Ascii.eqb_spec c "1") as [-> | _]; [| discriminate].
      intros E. constructor; [right; reflexivity | exact (IHr _ _ E)].
Qed.

Lemma leaf_at_leaves H : forall path sym, leaf_at H path = Some sym -> sym ∈ leaves H.
Proof.
  induction H as [|v f l IHl r IHr]; intros path sym; [discriminate |].
  rewrite leaf_at_eq, leaves_eq. destruct (is_htree_leaf (Node v f l r)).
  - destruct path; [| discriminate]. intros [= ->]. apply list_elem_of_singleton. reflexivity.
  - destruct path as [|c path]; [discriminate |].
    rewrite elem_of_app.
    destruct (Ascii.eqb c "0"); [eauto |].
    destruct (Ascii.eqb c "1"); [eauto | discriminate].
Qed.

(** A node below the root is not the root: comparing the values of two
    nodes of one tree is comparing their addresses. *)
Lemma node_at_nodes : forall path H node,
  node_at H path = Ret node -> path <> [] -> nodes node < nodes H.
Proof.
  induction path as [|c path IH]; intros H node E Hne; [congruence |].
  simpl in E. apply bind_Ret_inv in E as (child & Hc & E).
  assert (Hchild : nodes child < nodes H).
  { unfold descend in Hc. destruct H as [|v f l r]; [destruct (Ascii.eqb c "0"); discriminate |].
    simpl in Hc. destruct (Ascii.eqb c "0"); injection Hc as <-; simpl; lia. }
  destruct path as [|c' path'].
  - simpl in E. injection E as <-. assumption.
  - specialize (IH child node E ltac:(discriminate)). lia.
Qed.

Lemma below_root_neq H path node :
  node_at H path = Ret node -> path <> [] -> node <> H.
Proof.
  intros E Hne ->. pose proof (node_at_nodes _ _ _ E Hne). lia.
Qed.

(** ** Code tables *)

Lemma nul_free_bits s : bits_ok s -> nul_free s.
Proof. intros Hs. eapply Forall_impl; [exact Hs | exact is_bit_not_nul]. Qed.

Lemma c_string_nul_free s : nul_free s -> c_string s = s.
Proof.
  induction 1 as [|c s Hc Hs IH]; simpl; [reflexivity |].
  rewrite Hc, IH. reflexivity.
Qed.

Lemma nul_free_c_string s : nul_free (c_string s).
Proof.
  induction s as [|c s IH]; simpl; [constructor |].
  destruct (is_nul c) eqn:Hc; constructor; assumption.
Qed.

Lemma c_string_until_nul s t : nul_free s -> c_string (s ++ NUL :: t) = s.
Proof.
  induction 1 as [|c s Hc Hs IH]; simpl; [reflexivity |].
  rewrite Hc, IH. reflexivity.
Qed.

Section CodeTable.

Variable DEBUG : bool.

Lemma htree_to_codetable_body_eq H table prev_string :
  htree_to_codetable_body DEBUG H table prev_string =
    (REQUIRES DEBUG (is_htree H);;
     if is_htree_leaf H then
       v ← get_value H; store table v (Some prev_string)
     else
       ASSERT DEBUG (is_htree_interior H);;
       match H with
       | Null => Undefined
       | Node _ _ l r =>
           table ← htree_to_codetable_body DEBUG l table (next_path prev_string "0");
           htree_to_codetable_body DEBUG r table (next_path prev_string "1")
       end).
Proof. destruct H; reflexivity. Qed.

(** The table after the traversal of [H]: entries of other symbols are
    kept, and every symbol at a leaf has the path to one of its leaves. *)
Lemma htree_to_codetable_body_spec H :
  forall (table : codetable_t) (prev : bitstring_t),
    is_htree H = true -> bits_ok prev ->
    (forall sym, sym ∈ leaves H -> sym < length table) ->
    exists table' : codetable_t,
      htree_to_codetable_body DEBUG H table prev = Ret table' /\
      length table' = length table /\
      (forall sym, sym ∉ leaves H -> table' !! sym = table !! sym) /\
      (forall sym, sym ∈ leaves H ->
         exists path, table' !! sym = Some (Some (prev ++ path)) /\
                      leaf_at H path = Some sym).
Proof.
  induction H as [|v f l IHl r IHr]; intros table prev Hw Hprev Hrange;
    [discriminate |].
  rewrite htree_to_codetable_body_eq. unfold REQUIRES, ASSERT.
  rewrite Hw, contract_true, bind_Ret.
  destruct (is_htree_leaf (Node v f l r)) eqn:Hl.
  - rewrite leaves_eq, Hl in Hrange |- *.
    assert (Hv : v < length table).
    { apply Hrange. apply list_elem_of_singleton. reflexivity. }
    simpl get_value. rewrite bind_Ret. unfold store.
    destruct (Nat.ltb_spec v (length table)); [| lia].
    eexists; split; [reflexivity |]. split; [apply length_insert |]. split.
    + intros sym Hsym. apply list_lookup_insert_ne.
      intros ->. apply Hsym. apply list_elem_of_singleton. reflexivity.
    + intros sym Hsym. apply list_elem_of_singleton in Hsym as ->.
      exists []. rewrite app_nil_r, leaf_at_eq, Hl.
      split; [apply list_lookup_insert_eq; assumption | reflexivity].
  - destruct (is_htree_interior_inv _ _ _ _ Hw Hl) as (Hwl & Hwr & Hi).
    rewrite Hi, contract_true, bind_Ret.
    rewrite leaves_interior in Hrange |- * by assumption.
    unfold next_path. rewrite (c_string_bits prev Hprev).
    destruct (IHl table (prev ++ ["0"%char])) as (t1 & E1 & Len1 & Keep1 & Path1);
      [assumption | | |].
    { apply Forall_app. split; [assumption |]. constructor; [left; reflexivity | constructor]. }
    { intros sym Hsym. apply Hrange. apply elem_of_app. left. assumption. }
    destruct (IHr t1 (prev ++ ["1"%char])) as (t2 & E2 & Len2 & Keep2 & Path2);
      [assumption | | |].
    { apply Forall_app. split; [assumption |]. constructor; [right; reflexivity | constructor]. }
    { intros sym Hsym. rewrite Len1. apply Hrange. apply elem_of_app. right. assumption. }
    rewrite E1, bind_Ret, E2.
    eexists; split; [reflexivity |]. split; [congruence |]. split.
    + intros sym Hsym. rewrite not_elem_of_app in Hsym. destruct Hsym as [Hnl Hnr].
      rewrite Keep2, Keep1 by assumption. reflexivity.
    + intros sym Hsym.
      destruct (decide (sym ∈ leaves r)) as [Hr | Hr].
      * destruct (Path2 sym Hr) as (path & Ht & Hp).
        exists ("1"%char :: path). rewrite leaf_at_eq, Hl. simpl.
        rewrite <- app_assoc in Ht. split; assumption.
      * apply elem_of_app in Hsym as [Hsl | Hsr]; [| contradiction].
        destruct (Path1 sym Hsl) as (path & Ht & Hp).
        exists ("0"%char :: path). rewrite leaf_at_eq, Hl. simpl.
        rewrite Keep2 by assumption.
        rewrite <- app_assoc in Ht. split; assumption.
Qed.

End CodeTable.

(** ** The decoder *)

Section Decoder.

Variable DEBUG : bool.

Lemma descend_interior node c :
  interior node ->
  exists v f l r, node = Node v f l r /\
    descend node c = Ret (if Ascii.eqb c "0" then l else r) /\
    is_htree l = true /\ is_htree r = true.
Proof.
  intros [Hw Hl]. destruct node as [|v f l r]; [discriminate |].
  destruct (is_htree_interior_inv _ _ _ _ Hw Hl) as (Hwl & Hwr & _).
  exists v, f, l, r. split; [reflexivity |]. split; [| split; assumption].
  unfold descend. simpl. destruct (Ascii.eqb c "0"); reflexivity.
Qed.

(** Both loops follow [traverse]; the emit pass fills the cells of its array
    from [array_ind] on. *)
Lemma decode_loops H :
  interior H ->
  forall code node res,
    interior node ->
    interior (traverse H node code).1 /\
    find_len_loop H node code res =
      Ret ((traverse H node code).1, res + length (traverse H node code).2) /\
    forall (done : list symbol_t) (k : nat),
      parse_code_loop H node code
        (done ++ replicate (length (traverse H node code).2 + k) 0) (length done) =
      Ret (done ++ (traverse H node code).2 ++ replicate k 0,
           length done + length (traverse H node code).2).
Proof.
  intros HH. induction code as [|c code IH]; intros node res Hnode.
  - simpl. split; [assumption |]. split; [rewrite Nat.add_0_r; reflexivity |].
    intros done k. rewrite Nat.add_0_r. reflexivity.
  - cbn [traverse find_len_loop parse_code_loop]. destruct (is_nul c) eqn:Hc.
    + simpl. split; [assumption |]. split; [rewrite Nat.add_0_r; reflexivity |].
      intros done k. rewrite Nat.add_0_r. reflexivity.
    + destruct (descend_interior node c Hnode) as (v & f & l & r & -> & Hd & Hwl & Hwr).
      rewrite Hd.
      set (child := if Ascii.eqb c "0" then l else r) in *.
      assert (Hwc : is_htree child = true)
        by (subst child; destruct (Ascii.eqb c "0"); assumption).
      cbn [mbind outcome_bind].
      destruct (is_htree_leaf child) eqn:Hleaf.
      * destruct (IH H (S res) HH) as (Hi & Hf & Hp).
        destruct (is_htree_leaf_inv _ Hleaf) as (cv & cf & Echild & _).
        rewrite Echild. cbn [fst snd get_value mbind outcome_bind length].
        split; [assumption |]. split; [rewrite Hf; do 2 f_equal; lia |].
        intros done k. cbn [Nat.add replicate].
        rewrite store_middle. cbn [mbind outcome_bind].
        specialize (Hp (done ++ [cv]) k).
        rewrite length_app, <- app_assoc in Hp. cbn [length app] in Hp.
        replace (S (length done)) with (length done + 1) by lia.
        rewrite Hp. do 2 f_equal; [rewrite <- app_assoc; reflexivity | lia].
      * apply IH. split; assumption.
Qed.

(** The decoder does not look at what a character is beyond comparing it
    with ['0']. *)
Lemma as_bit_spec c : is_nul c = false ->
  is_nul (as_bit c) = false /\ Ascii.eqb (as_bit c) "0" = Ascii.eqb c "0".
Proof.
  intros _. unfold as_bit. destruct (Ascii.eqb c "0") eqn:E; split; reflexivity.
Qed.

Lemma find_len_loop_as_bit H : forall code node res,
  find_len_loop H node code res =
  find_len_loop H node (map as_bit (c_string code)) res.
Proof.
  induction code as [|c code IH]; intros node res; [reflexivity |].
  simpl. destruct (is_nul c) eqn:Hc; [reflexivity |].
  simpl. destruct (as_bit_spec c Hc) as [-> E].
  unfold descend. rewrite E.
  destruct (if Ascii.eqb c "0" then get_left node else get_right node); simpl; try reflexivity.
  destruct (is_htree_leaf a); apply IH.
Qed.

Lemma parse_code_loop_as_bit H : forall code node res array_ind,
  parse_code_loop H node code res array_ind =
  parse_code_loop H node (map as_bit (c_string code)) res array_ind.
Proof.
  induction code as [|c code IH]; intros node res array_ind; [reflexivity |].
  simpl. destruct (is_nul c) eqn:Hc; [reflexivity |].
  simpl. destruct (as_bit_spec c Hc) as [-> E].
  unfold descend. rewrite E.
  destruct (if Ascii.eqb c "0" then get_left node else get_right node); simpl; try reflexivity.
  destruct (is_htree_leaf a); [| apply IH].
  destruct (get_value a); simpl; try reflexivity.
  destruct (store res array_ind a0); simpl; try reflexivity. apply IH.
Qed.

Lemma decode_src_traverse H code :
  interior H ->
  decode_src DEBUG H code =
    if decide ((traverse H H code).1 = H)
    then Ret ((traverse H H code).2, length (traverse H H code).2)
    else Exit "Invalid code to decode!".
Proof.
  intros HH. pose proof HH as [Hw _].
  destruct (decode_loops H HH code H 0 HH) as (_ & Hf & Hp).
  unfold decode_src, find_len, parse_code, REQUIRES.
  rewrite Hw, contract_true, !bind_Ret, Hf, bind_Ret. cbn [Nat.add].
  destruct (decide ((traverse H H code).1 = H)) as [E | E].
  - rewrite bool_decide_eq_false_2 by (intros N; exact (N E)).
    rewrite !bind_Ret.
    specialize (Hp [] 0). cbn [app length Nat.add] in Hp.
    rewrite Nat.add_0_r, app_nil_r in Hp. rewrite Hp, bind_Ret.
    unfold assert. rewrite Nat.eqb_refl. reflexivity.
  - rewrite bool_decide_eq_true_2 by assumption. reflexivity.
Qed.

(** Reading the code of one symbol from an interior node [node] leads back
    to the root with that symbol emitted. *)
Lemma traverse_code H : forall path node sym rest,
  interior node -> leaf_at node path = Some sym ->
  traverse H node (path ++ rest) =
    ((traverse H H rest).1, sym :: (traverse H H rest).2).
Proof.
  induction path as [|c path IH]; intros node sym rest [Hw Hl] Hp.
  - destruct node as [|v f l r]; [discriminate |].
    rewrite leaf_at_eq, Hl in Hp. discriminate.
  - destruct node as [|v f l r]; [discriminate |].
    rewrite leaf_at_eq, Hl in Hp.
    destruct (is_htree_interior_inv _ _ _ _ Hw Hl) as (Hwl & Hwr & _).
    assert (Hbit : is_bit c).
    { destruct (Ascii.eqb_spec c "0") as [-> | _]; [left; reflexivity |].
      destruct (Ascii.eqb_spec c "1") as [-> | _]; [right; reflexivity | discriminate]. }
    cbn [app traverse]. rewrite (is_bit_not_nul c Hbit).
    set (child := if Ascii.eqb c "0" then l else r).
    assert (Hchild : is_htree child = true /\ leaf_at child path = Some sym).
    { subst child. destruct Hbit as [-> | ->]; simpl in *; auto. }
    destruct Hchild as [Hwc Hpc].
    destruct (is_htree_leaf child) eqn:Hcl.
    + destruct (is_htree_leaf_inv _ Hcl) as (cv & cf & Echild & _).
      rewrite Echild in Hpc |- *. rewrite leaf_at_eq in Hpc.
      rewrite <- Echild, Hcl in Hpc.
      destruct path; [| discriminate]. injection Hpc as ->. reflexivity.
    + apply IH; [split; assumption | assumption].
Qed.

Lemma traverse_codes H (code : symbol_t -> bitstring_t) : forall src tail,
  interior H ->
  (forall sym, sym ∈ src -> leaf_at H (code sym) = Some sym) ->
  traverse H H (flat_map code src ++ NUL :: tail) = (H, src).
Proof.
  induction src as [|sym src IH]; intros tail HH Hcodes; [reflexivity |].
  cbn [flat_map]. rewrite <- app_assoc.
  rewrite (traverse_code H (code sym) H sym); [| assumption |].
  - rewrite IH; [reflexivity | assumption |].
    intros s Hs. apply Hcodes. apply elem_of_cons. right. assumption.
  - apply Hcodes. apply elem_of_cons. left. reflexivity.
Qed.

(** C9, as the code has it: the decoder makes no check of the characters of
    the string.  Every character before the terminator other than '0' is
    taken for the direction right, as '1' is: decoding a string and
    decoding it with each such character replaced by '1' have one
    outcome. *)
Theorem decode_src_reads_any_char_as_bit (H : htree) (code : bitstring_t) :
  bits_ok (map as_bit (c_string code)) /\
  decode_src DEBUG H code = decode_src DEBUG H (map as_bit (c_string code)).
Proof.
  split.
  - apply Forall_map, Forall_forall. intros c _. unfold as_bit, is_bit. simpl.
    destruct (Ascii.eqb c "0"); auto.
  - unfold decode_src.
    replace (find_len DEBUG H code)
      with (find_len DEBUG H (map as_bit (c_string code)))
      by (unfold find_len; rewrite <- find_len_loop_as_bit; reflexivity).
    apply bind_ext. intros _. apply bind_ext. intros len.
    replace (parse_code DEBUG H code (replicate len 0) len)
      with (parse_code DEBUG H (map as_bit (c_string code)) (replicate len 0) len)
      by (unfold parse_code; rewrite <- parse_code_loop_as_bit; reflexivity).
    reflexivity.
Qed.

(** C4, where the code departs from it: a tree that is a single leaf passes
    [is_htree], the contract of [find_len], [parse_code] and [decode_src],
    but the loop of [find_len] tests [is_htree_leaf] only after it has
    moved.  At the first bit it follows [node->left] or [node->right] of
    the leaf to NULL, and at the second it dereferences NULL: for every
    string of two bits or more the length pass, and with it [decode_src],
    neither stops with "Invalid code to decode!" nor returns. *)
Theorem decode_src_leaf_root_null_dereference (H : htree) (code : bitstring_t) :
  is_htree_leaf H = true -> bits_ok code -> 2 <= length code ->
  is_htree H = true /\
  find_len DEBUG H code = Undefined /\
  decode_src DEBUG H code = Undefined.
Proof.
  intros Hl Hbits Hlen. pose proof (is_htree_leaf_is_htree H Hl) as Hw.
  split; [exact Hw |].
  destruct (is_htree_leaf_inv H Hl) as (v & f & -> & _).
  destruct code as [|c1 [|c2 code]]; [simpl in Hlen; lia | simpl in Hlen; lia |].
  apply Forall_cons in Hbits as [H1 Hbits]. apply Forall_cons in Hbits as [H2 _].
  assert (Hfind : find_len DEBUG (Node v f Null Null) (c1 :: c2 :: code) = Undefined).
  { unfold find_len, REQUIRES. rewrite Hw, contract_true, bind_Ret.
    cbn [find_len_loop]. rewrite (is_bit_not_nul c1 H1).
    assert (Hd1 : descend (Node v f Null Null) c1 = Ret Null)
      by (unfold descend; destruct (Ascii.eqb c1 "0"); reflexivity).
    rewrite Hd1, bind_Ret. cbn [is_htree_leaf find_len_loop].
    rewrite (is_bit_not_nul c2 H2).
    assert (Hd2 : descend Null c2 = Undefined)
      by (unfold descend; destruct (Ascii.eqb c2 "0"); reflexivity).
    rewrite Hd2. reflexivity. }
  split; [exact Hfind |].
  unfold decode_src, REQUIRES. rewrite Hw, contract_true, bind_Ret, Hfind.
  reflexivity.
Qed.

End Decoder.

(** ** The encoder *)

Section Encoder.

Variable table : codetable_t.

Lemma code_of_populated src i sym :
  populated table src -> src !! i = Some sym ->
  exists bs, code_of table src i = Ret bs /\ c_string bs = code_string table sym.
Proof.
  intros Hpop Hi. destruct (Hpop sym) as [bs Hbs].
  { eapply list_elem_of_lookup_2. eassumption. }
  exists bs. unfold code_of, code_string. rewrite Hi, Hbs. split; reflexivity.
Qed.

Lemma flat_map_take_S {A B} (f : A -> list B) (l : list A) i x :
  l !! i = Some x -> flat_map f (take (S i) l) = flat_map f (take i l) ++ f x.
Proof.
  intros Hi. rewrite (take_S_r l i x Hi), flat_map_app. simpl.
  rewrite app_nil_r. reflexivity.
Qed.

Lemma length_flat_map_take_le {A B} (f : A -> list B) (l : list A) i :
  length (flat_map f (take i l)) <= length (flat_map f l).
Proof.
  rewrite <- (take_drop i l) at 2. rewrite flat_map_app, length_app. lia.
Qed.

Lemma nul_free_codes (src : list symbol_t) :
  nul_free (flat_map (code_string table) src).
Proof.
  induction src as [|sym src IH]; [constructor |].
  cbn [flat_map]. apply Forall_app. split; [| exact IH].
  unfold code_string. destruct (table !! sym) as [[bs|]|]; try constructor.
  apply nul_free_c_string.
Qed.

Lemma get_size_sum src n :
  populated table src -> n <= length src ->
  get_size table src n = Ret (length (flat_map (code_string table) (take n src))).
Proof.
  intros Hpop Hn. unfold get_size.
  destruct (for_loop_inv
    (fun i size => size = length (flat_map (code_string table) (take i src)))
    (fun i size => bs ← code_of table src i; Ret (size + strlen bs))
    n 0 0) as (size & E & Hsize).
  - reflexivity.
  - intros j t Hj ->.
    destruct (lookup_lt_is_Some_2 src j) as [sym Hsym]; [lia |].
    destruct (code_of_populated src j sym Hpop Hsym) as (bs & -> & Hbs).
    rewrite bind_Ret. eexists; split; [reflexivity |].
    rewrite (flat_map_take_S _ _ _ _ Hsym), length_app.
    unfold strlen. rewrite Hbs. reflexivity.
  - rewrite E, Hsize. reflexivity.
Qed.

Lemma strcpy_at_fill (w : bitstring_t) (m : nat) (bs : bitstring_t) :
  strlen bs + 1 <= m ->
  strcpy_at (w ++ replicate m NUL) (length w) bs =
    Ret ((w ++ c_string bs) ++ replicate (m - strlen bs) NUL).
Proof.
  intros Hm. unfold strcpy_at, strlen in *.
  rewrite !length_app, length_replicate. cbn [length].
  destruct (Nat.leb_spec (length w + (length (c_string bs) + 1)) (length w + m)); [| lia].
  f_equal. rewrite take_app_length, drop_app_add, drop_replicate.
  replace (m - length (c_string bs)) with (S (m - (length (c_string bs) + 1))) by lia.
  rewrite <- !app_assoc. reflexivity.
Qed.

Lemma populate_bstring_fill src :
  populated table src ->
  populate_bstring
    (replicate (length (flat_map (code_string table) src) + 1) NUL)
    table src (length src) 0 =
  Ret (flat_map (code_string table) src ++ [NUL]).
Proof.
  intros Hpop. unfold populate_bstring.
  set (total := length (flat_map (code_string table) src)).
  destruct (for_loop_inv
    (fun i '(buf, curr) =>
       curr = length (flat_map (code_string table) (take i src)) /\
       buf = flat_map (code_string table) (take i src) ++ replicate (total + 1 - curr) NUL)
    (fun i '(target_bs, curr_ind) =>
       bs ← code_of table src i;
       target_bs ← strcpy_at target_bs curr_ind bs;
       Ret (target_bs, curr_ind + strlen bs))
    (length src) 0 (replicate (total + 1) NUL, 0)) as ([buf curr] & E & Hcurr & Hbuf).
  - split; [reflexivity |]. rewrite Nat.sub_0_r. reflexivity.
  - intros j [buf curr] Hj [-> ->].
    destruct (lookup_lt_is_Some_2 src j) as [sym Hsym]; [lia |].
    destruct (code_of_populated src j sym Hpop Hsym) as (bs & -> & Hbs).
    rewrite bind_Ret.
    pose proof (length_flat_map_take_le (code_string table) src (S j)) as Hle.
    rewrite (flat_map_take_S _ _ _ _ Hsym), length_app in Hle |- *. fold total in Hle.
    rewrite strcpy_at_fill by (unfold strlen; rewrite Hbs; lia).
    rewrite bind_Ret. unfold strlen. rewrite Hbs.
    eexists; split; [reflexivity |]. split; [reflexivity |].
    f_equal. f_equal. lia.
  - rewrite E, bind_Ret. f_equal. rewrite Hbuf, Hcurr.
    change (0 + length src) with (length src).
    rewrite firstn_all. fold total.
    replace (total + 1 - total) with 1 by lia. reflexivity.
Qed.

Lemma encode_src_buffer src :
  populated table src ->
  encode_src table src (length src) = Ret (flat_map (code_string table) src ++ [NUL]).
Proof.
  intros Hpop. unfold encode_src.
  rewrite get_size_sum by (assumption || lia).
  rewrite firstn_all, bind_Ret. apply populate_bstring_fill. assumption.
Qed.

(** C7: the encoder returns the codes of the symbols one after the other,
    in the order of the input, and the string is as long as [get_size]
    says, which is the sum of the lengths of the codes. *)
Theorem encode_src_concat (src : list symbol_t) :
  (forall sym, sym ∈ src -> exists bs, table !! sym = Some (Some bs)) ->
  exists res size,
    encode_src table src (length src) = Ret res /\
    get_size table src (length src) = Ret size /\
    c_string res = flat_map (code_string table) src /\
    strlen res = size /\
    size = list_sum (map (fun sym => length (code_string table sym)) src).
Proof.
  intros Hpop.
  exists (flat_map (code_string table) src ++ [NUL]).
  exists (length (flat_map (code_string table) src)).
  assert (Hsize : get_size table src (length src) =
                  Ret (length (flat_map (code_string table) src))).
  { rewrite get_size_sum by (assumption || lia). rewrite firstn_all. reflexivity. }
  assert (Hc : c_string (flat_map (code_string table) src ++ [NUL]) =
               flat_map (code_string table) src).
  { apply c_string_until_nul, nul_free_codes. }
  split; [apply encode_src_buffer; assumption |].
  split; [assumption |]. split; [assumption |].
  split; [unfold strlen; rewrite Hc; reflexivity |].
  clear. induction src as [|sym src IH]; [reflexivity |].
  cbn [flat_map map list_sum]. rewrite length_app, IH. reflexivity.
Qed.

End Encoder.

(** In a tree whose leaves hold distinct symbols, one path leads to a
    symbol. *)
Lemma leaf_at_unique H :
  NoDup (leaves H) ->
  forall p q sym, leaf_at H p = Some sym -> leaf_at H q = Some sym -> p = q.
Proof.
  induction H as [|v f l IHl r IHr]; intros Hnd p q sym; [discriminate |].
  rewrite !leaf_at_eq. rewrite leaves_eq in Hnd.
  destruct (is_htree_leaf (Node v f l r)).
  - destruct p, q; try discriminate. reflexivity.
  - apply NoDup_app in Hnd as (Hndl & Hdisj & Hndr).
    destruct p as [|c p]; [discriminate |]. destruct q as [|d q]; [discriminate |].
    destruct (Ascii.eqb_spec c "0") as [-> | _];
      [| destruct (Ascii.eqb_spec c "1") as [-> | _]; [| discriminate]];
    (destruct (Ascii.eqb_spec d "0") as [-> | _];
      [| destruct (Ascii.eqb_spec d "1") as [-> | _]; [| discriminate]]);
    intros Hp Hq.
    + f_equal. exact (IHl Hndl p q sym Hp Hq).
    + exfalso. apply (Hdisj sym); eapply leaf_at_leaves; eassumption.
    + exfalso. apply (Hdisj sym); eapply leaf_at_leaves; eassumption.
    + f_equal. exact (IHr Hndr p q sym Hp Hq).
Qed.

(** ** The tree builder *)

Lemma nonzero_below_S_pos (table : freqtable_t) i freq :
  table !! i = Some freq -> (0 < freq)%N ->
  nonzero_below table (S i) = nonzero_below table i ++ [i].
Proof.
  intros Hi Hpos. unfold nonzero_below. rewrite seq_S, filter_app. f_equal.
  simpl. rewrite filter_cons_True; [reflexivity |].
  rewrite Hi. intros [= ->]. lia.
Qed.

Lemma nonzero_below_S_zero (table : freqtable_t) i :
  table !! i = Some 0%N ->
  nonzero_below table (S i) = nonzero_below table i.
Proof.
  intros Hi. unfold nonzero_below. rewrite seq_S, filter_app.
  simpl. rewrite filter_cons_False by (intros N; exact (N Hi)).
  apply app_nil_r.
Qed.

Lemma length_nonzero_below (table : freqtable_t) i : length (nonzero_below table i) <= i.
Proof.
  unfold nonzero_below.
  etransitivity; [apply length_filter |]. rewrite length_seq. reflexivity.
Qed.

Lemma uint_add_comm a b : uint_add a b = uint_add b a.
Proof. unfold uint_add. rewrite N.add_comm. reflexivity. Qed.

Lemma nonzero_below_elem (table : freqtable_t) i j :
  i <= length table -> j ∈ nonzero_below table i ->
  j < i /\ exists freq, table !! j = Some freq /\ (0 < freq)%N.
Proof.
  intros Hi Hj. unfold nonzero_below in Hj.
  apply list_elem_of_filter in Hj as [Hnz Hj]. apply elem_of_seq in Hj.
  split; [lia |].
  destruct (lookup_lt_is_Some_2 table j) as [freq Hfreq]; [lia |].
  exists freq. split; [assumption |].
  destruct (N.eq_dec freq 0%N) as [-> | Hne]; [contradiction | lia].
Qed.

Lemma leaf_nodes_leaf (table : freqtable_t) i :
  i <= length table ->
  Forall (fun t => is_htree_leaf t = true) (leaf_nodes table i).
Proof.
  intros Hi. unfold leaf_nodes. apply Forall_map, Forall_forall. intros j Hj.
  destruct (nonzero_below_elem table i j Hi Hj) as (_ & freq & Hfreq & Hpos).
  unfold leaf_node. rewrite Hfreq. simpl.
  destruct (N.leb_spec freq 0); [lia | reflexivity].
Qed.

Lemma leaves_leaf_nodes (table : freqtable_t) i :
  i <= length table ->
  flat_map leaves (leaf_nodes table i) = nonzero_below table i.
Proof.
  intros Hi. pose proof (leaf_nodes_leaf table i Hi) as Hleaf.
  unfold leaf_nodes in *. induction (nonzero_below table i) as [|j l IH];
    [reflexivity |].
  apply Forall_cons in Hleaf as [Hj Hl]. cbn [map flat_map].
  unfold leaf_node at 1. unfold leaf_node in Hj. rewrite leaves_eq, Hj, IH by assumption.
  reflexivity.
Qed.

Lemma sum_frequency_app l t :
  sum_frequency (l ++ [t]) = (sum_frequency l + root_frequency t)%N.
Proof.
  induction l as [|x l IH]; simpl; [lia |].
  unfold sum_frequency in *. simpl. rewrite IH. lia.
Qed.

Lemma total_frequency_app (table : freqtable_t) x :
  total_frequency (table ++ [x]) = (total_frequency table + x)%N.
Proof.
  induction table as [|y table IH]; simpl; [lia |].
  unfold total_frequency in *. simpl. rewrite IH. lia.
Qed.

Lemma sum_frequency_perm l l' : l ≡ₚ l' -> sum_frequency l = sum_frequency l'.
Proof.
  induction 1 as [| x l l' _ IH | x y l | l l' l'' _ IH1 _ IH2];
    unfold sum_frequency in *; simpl; lia.
Qed.

Lemma sum_leaf_nodes (table : freqtable_t) i :
  i <= length table ->
  sum_frequency (leaf_nodes table i) = total_frequency (take i table).
Proof.
  induction i as [|i IH]; intros Hi; [reflexivity |].
  destruct (lookup_lt_is_Some_2 table i) as [freq Hfreq]; [lia |].
  rewrite (take_S_r table i freq Hfreq), total_frequency_app, <- IH by lia.
  unfold leaf_nodes. destruct (N.eq_dec freq 0%N) as [-> | Hne].
  - rewrite (nonzero_below_S_zero table i Hfreq). lia.
  - rewrite (nonzero_below_S_pos table i freq Hfreq) by lia.
    rewrite map_app. simpl. rewrite sum_frequency_app.
    unfold leaf_node at 2. rewrite Hfreq. reflexivity.
Qed.

Lemma exact_sums_leaf H : is_htree_leaf H = true -> exact_sums H.
Proof. destruct H; simpl; auto. Qed.

Section Builder.

Variable DEBUG : bool.
Variable NUM_SYMBOLS : nat.
Context {PQ : PriorityQueue htree} {Laws : PriorityQueueLaws PQ}.

Lemma pq_not_full (Q : pq_t) :
  length (pq_elems Q) < pq_capacity Q -> pq_full Q = false.
Proof.
  intros Hlt. destruct (pq_full Q) eqn:E; [| reflexivity].
  apply pq_full_spec in E. lia.
Qed.

Lemma pq_not_empty (Q : pq_t) : pq_elems Q <> [] -> pq_empty Q = false.
Proof.
  intros Hne. destruct (pq_empty Q) eqn:E; [| reflexivity].
  apply pq_empty_spec in E. contradiction.
Qed.

Lemma build_pq_loop_leaves (table : freqtable_t) (Q : pq_t) :
  length table = NUM_SYMBOLS ->
  pq_elems Q = [] -> pq_capacity Q = NUM_SYMBOLS ->
  exists st,
    for_loop NUM_SYMBOLS 0 (fun i '(Q, char_count) =>
      match table !! i with
      | None => Undefined
      | Some freq =>
          if (0 <? freq)%N then
            ASSERT DEBUG (negb (pq_full Q));;
            Ret (pq_add Q (Node i freq Null Null), S char_count)
          else Ret (Q, char_count)
      end) (Q, 0) = Ret st /\
    leaf_queue NUM_SYMBOLS table NUM_SYMBOLS st.
Proof.
  intros Hlen Hempty Hcap.
  apply (for_loop_inv (leaf_queue NUM_SYMBOLS table)).
  - unfold leaf_queue. simpl. rewrite Hempty. auto.
  - intros j [Q' cnt] Hj (Hcnt & Hcap' & Hperm). simpl in *.
    destruct (lookup_lt_is_Some_2 table j) as [freq Hfreq]; [lia |].
    rewrite Hfreq. destruct (N.ltb_spec 0 freq) as [Hpos | Hzero].
    + pose proof (length_nonzero_below table j).
      pose proof (Permutation_length Hperm) as Hlenq.
      unfold leaf_nodes in Hlenq. rewrite length_map in Hlenq.
      rewrite pq_not_full by lia. unfold ASSERT. simpl negb.
      rewrite contract_true, bind_Ret.
      eexists; split; [reflexivity |].
      destruct (pq_add_spec Q' (Node j freq Null Null)) as [Hadd Hcapadd];
        [apply pq_not_full; lia |].
      unfold leaf_queue, leaf_nodes. simpl.
      rewrite (nonzero_below_S_pos table j freq Hfreq Hpos), length_app. simpl.
      split; [lia |]. split; [congruence |].
      rewrite Hadd, Hperm, map_app. simpl.
      unfold leaf_node at 2. rewrite Hfreq. simpl.
      apply Permutation_cons_append.
    + assert (freq = 0%N) as -> by lia.
      eexists; split; [reflexivity |].
      unfold leaf_queue, leaf_nodes. simpl.
      rewrite (nonzero_below_S_zero table j Hfreq). auto.
Qed.

Lemma build_pq_spec (table : freqtable_t) :
  length table = NUM_SYMBOLS ->
  (length (nonzero_symbols table) < 2 ->
   build_pq DEBUG NUM_SYMBOLS (pq_new NUM_SYMBOLS (htree_higher_priority DEBUG)) table =
     Exit "Only 0 or 1 distinct character in the text") /\
  (2 <= length (nonzero_symbols table) ->
   exists Q,
     build_pq DEBUG NUM_SYMBOLS (pq_new NUM_SYMBOLS (htree_higher_priority DEBUG)) table =
       Ret Q /\
     leaf_queue NUM_SYMBOLS table NUM_SYMBOLS (Q, length (nonzero_symbols table))).
Proof.
  intros Hlen.
  set (Q0 := pq_new NUM_SYMBOLS (htree_higher_priority DEBUG)).
  destruct (build_pq_loop_leaves table Q0 Hlen) as ([Q cnt] & E & HQ).
  { apply pq_new_elems. }
  { apply pq_new_capacity. }
  assert (Hcnt : cnt = length (nonzero_symbols table)).
  { pose proof HQ as (Hc & _). simpl in Hc. rewrite Hc.
    unfold nonzero_symbols, nonzero_below. rewrite Hlen. reflexivity. }
  unfold build_pq, REQUIRES.
  replace (pq_empty Q0) with true
    by (symmetry; apply pq_empty_spec, pq_new_elems).
  cbv zeta in E. rewrite contract_true, bind_Ret, E, bind_Ret.
  split; intros Hn.
  - destruct (Nat.ltb_spec cnt 2); [reflexivity | lia].
  - destruct (Nat.ltb_spec cnt 2); [lia |].
    exists Q. split; [reflexivity |]. rewrite <- Hcnt. exact HQ.
Qed.

(** Every round of the loop of [build_htree] merges two trees of the queue
    into one; the tree it returns holds the leaves of all of them.  When
    the frequencies at the roots add up to less than 2^32, no sum wraps. *)
Lemma build_htree_loop_spec : forall fuel (Q : pq_t),
  pq_elems Q <> [] ->
  length (pq_elems Q) <= fuel ->
  length (pq_elems Q) <= pq_capacity Q ->
  Forall (fun t => is_htree t = true) (pq_elems Q) ->
  exists H,
    build_htree_loop DEBUG fuel Q = Ret H /\
    is_htree H = true /\
    leaves H ≡ₚ flat_map leaves (pq_elems Q) /\
    (Forall exact_sums (pq_elems Q) ->
     (sum_frequency (pq_elems Q) < 2 ^ 32)%N -> exact_sums H).
Proof.
  induction fuel as [|fuel IH]; intros Q Hne Hfuel Hcap Hwf.
  - destruct (pq_elems Q); [contradiction | simpl in Hfuel; lia].
  - cbn [build_htree_loop]. rewrite (pq_not_empty Q Hne).
    destruct (pq_rem_spec Q (pq_not_empty Q Hne)) as [Hrem1 Hcap1].
    destruct (pq_rem Q) as [tree1 Q1]. cbn [fst snd] in *.
    assert (Hw1 : is_htree tree1 = true /\
                  Forall (fun t => is_htree t = true) (pq_elems Q1)).
    { rewrite Hrem1 in Hwf. apply Forall_cons in Hwf. exact Hwf. }
    destruct Hw1 as [Hw1 Hwf1].
    unfold ASSERT. rewrite Hw1, contract_true, bind_Ret.
    pose proof (Permutation_length Hrem1) as Hlen1. cbn [length] in Hlen1.
    destruct (pq_empty Q1) eqn:Hempty1.
    + apply pq_empty_spec in Hempty1. rewrite Hempty1 in Hrem1.
      exists tree1. split; [reflexivity |]. split; [assumption |]. split.
      * rewrite (Permutation_flat_map leaves Hrem1). simpl.
        rewrite app_nil_r. reflexivity.
      * intros Hex _. rewrite Hrem1 in Hex. apply Forall_cons in Hex as [Hex _].
        exact Hex.
    + destruct (pq_rem_spec Q1 Hempty1) as [Hrem2 Hcap2].
      destruct (pq_rem Q1) as [tree2 Q2]. cbn [fst snd] in *.
      assert (Hw2 : is_htree tree2 = true /\
                    Forall (fun t => is_htree t = true) (pq_elems Q2)).
      { rewrite Hrem2 in Hwf1. apply Forall_cons in Hwf1. exact Hwf1. }
      destruct Hw2 as [Hw2 Hwf2].
      rewrite Hw2, contract_true, bind_Ret.
      pose proof (Permutation_length Hrem2) as Hlen2. cbn [length] in Hlen2.
      destruct tree1 as [|v1 f1 l1 r1]; [discriminate |].
      destruct tree2 as [|v2 f2 l2 r2]; [discriminate |].
      cbn [get_frequency]. rewrite !bind_Ret.
      set (t1 := Node v1 f1 l1 r1) in *. set (t2 := Node v2 f2 l2 r2) in *.
      set (root := if (f1 <=? f2)%N
                   then Node 0 (uint_add f1 f2) t1 t2
                   else Node 0 (uint_add f1 f2) t2 t1).
      assert (Hroot : is_htree root = true /\
                      leaves root ≡ₚ leaves t1 ++ leaves t2 /\
                      root_frequency root = uint_add f1 f2 /\
                      (exact_sums t1 -> exact_sums t2 ->
                       uint_add f1 f2 = (f1 + f2)%N -> exact_sums root)).
      { subst root. destruct (f1 <=? f2)%N.
        - split; [| split; [| split; [reflexivity |]]].
          + cbn [is_htree]. fold t1 t2. rewrite Hw1, Hw2. subst t1 t2. simpl.
            rewrite N.eqb_refl. apply orb_true_r.
          + rewrite leaves_eq. subst t1 t2. simpl is_htree_leaf.
            destruct (uint_add f1 f2 <=? 0)%N; reflexivity.
          + intros E1 E2 Hsum. cbn [exact_sums]. right. subst t1 t2. auto.
        - split; [| split; [| split; [reflexivity |]]].
          + cbn [is_htree]. fold t1 t2. rewrite Hw1, Hw2. subst t1 t2. simpl.
            rewrite (uint_add_comm f1 f2), N.eqb_refl. apply orb_true_r.
          + rewrite leaves_eq. subst t1 t2. simpl is_htree_leaf.
            destruct (uint_add f1 f2 <=? 0)%N; apply Permutation_app_comm.
          + intros E1 E2 Hsum. cbn [exact_sums]. right. subst t1 t2.
            split; [assumption |]. split; [assumption |]. lia. }
      destruct Hroot as (Hwroot & Hlroot & Hfroot & Hexroot).
      rewrite pq_not_full by lia. simpl negb. rewrite contract_true, bind_Ret.
      destruct (pq_add_spec Q2 root) as [Hadd Hcapadd]; [apply pq_not_full; lia |].
      pose proof (Permutation_length Hadd) as Hlenadd. cbn [length] in Hlenadd.
      destruct (IH (pq_add Q2 root)) as (H & E & HwH & HlH & HexH).
      * intros N. rewrite N in Hlenadd. discriminate.
      * lia.
      * lia.
      * rewrite Hadd. constructor; assumption.
      * exists H. split; [exact E |]. split; [assumption |]. split.
        -- rewrite HlH, (Permutation_flat_map leaves Hadd).
           rewrite (Permutation_flat_map leaves Hrem1). cbn [flat_map].
           rewrite (Permutation_flat_map leaves Hrem2). cbn [flat_map].
           rewrite Hlroot, <- app_assoc. reflexivity.
        -- intros Hex Hsum.
           rewrite Hrem1 in Hex. apply Forall_cons in Hex as [Hex1 Hex].
           rewrite Hrem2 in Hex. apply Forall_cons in Hex as [Hex2 Hex].
           rewrite (sum_frequency_perm _ _ Hrem1) in Hsum.
           unfold sum_frequency in Hsum. cbn [foldr] in Hsum.
           fold (sum_frequency (pq_elems Q1)) in Hsum.
           rewrite (sum_frequency_perm _ _ Hrem2) in Hsum.
           unfold sum_frequency in Hsum. cbn [foldr] in Hsum.
           fold (sum_frequency (pq_elems Q2)) in Hsum.
           subst t1 t2. cbn [root_frequency] in Hsum.
           assert (Hnowrap : uint_add f1 f2 = (f1 + f2)%N).
           { unfold uint_add. apply N.mod_small. lia. }
           apply HexH.
           ++ rewrite Hadd. constructor; [| assumption]. apply Hexroot; assumption.
           ++ rewrite (sum_frequency_perm _ _ Hadd).
              unfold sum_frequency. cbn [foldr].
              fold (sum_frequency (pq_elems Q2)). rewrite Hfroot, Hnowrap. lia.
Qed.

Lemma nonzero_symbols_range (table : freqtable_t) sym :
  sym ∈ nonzero_symbols table -> sym < length table.
Proof.
  unfold nonzero_symbols. intros Hin.
  apply list_elem_of_filter in Hin as [_ Hin].
  apply elem_of_seq in Hin. lia.
Qed.

Lemma build_htree_spec (table : freqtable_t) :
  length table = NUM_SYMBOLS ->
  2 <= length (nonzero_symbols table) ->
  exists H,
    build_htree DEBUG NUM_SYMBOLS table = Ret H /\
    is_htree H = true /\
    leaves H ≡ₚ nonzero_symbols table /\
    ((total_frequency table < 2 ^ 32)%N -> exact_sums H).
Proof.
  intros Hlen Htwo.
  destruct (build_pq_spec table Hlen) as [_ Hbuild].
  destruct (Hbuild Htwo) as (Q & E & Hcnt & Hcap & Hperm).
  cbn [fst snd] in *.
  assert (Hnz : nonzero_below table NUM_SYMBOLS = nonzero_symbols table).
  { unfold nonzero_symbols, nonzero_below. rewrite Hlen. reflexivity. }
  pose proof (length_nonzero_below table NUM_SYMBOLS) as Hbound.
  pose proof (leaf_nodes_leaf table NUM_SYMBOLS ltac:(lia)) as Hleaf.
  pose proof (Permutation_length Hperm) as Hlenq.
  unfold leaf_nodes in Hlenq. rewrite length_map, Hnz in Hlenq.
  rewrite Hnz in Hbound.
  destruct (build_htree_loop_spec NUM_SYMBOLS Q) as (H & EH & Hw & Hl & Hex).
  - intros N. rewrite N in Hlenq. simpl in Hlenq. lia.
  - lia.
  - lia.
  - rewrite Hperm. eapply Forall_impl; [exact Hleaf |]. exact is_htree_leaf_is_htree.
  - exists H. unfold build_htree. rewrite E, bind_Ret.
    split; [exact EH |]. split; [assumption |]. split.
    + rewrite Hl, (Permutation_flat_map leaves Hperm).
      rewrite leaves_leaf_nodes by lia. rewrite Hnz. reflexivity.
    + intros Htotal. apply Hex.
      * rewrite Hperm. eapply Forall_impl; [exact Hleaf |]. exact exact_sums_leaf.
      * rewrite (sum_frequency_perm _ _ Hperm), sum_leaf_nodes by lia.
        rewrite <- Hlen, firstn_all. assumption.
Qed.

(** C5: a table with fewer than two symbols of nonzero frequency makes
    [build_htree] stop in [error] with no tree returned; a table with two
    or more makes it return a tree. *)
Theorem build_htree_alphabet (table : freqtable_t) :
  length table = NUM_SYMBOLS ->
  (length (nonzero_symbols table) < 2 ->
   build_htree DEBUG NUM_SYMBOLS table =
     Exit "Only 0 or 1 distinct character in the text") /\
  (2 <= length (nonzero_symbols table) ->
   exists H, build_htree DEBUG NUM_SYMBOLS table = Ret H).
Proof.
  intros Hlen. split.
  - intros Hfew. destruct (build_pq_spec table Hlen) as [Hexit _].
    unfold build_htree. rewrite (Hexit Hfew). reflexivity.
  - intros Htwo. destruct (build_htree_spec table Hlen Htwo) as (H & E & _).
    exists H. exact E.
Qed.

(** C2: the tree built from a table with two or more symbols of nonzero
    frequency passes [is_htree]: at every interior node the frequency is the
    sum, as [unsigned int] adds, of the frequencies of the two children, and
    every leaf has a positive frequency.  Its leaves are the symbols of
    nonzero frequency, each once.  When the frequencies of the table add up
    to less than 2^32 the sums are those of the natural numbers. *)
Theorem build_htree_is_htree (table : freqtable_t) :
  length table = NUM_SYMBOLS ->
  2 <= length (nonzero_symbols table) ->
  exists H,
    build_htree DEBUG NUM_SYMBOLS table = Ret H /\
    is_htree H = true /\
    leaves H ≡ₚ nonzero_symbols table /\
    (forall sym, sym ∈ leaves H <-> sym ∈ nonzero_symbols table) /\
    NoDup (leaves H) /\
    ((total_frequency table < 2 ^ 32)%N -> exact_sums H).
Proof.
  intros Hlen Htwo.
  destruct (build_htree_spec table Hlen Htwo) as (H & E & Hw & Hl & Hex).
  exists H. split; [exact E |]. split; [exact Hw |]. split; [exact Hl |].
  split; [| split; [| exact Hex]].
  - intros sym. rewrite Hl. reflexivity.
  - rewrite Hl. unfold nonzero_symbols. apply NoDup_filter, NoDup_seq.
Qed.

Lemma htree_to_codetable_spec H :
  is_htree H = true ->
  (forall sym, sym ∈ leaves H -> sym < NUM_SYMBOLS) ->
  exists table : codetable_t,
    htree_to_codetable DEBUG NUM_SYMBOLS H = Ret table /\
    length table = NUM_SYMBOLS /\
    (forall sym, sym ∉ leaves H -> sym < NUM_SYMBOLS -> table !! sym = Some None) /\
    (forall sym, sym ∈ leaves H ->
       exists path, table !! sym = Some (Some path) /\ leaf_at H path = Some sym).
Proof.
  intros Hw Hrange.
  destruct (htree_to_codetable_body_spec DEBUG H (replicate NUM_SYMBOLS None) [] Hw)
    as (table & E & Hlen & Hkeep & Hpath).
  { constructor. }
  { rewrite length_replicate. exact Hrange. }
  exists table. unfold htree_to_codetable, REQUIRES.
  rewrite Hw, contract_true, bind_Ret.
  split; [exact E |]. rewrite length_replicate in Hlen.
  split; [exact Hlen |]. split.
  - intros sym Hsym Hlt. rewrite Hkeep by assumption.
    apply lookup_replicate_2. assumption.
  - exact Hpath.
Qed.

(** C1: for a table with two or more symbols of nonzero frequency and a
    sequence of such symbols, decoding, with the tree built from the table,
    the string that encodes the sequence with the code table of that tree
    returns the sequence and its length. *)
Theorem decode_encode_roundtrip (table : freqtable_t) (src : list symbol_t) :
  length table = NUM_SYMBOLS ->
  2 <= length (nonzero_symbols table) ->
  (forall sym, sym ∈ src -> sym ∈ nonzero_symbols table) ->
  exists H (ct : codetable_t) (code : bitstring_t),
    build_htree DEBUG NUM_SYMBOLS table = Ret H /\
    htree_to_codetable DEBUG NUM_SYMBOLS H = Ret ct /\
    encode_src ct src (length src) = Ret code /\
    decode_src DEBUG H code = Ret (src, length src).
Proof.
  intros Hlen Htwo Hsrc.
  destruct (build_htree_spec table Hlen Htwo) as (H & EH & Hw & Hl & _).
  assert (HH : interior H).
  { split; [assumption |]. apply two_leaves_interior.
    rewrite (Permutation_length Hl). assumption. }
  destruct (htree_to_codetable_spec H Hw) as (ct & Ect & Hlenct & _ & Hpath).
  { intros sym Hsym. rewrite Hl in Hsym.
    apply nonzero_symbols_range in Hsym. lia. }
  assert (Hcode : forall sym, sym ∈ src ->
            exists path, ct !! sym = Some (Some path) /\
                         leaf_at H (code_string ct sym) = Some sym).
  { intros sym Hsym. destruct (Hpath sym) as (path & Hct & Hp).
    - rewrite Hl. apply Hsrc. assumption.
    - exists path. split; [assumption |]. unfold code_string. rewrite Hct.
      rewrite c_string_bits by (eapply leaf_at_bits; eassumption). assumption. }
  exists H, ct, (flat_map (code_string ct) src ++ [NUL]).
  split; [exact EH |]. split; [exact Ect |]. split.
  - apply encode_src_buffer. intros sym Hsym.
    destruct (Hcode sym Hsym) as (path & Hct & _). eauto.
  - rewrite (decode_src_traverse DEBUG H _ HH).
    rewrite (traverse_codes H (code_string ct) src [] HH)
      by (intros sym Hsym; destruct (Hcode sym Hsym) as (_ & _ & Hp); exact Hp).
    cbn [fst snd]. destruct (decide (H = H)); [reflexivity | contradiction].
Qed.

(** C6: the code table of a well-formed tree has a string for the symbols
    at the leaves and for no other symbol, and the string of a symbol is
    the path from the root to a leaf with that symbol; when no symbol is at
    two leaves, the path to every leaf is in the table. *)
Theorem htree_to_codetable_paths (H : htree) :
  is_htree H = true ->
  (forall sym, sym ∈ leaves H -> sym < NUM_SYMBOLS) ->
  exists table : codetable_t,
    htree_to_codetable DEBUG NUM_SYMBOLS H = Ret table /\
    length table = NUM_SYMBOLS /\
    (forall sym, (exists code, table !! sym = Some (Some code)) <-> sym ∈ leaves H) /\
    (forall sym code, table !! sym = Some (Some code) -> leaf_at H code = Some sym) /\
    (NoDup (leaves H) ->
     forall sym path, leaf_at H path = Some sym -> table !! sym = Some (Some path)).
Proof.
  intros Hw Hrange.
  destruct (htree_to_codetable_spec H Hw Hrange) as (table & E & Hlen & Hnone & Hpath).
  exists table. split; [exact E |]. split; [exact Hlen |].
  assert (Hentry : forall sym code, table !! sym = Some (Some code) ->
                     sym ∈ leaves H /\ leaf_at H code = Some sym).
  { intros sym code Hsym.
    destruct (decide (sym ∈ leaves H)) as [Hin | Hout].
    - split; [assumption |]. destruct (Hpath sym Hin) as (path & Ht & Hp).
      congruence.
    - assert (Hlt : sym < NUM_SYMBOLS).
      { rewrite <- Hlen. eapply lookup_lt_Some. eassumption. }
      rewrite (Hnone sym Hout Hlt) in Hsym. discriminate. }
  split; [| split].
  - intros sym. split.
    + intros [code Hcode]. apply (Hentry sym code Hcode).
    + intros Hin. destruct (Hpath sym Hin) as (path & Ht & _). eauto.
  - intros sym code Hcode. apply (Hentry sym code Hcode).
  - intros Hnd sym path Hp.
    destruct (Hpath sym (leaf_at_leaves H path sym Hp)) as (path' & Ht & Hp').
    rewrite (leaf_at_unique H Hnd path path' sym Hp Hp'). exact Ht.
Qed.

End Builder.

(** ** Releasing a tree *)

(** C10, as the code has it: the branch of [free_htree] for a leaf frees the
    node and does not return, so the statements after it are reached and
    read the freed node.  For every heap that holds a leaf at [a],
    [free_htree] on [a] runs into a read of freed memory: under [DEBUG] in
    the assertion [is_htree_interior(tree)], without it in [tree->left]. *)
Theorem free_htree_leaf_reads_freed_node (DEBUG : bool) (fuel : nat)
    (h : gmap nat Heap.htree_node) (a : nat) (node : Heap.htree_node) :
  h !! a = Some node ->
  (0 < Heap.frequency node)%N ->
  Heap.left node = None -> Heap.right node = None ->
  Heap.is_htree_leaf h (Some a) = Ret true /\
  Heap.free_htree DEBUG (S fuel) h (Some a) = Undefined.
Proof.
  intros Hnode Hpos Hl Hr.
  assert (Hleaf : Heap.is_htree_leaf h (Some a) = Ret true).
  { unfold Heap.is_htree_leaf, Heap.load. simpl. rewrite Hnode. simpl.
    destruct (N.leb_spec (Heap.frequency node) 0); [lia |].
    rewrite Hl, Hr. reflexivity. }
  assert (Hfreed : Heap.load (delete a h) (Some a) = Undefined).
  { unfold Heap.load. rewrite lookup_delete_eq. reflexivity. }
  split; [exact Hleaf |].
  cbn [Heap.free_htree].
  assert (Hpre : Heap.contract DEBUG (Heap.is_htree (S fuel) h (Some a)) = Ret tt).
  { unfold Heap.contract. destruct DEBUG; [| reflexivity].
    cbn [Heap.is_htree Heap.is_NULL]. rewrite Hleaf. reflexivity. }
  rewrite Hpre, bind_Ret, Hleaf, bind_Ret.
  assert (Hfree : Heap.free h (Some a) = Ret (delete a h))
    by (unfold Heap.free; rewrite Hnode; reflexivity).
  rewrite Hfree, bind_Ret.
  unfold Heap.contract. destruct DEBUG.
  - unfold Heap.is_htree_interior. cbn [Heap.is_NULL]. rewrite Hfreed. reflexivity.
  - rewrite bind_Ret, Hfreed. reflexivity.
Qed.

(** ** The list queue is a priority queue *)

Lemma lq_insert_perm prior e items : lq_insert prior e items ≡ₚ e :: items.
Proof.
  induction items as [|x rest IH]; simpl; [reflexivity |].
  destruct (prior e x) as [[|]| | | |]; try reflexivity;
    rewrite IH; apply Permutation_swap.
Qed.

#[global] Instance list_priority_queue_laws : PriorityQueueLaws list_priority_queue.
Proof.
  split.
  - reflexivity.
  - reflexivity.
  - intros Q. simpl. destruct (lq_items Q); split; intros E; congruence.
  - intros Q. simpl. apply Nat.leb_le.
  - intros Q e _. simpl. split; [apply lq_insert_perm | reflexivity].
  - intros Q. simpl. destruct (lq_items Q) as [|x rest]; [discriminate |].
    intros _. simpl. split; reflexivity.
Qed.

(** ** The claims at concrete inputs *)

(** C9 as stated fails: the character '2' is taken for the direction
    right, and the string "2" decodes to the symbol of the right leaf. *)
Lemma decode_src_accepts_other_char :
  is_htree two_leaves = true /\
  ~ is_bit "2"%char /\
  decode_src true two_leaves ["2"]%char = Ret ([98], 1) /\
  decode_src false two_leaves ["2"]%char = Ret ([98], 1).
Proof.
  split; [reflexivity |]. split; [| split; reflexivity].
  intros [E | E]; discriminate.
Qed.

(** The round trip of "aaabbc" over an alphabet of four symbols. *)
Lemma decode_encode_roundtrip_witness :
  exists H (ct : codetable_t) (code : bitstring_t),
    build_htree true 4 example_table = Ret H /\
    htree_to_codetable true 4 H = Ret ct /\
    encode_src ct [0; 0; 0; 1; 1; 2] 6 = Ret code /\
    decode_src true H code = Ret ([0; 0; 0; 1; 1; 2], 6).
Proof.
  apply (decode_encode_roundtrip true 4 example_table [0; 0; 0; 1; 1; 2]).
  - reflexivity.
  - vm_compute. lia.
  - intros sym Hsym. apply list_elem_of_In in Hsym. simpl in Hsym.
    apply list_elem_of_In. vm_compute. tauto.
Defined.

(** The tree built for the frequencies of "aaabbc". *)
Lemma build_htree_is_htree_witness :
  exists H,
    build_htree true 4 example_table = Ret H /\
    is_htree H = true /\
    leaves H ≡ₚ nonzero_symbols example_table /\
    (forall sym, sym ∈ leaves H <-> sym ∈ nonzero_symbols example_table) /\
    NoDup (leaves H) /\
    ((total_frequency example_table < 2 ^ 32)%N -> exact_sums H).
Proof.
  apply (build_htree_is_htree true 4 example_table).
  - reflexivity.
  - vm_compute. lia.
Defined.

(** Nine bits come back as sixteen, the last seven '0'. *)
Lemma unpack_pack_padding_witness :
  exists bytes buf,
    pack true ["0"; "0"; "0"; "1"; "0"; "1"; "0"; "1"; "1"]%char = Ret bytes /\
    unpack true bytes 2 = Ret buf /\
    c_string buf = ["0"; "0"; "0"; "1"; "0"; "1"; "0"; "1"; "1"]%char ++ replicate 7 "0"%char /\
    7 < 8 /\
    9 <= strlen buf /\
    take 9 (c_string buf) = ["0"; "0"; "0"; "1"; "0"; "1"; "0"; "1"; "1"]%char.
Proof.
  apply (unpack_pack_padding true ["0"; "0"; "0"; "1"; "0"; "1"; "0"; "1"; "1"]%char).
  repeat (constructor; [(left; reflexivity) || (right; reflexivity) |]). constructor.
Defined.

(** Decoding "00" with the tree that is the single leaf a. *)
Lemma decode_src_leaf_root_null_dereference_witness :
  is_htree one_leaf = true /\
  find_len true one_leaf ["0"; "0"]%char = Undefined /\
  decode_src true one_leaf ["0"; "0"]%char = Undefined.
Proof.
  apply (decode_src_leaf_root_null_dereference true one_leaf ["0"; "0"]%char).
  - reflexivity.
  - repeat (constructor; [left; reflexivity |]). constructor.
  - simpl. lia.
Defined.

(** One symbol is refused, three are accepted. *)
Lemma build_htree_alphabet_witness :
  build_htree true 4 [5%N; 0%N; 0%N; 0%N] =
    Exit "Only 0 or 1 distinct character in the text" /\
  exists H, build_htree true 4 example_table = Ret H.
Proof.
  split.
  - apply (build_htree_alphabet true 4 [5%N; 0%N; 0%N; 0%N]).
    + reflexivity.
    + vm_compute. lia.
  - apply (build_htree_alphabet true 4 example_table).
    + reflexivity.
    + vm_compute. lia.
Defined.

(** The code table of the tree of two leaves over 256 symbols. *)
Lemma htree_to_codetable_paths_witness :
  exists table : codetable_t,
    htree_to_codetable true 256 two_leaves = Ret table /\
    length table = 256 /\
    (forall sym, (exists code, table !! sym = Some (Some code)) <-> sym ∈ leaves two_leaves) /\
    (forall sym code, table !! sym = Some (Some code) -> leaf_at two_leaves code = Some sym) /\
    (NoDup (leaves two_leaves) ->
     forall sym path, leaf_at two_leaves path = Some sym -> table !! sym = Some (Some path)).
Proof.
  apply (htree_to_codetable_paths true 256 two_leaves).
  - reflexivity.
  - intros sym Hsym. apply list_elem_of_In in Hsym. vm_compute in Hsym.
    destruct Hsym as [<- | [<- | []]]; vm_compute; lia.
Defined.

(** Encoding three symbols with a table of two codes. *)
Lemma encode_src_concat_witness :
  exists res size,
    encode_src [Some ["0"]; Some ["1"; "0"]]%char [0; 1; 0] 3 = Ret res /\
    get_size [Some ["0"]; Some ["1"; "0"]]%char [0; 1; 0] 3 = Ret size /\
    c_string res = flat_map (code_string [Some ["0"]; Some ["1"; "0"]]%char) [0; 1; 0] /\
    strlen res = size /\
    size = list_sum (map (fun sym => length (code_string [Some ["0"]; Some ["1"; "0"]]%char sym)) [0; 1; 0]).
Proof.
  apply (encode_src_concat [Some ["0"]; Some ["1"; "0"]]%char [0; 1; 0]).
  intros sym Hsym.
  apply list_elem_of_In in Hsym. simpl in Hsym.
  destruct Hsym as [<- | [<- | [<- | []]]]; eexists; reflexivity.
Defined.

(** Packing "101". *)
Lemma pack_msb_first_witness :
  (exists bytes, pack true ["1"; "0"; "1"]%char = Ret bytes /\
     length bytes = (3 + 7) / 8 /\
     forall i b, bytes !! i = Some b ->
       (0 <= b < 256)%Z /\
       forall j, j < 8 ->
         Z.testbit b (Z.of_nat (7 - j)) =
           bool_decide (["1"; "0"; "1"]%char !! (8 * i + j) = Some "1"%char)) /\
  pack true ["0"; "0"; "0"; "1"; "0"; "1"; "0"; "1"; "1"]%char = Ret [0x15; 0x80]%Z.
Proof.
  apply (pack_msb_first true ["1"; "0"; "1"]%char).
  constructor; [right; reflexivity |].
  constructor; [left; reflexivity |].
  constructor; [right; reflexivity |]. constructor.
Defined.

(** [free_htree] on a heap that holds one leaf. *)
Lemma free_htree_leaf_reads_freed_node_witness :
  Heap.is_htree_leaf
    {[ 1 := {| Heap.value := 97; Heap.frequency := 5; Heap.left := None;
               Heap.right := None |} ]} (Some 1) = Ret true /\
  Heap.free_htree true 2
    {[ 1 := {| Heap.value := 97; Heap.frequency := 5; Heap.left := None;
               Heap.right := None |} ]} (Some 1) = Undefined.
Proof.
  apply (free_htree_leaf_reads_freed_node true 1
           {[ 1 := {| Heap.value := 97; Heap.frequency := 5; Heap.left := None;
                      Heap.right := None |} ]} 1
           {| Heap.value := 97; Heap.frequency := 5; Heap.left := None;
              Heap.right := None |}); reflexivity.
Defined.

(** * Further properties of the code *)

(** Two bodies that agree on the rounds of a loop give one loop. *)
Lemma for_loop_ext {St : Type} (body body' : nat -> St -> outcome St) :
  forall n i s,
    (forall j t, i <= j < i + n -> body j t = body' j t) ->
    for_loop n i body s = for_loop n i body' s.
Proof.
  induction n as [|n IH]; intros i s Hext; [reflexivity |].
  simpl. rewrite Hext by lia. apply bind_ext. intros t. apply IH.
  intros j u Hj. apply Hext. lia.
Qed.

(** A loop whose body returns or is undefined returns or is undefined. *)
Lemma for_loop_cases {St : Type} (body : nat -> St -> outcome St) :
  (forall j s, body j s = Undefined \/ exists s', body j s = Ret s') ->
  forall n i s,
    for_loop n i body s = Undefined \/ exists s', for_loop n i body s = Ret s'.
Proof.
  intros Hbody. induction n as [|n IH]; intros i s; [right; eexists; reflexivity |].
  simpl. destruct (Hbody i s) as [E | [s' E]]; rewrite E; [left; reflexivity |].
  simpl. apply IH.
Qed.

(** ** The comparator of the queue *)

Section Comparator.

Variable DEBUG : bool.

Lemma htree_higher_priority_value t1 t2 :
  is_htree t1 = true -> is_htree t2 = true ->
  htree_higher_priority DEBUG t1 t2 = Ret (root_frequency t1 <? root_frequency t2)%N.
Proof.
  intros H1 H2. unfold htree_higher_priority, REQUIRES, ASSERT.
  rewrite (is_htree_not_null t1 H1), (is_htree_not_null t2 H2), H1, H2.
  simpl negb. rewrite contract_true, !bind_Ret.
  destruct t1; [discriminate |]. destruct t2; [discriminate |]. reflexivity.
Qed.

(** On well-formed trees [htree_higher_priority] returns, under [DEBUG] and
    without, whether the first frequency is less than the second: it is
    false for equal frequencies, never true in both directions, and
    transitive. *)
Theorem htree_higher_priority_strict_order (t1 t2 t3 : htree) :
  is_htree t1 = true -> is_htree t2 = true -> is_htree t3 = true ->
  (htree_higher_priority DEBUG t1 t2 = Ret true <->
     (root_frequency t1 < root_frequency t2)%N) /\
  (htree_higher_priority DEBUG t1 t2 = Ret false <->
     (root_frequency t2 <= root_frequency t1)%N) /\
  htree_higher_priority DEBUG t1 t1 = Ret false /\
  (htree_higher_priority DEBUG t1 t2 = Ret true ->
   htree_higher_priority DEBUG t2 t1 = Ret false) /\
  (htree_higher_priority DEBUG t1 t2 = Ret true ->
   htree_higher_priority DEBUG t2 t3 = Ret true ->
   htree_higher_priority DEBUG t1 t3 = Ret true).
Proof.
  intros H1 H2 H3.
  rewrite !htree_higher_priority_value by assumption.
  destruct (N.ltb_spec (root_frequency t1) (root_frequency t2));
  destruct (N.ltb_spec (root_frequency t2) (root_frequency t1));
  destruct (N.ltb_spec (root_frequency t2) (root_frequency t3));
  destruct (N.ltb_spec (root_frequency t1) (root_frequency t3));
  destruct (N.ltb_spec (root_frequency t1) (root_frequency t1));
  repeat split; intros; try discriminate; try lia; try reflexivity; try congruence.
Qed.

End Comparator.

(** The comparator on a leaf of frequency 1 and a leaf of frequency 2. *)
Lemma htree_higher_priority_strict_order_witness :
  (htree_higher_priority true (Node 99 1 Null Null) (Node 98 2 Null Null) = Ret true <->
     (1 < 2)%N) /\
  (htree_higher_priority true (Node 99 1 Null Null) (Node 98 2 Null Null) = Ret false <->
     (2 <= 1)%N) /\
  htree_higher_priority true (Node 99 1 Null Null) (Node 99 1 Null Null) = Ret false /\
  (htree_higher_priority true (Node 99 1 Null Null) (Node 98 2 Null Null) = Ret true ->
   htree_higher_priority true (Node 98 2 Null Null) (Node 99 1 Null Null) = Ret false) /\
  (htree_higher_priority true (Node 99 1 Null Null) (Node 98 2 Null Null) = Ret true ->
   htree_higher_priority true (Node 98 2 Null Null) (Node 97 3 Null Null) = Ret true ->
   htree_higher_priority true (Node 99 1 Null Null) (Node 97 3 Null Null) = Ret true).
Proof.
  apply (htree_higher_priority_strict_order true
           (Node 99 1 Null Null) (Node 98 2 Null Null) (Node 97 3 Null Null));
    reflexivity.
Defined.

(** ** The shape of a well-formed tree *)

Lemma height_eq v f l r :
  height (Node v f l r) =
    if is_htree_leaf (Node v f l r) then 0 else S (Nat.max (height l) (height r)).
Proof. reflexivity. Qed.

(** A tree that passes [is_htree] is a full binary tree: with k leaves it
    has 2k - 1 nodes, and it has a leaf. *)
Theorem is_htree_full_binary (H : htree) :
  is_htree H = true ->
  1 <= length (leaves H) /\ nodes H + 1 = 2 * length (leaves H).
Proof.
  induction H as [|v f l IHl r IHr]; intros Hw; [discriminate |].
  destruct (is_htree_leaf (Node v f l r)) eqn:Hl.
  - destruct (is_htree_leaf_inv _ Hl) as (v' & f' & E & _).
    injection E as -> -> -> ->. rewrite leaves_eq, Hl. simpl. lia.
  - destruct (is_htree_interior_inv _ _ _ _ Hw Hl) as (Hwl & Hwr & _).
    rewrite leaves_interior by assumption. rewrite length_app.
    specialize (IHl Hwl). specialize (IHr Hwr). simpl nodes. lia.
Qed.

Lemma is_htree_full_binary_witness :
  1 <= length (leaves two_leaves) /\ nodes two_leaves + 1 = 2 * length (leaves two_leaves).
Proof. apply (is_htree_full_binary two_leaves). reflexivity. Defined.

(** ** Code tables: depth and prefixes *)

Lemma max_is_max x y : max x y = Nat.max x y.
Proof. unfold max. destruct (Nat.ltb_spec y x); lia. Qed.

Lemma leaf_at_height H : forall path sym,
  leaf_at H path = Some sym -> length path <= height H.
Proof.
  induction H as [|v f l IHl r IHr]; intros path sym; [discriminate |].
  rewrite leaf_at_eq, height_eq. destruct (is_htree_leaf (Node v f l r)).
  - destruct path; [simpl; lia | discriminate].
  - destruct path as [|c path]; [discriminate |].
    destruct (Ascii.eqb c "0").
    + intros E. specialize (IHl _ _ E). simpl. lia.
    + destruct (Ascii.eqb c "1"); [| discriminate].
      intros E. specialize (IHr _ _ E). simpl. lia.
Qed.

Lemma leaf_at_deepest H :
  is_htree H = true ->
  exists path sym, leaf_at H path = Some sym /\ length path = height H.
Proof.
  induction H as [|v f l IHl r IHr]; intros Hw; [discriminate |].
  rewrite height_eq. destruct (is_htree_leaf (Node v f l r)) eqn:Hl.
  - exists [], v. rewrite leaf_at_eq, Hl. split; reflexivity.
  - destruct (is_htree_interior_inv _ _ _ _ Hw Hl) as (Hwl & Hwr & _).
    destruct (IHl Hwl) as (pl & sl & El & Ll).
    destruct (IHr Hwr) as (pr & sr & Er & Lr).
    destruct (Nat.le_ge_cases (height l) (height r)).
    + exists ("1"%char :: pr), sr. rewrite leaf_at_eq, Hl. simpl.
      split; [assumption | lia].
    + exists ("0"%char :: pl), sl. rewrite leaf_at_eq, Hl. simpl.
      split; [assumption | lia].
Qed.

(** No path to a leaf goes on to another leaf. *)
Lemma leaf_at_prefix H : forall p q s s',
  leaf_at H p = Some s -> leaf_at H (p ++ q) = Some s' -> q = [].
Proof.
  induction H as [|v f l IHl r IHr]; intros p q s s'; [discriminate |].
  rewrite !leaf_at_eq. destruct (is_htree_leaf (Node v f l r)).
  - destruct p; [| discriminate]. simpl. destruct q; [reflexivity | discriminate].
  - destruct p as [|c p]; [discriminate |]. simpl.
    destruct (Ascii.eqb c "0"); [apply IHl |].
    destruct (Ascii.eqb c "1"); [apply IHr | discriminate].
Qed.

Section CodeTableMore.

Variable DEBUG : bool.
Variable NUM_SYMBOLS : nat.

(** What an entry of the code table of a well-formed tree is. *)
Lemma codetable_entry_path H (table : codetable_t) sym code :
  is_htree H = true ->
  (forall s, s ∈ leaves H -> s < NUM_SYMBOLS) ->
  htree_to_codetable DEBUG NUM_SYMBOLS H = Ret table ->
  table !! sym = Some (Some code) ->
  sym ∈ leaves H /\ leaf_at H code = Some sym.
Proof.
  intros Hw Hrange Et Hentry.
  destruct (htree_to_codetable_spec DEBUG NUM_SYMBOLS H Hw Hrange)
    as (table' & E & Hlen & Hnone & Hpath).
  rewrite Et in E. injection E as <-.
  destruct (decide (sym ∈ leaves H)) as [Hin | Hout].
  - split; [assumption |]. destruct (Hpath sym Hin) as (path & Ht & Hp). congruence.
  - assert (Hlt : sym < NUM_SYMBOLS).
    { rewrite <- Hlen. eapply lookup_lt_Some. eassumption. }
    rewrite (Hnone sym Hout Hlt) in Hentry. discriminate.
Qed.

Lemma max_depth_eq H :
  max_depth DEBUG H =
    (REQUIRES DEBUG (is_htree H);;
     if is_htree_leaf H then Ret 1
     else
       ASSERT DEBUG (is_htree_interior H);;
       match H with
       | Null => Undefined
       | Node _ _ l r =>
           dl ← max_depth DEBUG l; dr ← max_depth DEBUG r; Ret (max dl dr + 1)
       end).
Proof. destruct H; reflexivity. Qed.

Lemma max_depth_height H :
  is_htree H = true -> max_depth DEBUG H = Ret (S (height H)).
Proof.
  induction H as [|v f l IHl r IHr]; intros Hw; [discriminate |].
  rewrite max_depth_eq, height_eq. unfold REQUIRES, ASSERT.
  rewrite Hw, contract_true, bind_Ret.
  destruct (is_htree_leaf (Node v f l r)) eqn:Hl; [reflexivity |].
  destruct (is_htree_interior_inv _ _ _ _ Hw Hl) as (Hwl & Hwr & Hi).
  rewrite Hi, contract_true, bind_Ret, (IHl Hwl), bind_Ret, (IHr Hwr), bind_Ret.
  rewrite max_is_max. f_equal. lia.
Qed.

(** [max_depth] of a well-formed tree whose leaves hold distinct symbols is
    one more than the length of the longest code: no string of the code
    table is as long as it, and the string of some symbol is only one
    shorter. *)
Theorem max_depth_bounds_codes (H : htree) :
  is_htree H = true ->
  NoDup (leaves H) ->
  (forall sym, sym ∈ leaves H -> sym < NUM_SYMBOLS) ->
  exists (d : nat) (table : codetable_t),
    max_depth DEBUG H = Ret d /\
    htree_to_codetable DEBUG NUM_SYMBOLS H = Ret table /\
    (forall sym code, table !! sym = Some (Some code) -> S (length code) <= d) /\
    (exists sym code, table !! sym = Some (Some code) /\ S (length code) = d).
Proof.
  intros Hw Hnd Hrange.
  destruct (htree_to_codetable_spec DEBUG NUM_SYMBOLS H Hw Hrange)
    as (table & E & _ & _ & Hpath).
  exists (S (height H)), table.
  split; [apply max_depth_height; assumption |]. split; [exact E |]. split.
  - intros sym code Hentry.
    destruct (codetable_entry_path H table sym code Hw Hrange E Hentry) as [_ Hp].
    pose proof (leaf_at_height H code sym Hp). lia.
  - destruct (leaf_at_deepest H Hw) as (path & sym & Hp & Hlen).
    destruct (Hpath sym (leaf_at_leaves H path sym Hp)) as (path' & Htab & Hp').
    exists sym, path'. split; [exact Htab |].
    rewrite <- (leaf_at_unique H Hnd path path' sym Hp Hp'). lia.
Qed.

(** The code table of a well-formed tree is a prefix code: its strings are
    made of '0' and '1', the string of one symbol is never the beginning of
    the string of another, and when the root is an interior node no string
    is empty. *)
Theorem htree_to_codetable_prefix_free (H : htree) (table : codetable_t) :
  is_htree H = true ->
  (forall sym, sym ∈ leaves H -> sym < NUM_SYMBOLS) ->
  htree_to_codetable DEBUG NUM_SYMBOLS H = Ret table ->
  forall sym1 sym2 code1 code2,
    table !! sym1 = Some (Some code1) ->
    table !! sym2 = Some (Some code2) ->
    bits_ok code1 /\
    (is_htree_leaf H = false -> code1 <> []) /\
    (sym1 <> sym2 -> ~ code1 `prefix_of` code2).
Proof.
  intros Hw Hrange Et sym1 sym2 code1 code2 H1 H2.
  destruct (codetable_entry_path H table sym1 code1 Hw Hrange Et H1) as [_ Hp1].
  destruct (codetable_entry_path H table sym2 code2 Hw Hrange Et H2) as [_ Hp2].
  split; [eapply leaf_at_bits; eassumption |]. split.
  - intros Hl ->. destruct H as [|v f l r]; [discriminate |].
    rewrite leaf_at_eq, Hl in Hp1. discriminate.
  - intros Hne [q ->].
    pose proof (leaf_at_prefix H code1 q sym1 sym2 Hp1 Hp2) as ->.
    rewrite app_nil_r in Hp2. congruence.
Qed.

End CodeTableMore.

(** The depth and the code table of the tree of three leaves. *)
Lemma max_depth_bounds_codes_witness :
  exists (d : nat) (table : codetable_t),
    max_depth true three_leaves = Ret d /\
    htree_to_codetable true 256 three_leaves = Ret table /\
    (forall sym code, table !! sym = Some (Some code) -> S (length code) <= d) /\
    (exists sym code, table !! sym = Some (Some code) /\ S (length code) = d).
Proof.
  apply (max_depth_bounds_codes true 256 three_leaves).
  - reflexivity.
  - apply NoDup_ListNoDup. vm_compute.
    repeat (constructor; [simpl; intuition discriminate |]). constructor.
  - intros sym Hsym. apply list_elem_of_In in Hsym. vm_compute in Hsym.
    destruct Hsym as [<- | [<- | [<- | []]]]; vm_compute; lia.
Defined.

(** The codes "0" of the symbol 97 and "1" of the symbol 98. *)
Lemma htree_to_codetable_prefix_free_witness :
  bits_ok ["0"%char] /\
  (is_htree_leaf two_leaves = false -> ["0"%char] <> []) /\
  (97 <> 98 -> ~ ["0"%char] `prefix_of` ["1"%char]).
Proof.
  assert (E : exists table : codetable_t,
            htree_to_codetable true 256 two_leaves = Ret table /\
            table !! 97 = Some (Some ["0"%char]) /\
            table !! 98 = Some (Some ["1"%char])).
  { eexists. split; [vm_compute; reflexivity |]. split; reflexivity. }
  destruct E as (table & Et & E1 & E2).
  apply (htree_to_codetable_prefix_free true 256 two_leaves table).
  - reflexivity.
  - intros sym Hsym. apply list_elem_of_In in Hsym. vm_compute in Hsym.
    destruct Hsym as [<- | [<- | []]]; vm_compute; lia.
  - exact Et.
  - exact E1.
  - exact E2.
Defined.

(** ** The encoder: symbols without a code, concatenation *)

(** A loop whose body returns or is undefined is undefined when a round
    is. *)
Lemma for_loop_undefined {St : Type} (body : nat -> St -> outcome St) (k : nat) :
  (forall j s, body j s = Undefined \/ exists s', body j s = Ret s') ->
  (forall s, body k s = Undefined) ->
  forall n i s, i <= k < i + n -> for_loop n i body s = Undefined.
Proof.
  intros Hbody Hk. induction n as [|n IH]; intros i s Hi; [lia |].
  simpl. destruct (Nat.eq_dec i k) as [-> | Hne].
  - rewrite Hk. reflexivity.
  - destruct (Hbody i s) as [E | [s' E]]; rewrite E; [reflexivity |].
    simpl. apply IH. lia.
Qed.

Lemma code_of_cases (table : codetable_t) src i :
  code_of table src i = Undefined \/ exists bs, code_of table src i = Ret bs.
Proof.
  unfold code_of. destruct (src !! i) as [sym|]; [| auto].
  destruct (table !! sym) as [[bs|]|]; eauto.
Qed.

(** [encode_src] is undefined when one of the first [src_len] cells of
    [src] is beyond the array, or holds a symbol beyond the table or one
    whose entry is [NULL]: [strlen] is called with what is there. *)
Theorem encode_src_symbol_without_code (table : codetable_t)
    (src : list symbol_t) (src_len i : nat) :
  i < src_len ->
  (src !! i = None \/
   exists sym, src !! i = Some sym /\
     (table !! sym = None \/ table !! sym = Some None)) ->
  get_size table src src_len = Undefined /\
  encode_src table src src_len = Undefined.
Proof.
  intros Hi Hbad.
  assert (Hcode : code_of table src i = Undefined).
  { unfold code_of. destruct Hbad as [-> | (sym & -> & [-> | ->])]; reflexivity. }
  assert (Hsize : get_size table src src_len = Undefined).
  { unfold get_size. apply (for_loop_undefined _ i).
    - intros j s. destruct (code_of_cases table src j) as [E | [bs E]]; rewrite E;
        [left; reflexivity | right; eexists; reflexivity].
    - intros s. rewrite Hcode. reflexivity.
    - lia. }
  split; [exact Hsize |]. unfold encode_src. rewrite Hsize. reflexivity.
Qed.

(** The symbol 2 has no code in a table of two codes. *)
Lemma encode_src_symbol_without_code_witness :
  get_size [Some ["0"]; Some ["1"; "0"]]%char [0; 2; 1] 3 = Undefined /\
  encode_src [Some ["0"]; Some ["1"; "0"]]%char [0; 2; 1] 3 = Undefined.
Proof.
  apply (encode_src_symbol_without_code
           [Some ["0"]; Some ["1"; "0"]]%char [0; 2; 1] 3 1).
  - lia.
  - right. exists 2. split; [reflexivity |]. left. reflexivity.
Defined.

(** Encoding two sequences one after the other gives the two encodings one
    after the other, and encoding the first [n] symbols of an array is
    encoding the array cut after them. *)
Theorem encode_src_app (table : codetable_t) (src1 src2 : list symbol_t) :
  (forall sym, sym ∈ src1 ++ src2 -> exists bs, table !! sym = Some (Some bs)) ->
  exists res1 res2 res,
    encode_src table src1 (length src1) = Ret res1 /\
    encode_src table src2 (length src2) = Ret res2 /\
    encode_src table (src1 ++ src2) (length (src1 ++ src2)) = Ret res /\
    encode_src table (src1 ++ src2) (length src1) = Ret res1 /\
    c_string res = c_string res1 ++ c_string res2.
Proof.
  intros Hpop.
  assert (H1 : populated table src1).
  { intros sym Hsym. apply Hpop, elem_of_app. left. assumption. }
  assert (H2 : populated table src2).
  { intros sym Hsym. apply Hpop, elem_of_app. right. assumption. }
  exists (flat_map (code_string table) src1 ++ [NUL]).
  exists (flat_map (code_string table) src2 ++ [NUL]).
  exists (flat_map (code_string table) (src1 ++ src2) ++ [NUL]).
  split; [apply encode_src_buffer; assumption |].
  split; [apply encode_src_buffer; assumption |].
  split; [apply encode_src_buffer; exact Hpop |].
  split.
  - unfold encode_src.
    rewrite (get_size_sum table (src1 ++ src2) (length src1) Hpop)
      by (rewrite length_app; lia).
    rewrite take_app_length, bind_Ret.
    pose proof (populate_bstring_fill table src1 H1) as Hfill.
    unfold populate_bstring in *.
    destruct (for_loop (length src1) 0 _ _) as [[buf curr]| | | |] eqn:E1 in Hfill;
      try discriminate.
    erewrite for_loop_ext; [rewrite E1; exact Hfill |].
    intros j [b c] Hj. unfold code_of.
    rewrite lookup_app_l by lia. reflexivity.
  - rewrite !c_string_until_nul by apply nul_free_codes.
    apply flat_map_app.
Qed.

(** Encoding [0; 1] and [0] with a table of two codes. *)
Lemma encode_src_app_witness :
  exists res1 res2 res,
    encode_src [Some ["0"]; Some ["1"; "0"]]%char [0; 1] 2 = Ret res1 /\
    encode_src [Some ["0"]; Some ["1"; "0"]]%char [0] 1 = Ret res2 /\
    encode_src [Some ["0"]; Some ["1"; "0"]]%char [0; 1; 0] 3 = Ret res /\
    encode_src [Some ["0"]; Some ["1"; "0"]]%char [0; 1; 0] 2 = Ret res1 /\
    c_string res = c_string res1 ++ c_string res2.
Proof.
  apply (encode_src_app [Some ["0"]; Some ["1"; "0"]]%char [0; 1] [0]).
  intros sym Hsym. apply list_elem_of_In in Hsym. simpl in Hsym.
  destruct Hsym as [<- | [<- | [<- | []]]]; eexists; reflexivity.
Defined.

(** ** The decoder: what it returns *)

Lemma traverse_c_string H : forall code node,
  traverse H node code = traverse H node (c_string code).
Proof.
  induction code as [|c code IH]; intros node; [reflexivity |].
  simpl. destruct (is_nul c) eqn:Hc; [reflexivity |].
  simpl. rewrite Hc, <- !IH. reflexivity.
Qed.

Lemma traverse_length H : forall code node,
  length (traverse H node code).2 <= length code.
Proof.
  induction code as [|c code IH]; intros node; [simpl; lia |].
  cbn [traverse]. destruct (is_nul c); [simpl; lia |].
  match goal with |- context [is_htree_leaf ?t] => destruct (is_htree_leaf t) end.
  - cbn [snd length]. specialize (IH H). lia.
  - specialize (IH (match node with
                    | Null => Null
                    | Node _ _ l r => if Ascii.eqb c "0" then l else r
                    end)). cbn [length]. lia.
Qed.

(** Every symbol met from a node whose leaves are leaves of [H] is a leaf of
    [H]. *)
Lemma traverse_leaves H :
  interior H ->
  forall code node,
    (forall s, s ∈ leaves node -> s ∈ leaves H) ->
    interior node ->
    forall sym, sym ∈ (traverse H node code).2 -> sym ∈ leaves H.
Proof.
  intros HH. induction code as [|c code IH]; intros node Hsub Hnode sym.
  - simpl. intros Hin. apply elem_of_nil in Hin. contradiction.
  - cbn [traverse]. destruct (is_nul c).
    + simpl. intros Hin. apply elem_of_nil in Hin. contradiction.
    + destruct Hnode as [Hw Hl]. destruct node as [|v f l r]; [discriminate |].
      destruct (is_htree_interior_inv _ _ _ _ Hw Hl) as (Hwl & Hwr & _).
      rewrite leaves_interior in Hsub by assumption.
      set (child := if Ascii.eqb c "0" then l else r).
      assert (Hchild : is_htree child = true /\
                       forall s, s ∈ leaves child -> s ∈ leaves H).
      { subst child. destruct (Ascii.eqb c "0"); (split; [assumption |]);
          intros s Hs; apply Hsub, elem_of_app; [left | right]; assumption. }
      destruct Hchild as [Hwc Hsubc].
      destruct (is_htree_leaf child) eqn:Hcl.
      * destruct (is_htree_leaf_inv _ Hcl) as (cv & cf & Echild & _).
        cbn [snd]. rewrite Echild. intros Hin. apply elem_of_cons in Hin as [-> | Hin].
        -- apply Hsubc. rewrite Echild in Hcl |- *. rewrite leaves_eq, Hcl.
           apply list_elem_of_singleton. reflexivity.
        -- revert Hin. apply (IH H); [auto | assumption].
      * apply (IH child); [assumption | split; assumption].
Qed.

Section DecoderMore.

Variable DEBUG : bool.

(** When decoding with a tree whose root is an interior node returns, the
    length it returns is the length of the array, there are no more
    symbols than characters in the string, and every symbol is at a leaf of
    the tree. *)
Theorem decode_src_output (H : htree) (code : bitstring_t)
    (res : list symbol_t) (n : nat) :
  is_htree H = true -> is_htree_leaf H = false ->
  decode_src DEBUG H code = Ret (res, n) ->
  n = length res /\
  n <= strlen code /\
  forall sym, sym ∈ res -> sym ∈ leaves H.
Proof.
  intros Hw Hl Hdec. assert (HH : interior H) by (split; assumption).
  rewrite (decode_src_traverse DEBUG H code HH) in Hdec.
  destruct (decide ((traverse H H code).1 = H)); [| discriminate].
  injection Hdec as <- <-.
  split; [reflexivity |]. split.
  - unfold strlen. rewrite traverse_c_string. apply traverse_length.
  - apply (traverse_leaves H HH code H); auto.
Qed.

End DecoderMore.

(** Decoding "011" with the tree of two leaves. *)
Lemma decode_src_output_witness :
  3 = length [97; 98; 98] /\
  3 <= strlen ["0"; "1"; "1"]%char /\
  forall sym, sym ∈ [97; 98; 98] -> sym ∈ leaves two_leaves.
Proof.
  apply (decode_src_output true two_leaves ["0"; "1"; "1"]%char [97; 98; 98] 3);
    reflexivity.
Defined.

(** ** The decoder: concatenation and re-encoding *)

Lemma traverse_app H : forall code1 node code2,
  nul_free code1 ->
  traverse H node (code1 ++ code2) =
    ((traverse H (traverse H node code1).1 code2).1,
     (traverse H node code1).2 ++ (traverse H (traverse H node code1).1 code2).2).
Proof.
  induction code1 as [|c code1 IH]; intros node code2 Hfree.
  - simpl. destruct (traverse H node code2). reflexivity.
  - apply Forall_cons in Hfree as [Hc Hfree].
    cbn [app traverse]. rewrite Hc.
    match goal with |- context [is_htree_leaf ?t] => destruct (is_htree_leaf t) end.
    + rewrite (IH H code2 Hfree). reflexivity.
    + apply IH. assumption.
Qed.

Lemma node_at_app H : forall p q node,
  node_at H p = Ret node -> node_at H (p ++ q) = node_at node q.
Proof.
  intros p. revert H. induction p as [|c p IH]; intros H q node E.
  - injection E as <-. reflexivity.
  - simpl in E |- *. destruct (descend H c) as [child| | | |]; try discriminate.
    simpl in E |- *. apply IH. assumption.
Qed.

(** A path of bits that [node_at] follows to a leaf is a path of
    [leaf_at]. *)
Lemma node_at_leaf_at : forall p H node,
  node_at H p = Ret node -> bits_ok p -> is_htree_leaf node = true ->
  exists v, get_value node = Ret v /\ leaf_at H p = Some v.
Proof.
  induction p as [|c p IH]; intros H node E Hbits Hleaf.
  - injection E as <-. destruct (leaves_leaf H Hleaf) as (v & _ & Hv).
    exists v. split; [assumption |].
    destruct H as [|hv hf hl hr]; [discriminate |].
    rewrite leaf_at_eq, Hleaf. injection Hv as ->. reflexivity.
  - apply Forall_cons in Hbits as [Hc Hbits].
    simpl in E. apply bind_Ret_inv in E as (child & Hd & E).
    destruct H as [|hv hf hl hr];
      [unfold descend in Hd; destruct (Ascii.eqb c "0"); discriminate |].
    destruct (is_htree_leaf (Node hv hf hl hr)) eqn:HlH.
    + exfalso. destruct (is_htree_leaf_inv _ HlH) as (v' & f' & Eq & _).
      injection Eq as -> -> -> ->.
      assert (child = Null) as ->.
      { unfold descend in Hd. simpl in Hd.
        destruct (Ascii.eqb c "0"); injection Hd as <-; reflexivity. }
      destruct p as [|c' p'].
      * injection E as <-. discriminate.
      * simpl in E. unfold descend in E. destruct (Ascii.eqb c' "0"); discriminate.
    + destruct (IH child node E Hbits Hleaf) as (v & Hv & Hp).
      exists v. split; [assumption |]. rewrite leaf_at_eq, HlH.
      unfold descend in Hd. simpl in Hd.
      destruct Hc as [-> | ->]; simpl in Hd |- *; injection Hd as <-; assumption.
Qed.

(** A string of bits read from the node at [p] is cut into paths to
    leaves, followed by the path to the node where the reading stops. *)
Lemma traverse_paths H :
  interior H ->
  forall code node p,
    bits_ok code -> bits_ok p ->
    node_at H p = Ret node -> interior node ->
    exists (paths : list bitstring_t) (rest : bitstring_t),
      p ++ code = concat paths ++ rest /\
      Forall2 (fun sym path => leaf_at H path = Some sym)
              (traverse H node code).2 paths /\
      node_at H rest = Ret (traverse H node code).1.
Proof.
  intros HH. induction code as [|c code IH]; intros node p Hcode Hp Hnode Hint.
  - exists [], p. simpl. rewrite app_nil_r. split; [reflexivity |].
    split; [constructor | assumption].
  - apply Forall_cons in Hcode as [Hc Hcode].
    cbn [traverse]. rewrite (is_bit_not_nul c Hc).
    destruct (descend_interior node c Hint) as (v & f & l & r & -> & Hd & Hwl & Hwr).
    set (child := if Ascii.eqb c "0" then l else r) in *.
    assert (Hwc : is_htree child = true)
      by (subst child; destruct (Ascii.eqb c "0"); assumption).
    assert (Hat : node_at H (p ++ [c]) = Ret child).
    { rewrite (node_at_app H p [c] _ Hnode). simpl. rewrite Hd. reflexivity. }
    assert (Hpc : bits_ok (p ++ [c])).
    { apply Forall_app. split; [assumption |]. constructor; [assumption | constructor]. }
    replace (p ++ c :: code) with ((p ++ [c]) ++ code)
      by (rewrite <- app_assoc; reflexivity).
    destruct (is_htree_leaf child) eqn:Hleaf.
    + destruct (node_at_leaf_at _ _ _ Hat Hpc Hleaf) as (cv & Hv & Hpath).
      destruct (IH H [] Hcode (Forall_nil_2 _) eq_refl HH) as (paths & rest & E & HF & Hr).
      exists ((p ++ [c]) :: paths), rest. cbn [fst snd concat].
      split; [simpl in E; rewrite E; apply app_assoc |].
      split; [| assumption].
      constructor; [| assumption].
      destruct child; [discriminate |]. injection Hv as ->. assumption.
    + apply IH; try assumption. split; assumption.
Qed.

Section DecoderCompose.

Variable DEBUG : bool.
Variable NUM_SYMBOLS : nat.

(** When a string without NUL decodes to a sequence, decoding it followed
    by a second string does what decoding the second string does, with the
    sequence in front of the result. *)
Theorem decode_src_app (H : htree) (code1 code2 : bitstring_t)
    (res1 : list symbol_t) (n1 : nat) :
  is_htree H = true -> is_htree_leaf H = false ->
  nul_free code1 ->
  decode_src DEBUG H code1 = Ret (res1, n1) ->
  decode_src DEBUG H (code1 ++ code2) =
    ('(res2, n2) ← decode_src DEBUG H code2; Ret (res1 ++ res2, n1 + n2)).
Proof.
  intros Hw Hl Hfree Hdec. assert (HH : interior H) by (split; assumption).
  rewrite (decode_src_traverse DEBUG H code1 HH) in Hdec.
  destruct (decide ((traverse H H code1).1 = H)) as [E1 |]; [| discriminate].
  injection Hdec as <- <-.
  rewrite !(decode_src_traverse DEBUG H _ HH).
  rewrite (traverse_app H code1 H code2 Hfree), E1. cbn [fst snd].
  destruct (decide ((traverse H H code2).1 = H)); [| reflexivity].
  simpl. rewrite length_app. reflexivity.
Qed.

(** A string of bits that decodes with a tree whose leaves hold distinct
    symbols is the encoding, with the code table of the tree, of the
    sequence it decodes to. *)
Theorem encode_decode_roundtrip (H : htree) (code : bitstring_t)
    (res : list symbol_t) (n : nat) :
  is_htree H = true -> is_htree_leaf H = false ->
  NoDup (leaves H) ->
  (forall sym, sym ∈ leaves H -> sym < NUM_SYMBOLS) ->
  bits_ok code ->
  decode_src DEBUG H code = Ret (res, n) ->
  exists (table : codetable_t) (out : bitstring_t),
    htree_to_codetable DEBUG NUM_SYMBOLS H = Ret table /\
    encode_src table res n = Ret out /\
    c_string out = code.
Proof.
  intros Hw Hl Hnd Hrange Hbits Hdec.
  assert (HH : interior H) by (split; assumption).
  rewrite (decode_src_traverse DEBUG H code HH) in Hdec.
  destruct (decide ((traverse H H code).1 = H)) as [E |]; [| discriminate].
  injection Hdec as <- <-.
  destruct (traverse_paths H HH code H [] Hbits (Forall_nil_2 _) eq_refl HH)
    as (paths & rest & Hcat & HF & Hrest).
  assert (rest = []) as ->.
  { destruct rest as [|c rest]; [reflexivity |]. exfalso.
    rewrite E in Hrest.
    pose proof (node_at_nodes _ _ _ Hrest ltac:(discriminate)). lia. }
  rewrite app_nil_r in Hcat. simpl in Hcat.
  remember (traverse H H code).2 as syms eqn:Hsyms. clear Hsyms.
  destruct (htree_to_codetable_spec DEBUG NUM_SYMBOLS H Hw Hrange)
    as (table & Et & _ & _ & Hpath).
  assert (Hcodes : Forall2 (fun sym path => table !! sym = Some (Some path))
                     syms paths).
  { eapply Forall2_impl; [exact HF |]. intros sym path Hp. simpl in Hp.
    destruct (Hpath sym (leaf_at_leaves H path sym Hp)) as (path' & Htab & Hp').
    rewrite (leaf_at_unique H Hnd path path' sym Hp Hp'). exact Htab. }
  exists table, (flat_map (code_string table) syms ++ [NUL]).
  split; [exact Et |]. split.
  - apply encode_src_buffer. intros sym Hsym.
    apply list_elem_of_lookup in Hsym as [i Hi].
    destruct (Forall2_lookup_l _ _ _ _ _ Hcodes Hi) as (path & _ & Htab). eauto.
  - rewrite c_string_until_nul by apply nul_free_codes.
    rewrite Hcat. clear -Hcodes HF.
    induction Hcodes as [|sym path syms paths Hsym _ IH]; [reflexivity |].
    apply Forall2_cons in HF as [Hp HF].
    cbn [flat_map concat]. rewrite (IH HF). f_equal.
    unfold code_string. rewrite Hsym.
    apply c_string_bits. eapply leaf_at_bits. eassumption.
Qed.

End DecoderCompose.

(** Decoding "01" and then "1" with the tree of two leaves. *)
Lemma decode_src_app_witness :
  decode_src true two_leaves (["0"; "1"] ++ ["1"])%char =
    ('(res2, n2) ← decode_src true two_leaves ["1"]%char;
     Ret ([97; 98] ++ res2, 2 + n2)).
Proof.
  apply (decode_src_app true two_leaves ["0"; "1"]%char ["1"]%char [97; 98] 2).
  - reflexivity.
  - reflexivity.
  - repeat constructor.
  - reflexivity.
Defined.

(** "0110" decodes to a, b, b, a, which encode to "0110". *)
Lemma encode_decode_roundtrip_witness :
  exists (table : codetable_t) (out : bitstring_t),
    htree_to_codetable true 256 two_leaves = Ret table /\
    encode_src table [97; 98; 98; 97] 4 = Ret out /\
    c_string out = ["0"; "1"; "1"; "0"]%char.
Proof.
  apply (encode_decode_roundtrip true 256 two_leaves ["0"; "1"; "1"; "0"]%char
           [97; 98; 98; 97] 4).
  - reflexivity.
  - reflexivity.
  - vm_compute. repeat constructor; intros Hin; apply list_elem_of_In in Hin;
      simpl in Hin; intuition discriminate.
  - intros sym Hsym. apply list_elem_of_In in Hsym. vm_compute in Hsym.
    destruct Hsym as [<- | [<- | []]]; vm_compute; lia.
  - constructor; [left; reflexivity |]. constructor; [right; reflexivity |].
    constructor; [right; reflexivity |]. constructor; [left; reflexivity |].
    constructor.
  - reflexivity.
Defined.

(** ** The decoder: code boundaries *)

(** Reading the codes of a sequence of symbols from the root emits the
    sequence and ends at the root. *)
Lemma traverse_concat H :
  interior H ->
  forall syms paths,
    Forall2 (fun sym path => leaf_at H path = Some sym) syms paths ->
    traverse H H (concat paths) = (H, syms).
Proof.
  intros HH syms paths HF.
  induction HF as [|sym path syms paths Hp _ IH]; [reflexivity |].
  cbn [concat]. rewrite (traverse_code H path H sym (concat paths) HH Hp), IH.
  reflexivity.
Qed.

(** A string of bits whose reading ends at the root is the codes of the
    symbols read. *)
Lemma traverse_boundary H code :
  interior H -> bits_ok code ->
  (traverse H H code).1 = H ->
  codes_of H (traverse H H code).2 code.
Proof.
  intros HH Hbits E.
  destruct (traverse_paths H HH code H [] Hbits (Forall_nil_2 _) eq_refl HH)
    as (paths & rest & Hcat & HF & Hrest).
  assert (rest = []) as ->.
  { destruct rest as [|c rest]; [reflexivity |]. exfalso.
    rewrite E in Hrest.
    exact (below_root_neq _ _ _ Hrest ltac:(discriminate) eq_refl). }
  rewrite app_nil_r in Hcat. simpl in Hcat.
  exists paths. split; [exact HF | symmetry; exact Hcat].
Qed.

Section CodeBoundary.

Variable DEBUG : bool.

(** With a well-formed tree whose root is an interior node, decoding a
    string of bits stops with "Invalid code to decode!" exactly when the
    string does not end on a code boundary, that is when it is not the
    codes of some symbols one after the other, and exactly when the node
    at which the loop of the length pass ends is not the root.  A string
    that is the codes of a sequence of symbols decodes to that sequence,
    and the length pass returns its length. *)
Theorem decode_src_code_boundary (H : htree) (code : bitstring_t) :
  is_htree H = true -> is_htree_leaf H = false -> bits_ok code ->
  (decode_src DEBUG H code = Exit "Invalid code to decode!" <->
     ~ code_boundary H code) /\
  (exists node count,
     find_len_loop H H code 0 = Ret (node, count) /\
     (node <> H <-> ~ code_boundary H code)) /\
  (forall syms, codes_of H syms code ->
     find_len DEBUG H code = Ret (length syms) /\
     decode_src DEBUG H code = Ret (syms, length syms)).
Proof.
  intros Hw Hl Hbits. assert (HH : interior H) by (split; assumption).
  destruct (decode_loops H HH code H 0 HH) as (_ & Hf & _).
  pose proof (decode_src_traverse DEBUG H code HH) as Hdec.
  assert (Hroot : forall syms, codes_of H syms code ->
            traverse H H code = (H, syms)).
  { intros syms (paths & HF & <-). apply traverse_concat; assumption. }
  split; [| split].
  - rewrite Hdec.
    destruct (decide ((traverse H H code).1 = H)) as [E | E].
    + split; [discriminate |]. intros N. exfalso. apply N.
      exists (traverse H H code).2. apply traverse_boundary; assumption.
    + split; [| reflexivity]. intros _ [syms Hsyms].
      apply E. rewrite (Hroot syms Hsyms). reflexivity.
  - exists (traverse H H code).1, (length (traverse H H code).2).
    split; [exact Hf |]. split.
    + intros E [syms Hsyms]. apply E. rewrite (Hroot syms Hsyms). reflexivity.
    + intros N E. apply N. exists (traverse H H code).2.
      apply traverse_boundary; assumption.
  - intros syms Hsyms. pose proof (Hroot syms Hsyms) as E.
    split.
    + unfold find_len, REQUIRES. rewrite Hw, contract_true, bind_Ret, Hf, bind_Ret.
      rewrite E. cbn [fst snd Nat.add].
      rewrite bool_decide_eq_false_2 by (intros N; apply N; reflexivity).
      reflexivity.
    + rewrite Hdec, E. cbn [fst snd].
      destruct (decide (H = H)) as [_ | N]; [reflexivity | contradiction].
Qed.

End CodeBoundary.

(** With the tree of three leaves, "01" stops in the middle of a code: [a]
    is read, then the node above [c] and [b] is where the string ends. *)
Lemma decode_src_code_boundary_witness :
  decode_src true three_leaves ["0"; "1"]%char = Exit "Invalid code to decode!" /\
  ~ code_boundary three_leaves ["0"; "1"]%char.
Proof.
  assert (E : decode_src true three_leaves ["0"; "1"]%char =
              Exit "Invalid code to decode!") by reflexivity.
  split; [exact E |].
  apply (decode_src_code_boundary true three_leaves ["0"; "1"]%char).
  - reflexivity.
  - reflexivity.
  - constructor; [left; reflexivity |]. constructor; [right; reflexivity |].
    constructor.
  - exact E.
Defined.

(** ** A tree that is a single leaf *)

Section SingleLeaf.

Variable DEBUG : bool.
Variable NUM_SYMBOLS : nat.

(** With a tree that is a single leaf, [decode_src] returns the empty
    sequence for the empty string, stops in [error] for a string of one
    character, and dereferences [NULL] for a longer one. *)
Theorem decode_src_single_leaf (H : htree) (code : bitstring_t) :
  is_htree_leaf H = true ->
  (strlen code = 0 -> decode_src DEBUG H code = Ret ([], 0)) /\
  (strlen code = 1 -> decode_src DEBUG H code = Exit "Invalid code to decode!") /\
  (2 <= strlen code -> decode_src DEBUG H code = Undefined).
Proof.
  intros Hl. pose proof (is_htree_leaf_is_htree H Hl) as Hw.
  destruct (is_htree_leaf_inv H Hl) as (v & f & -> & Hf).
  unfold decode_src, find_len, parse_code, REQUIRES, strlen.
  rewrite Hw, contract_true, !bind_Ret.
  destruct code as [|c1 code]; simpl.
  - rewrite bool_decide_eq_false_2 by (intros N; apply N; reflexivity).
    repeat split; intros; try lia; reflexivity.
  - destruct (is_nul c1) eqn:H1; simpl.
    + rewrite bool_decide_eq_false_2 by (intros N; apply N; reflexivity).
      repeat split; intros; try lia; reflexivity.
    + assert (Hd1 : descend (Node v f Null Null) c1 = Ret Null)
        by (unfold descend; destruct (Ascii.eqb c1 "0"); reflexivity).
      rewrite Hd1. simpl. destruct code as [|c2 code]; simpl.
      * repeat split; intros; try lia; reflexivity.
      * destruct (is_nul c2) eqn:H2; simpl.
        -- repeat split; intros; try lia; reflexivity.
        -- assert (Hd2 : descend Null c2 = Undefined)
             by (unfold descend; destruct (Ascii.eqb c2 "0"); reflexivity).
           rewrite Hd2. repeat split; intros; try lia; reflexivity.
Qed.

(** The code table of a single leaf gives its symbol the empty string, so
    every sequence of that symbol is encoded as the empty string. *)
Theorem single_leaf_encodes_nothing (v : symbol_t) (f : N) (n : nat) :
  (0 < f)%N -> v < NUM_SYMBOLS ->
  exists (table : codetable_t) (out : bitstring_t),
    htree_to_codetable DEBUG NUM_SYMBOLS (Node v f Null Null) = Ret table /\
    table !! v = Some (Some []) /\
    encode_src table (replicate n v) n = Ret out /\
    c_string out = [].
Proof.
  intros Hf Hv.
  assert (Hl : is_htree_leaf (Node v f Null Null) = true).
  { simpl. destruct (N.leb_spec f 0); [lia | reflexivity]. }
  exists (<[v := Some []]> (replicate NUM_SYMBOLS None)).
  assert (Hentry : (<[v := Some []]> (replicate NUM_SYMBOLS None) : codetable_t) !! v
                   = Some (Some [])).
  { apply list_lookup_insert_eq. rewrite length_replicate. assumption. }
  assert (Hcodes : flat_map (code_string (<[v := Some []]> (replicate NUM_SYMBOLS None)))
                     (replicate n v) = []).
  { induction n as [|n IH]; [reflexivity |]. simpl. unfold code_string at 1.
    rewrite Hentry. simpl. exact IH. }
  exists [NUL]. split; [| split; [exact Hentry | split; [| reflexivity]]].
  - unfold htree_to_codetable, REQUIRES.
    rewrite (is_htree_leaf_is_htree _ Hl), contract_true, bind_Ret.
    rewrite htree_to_codetable_body_eq. unfold REQUIRES.
    rewrite (is_htree_leaf_is_htree _ Hl), contract_true, bind_Ret, Hl.
    simpl get_value. rewrite bind_Ret. unfold store.
    rewrite length_replicate. destruct (Nat.ltb_spec v NUM_SYMBOLS); [reflexivity | lia].
  - pose proof (encode_src_buffer (<[v := Some []]> (replicate NUM_SYMBOLS None))
                  (replicate n v)) as Henc.
    rewrite length_replicate, Hcodes in Henc. apply Henc.
    intros sym Hsym. apply elem_of_replicate in Hsym as [-> _]. eauto.
Qed.

End SingleLeaf.

(** Decoding with the leaf of the symbol 97. *)
Lemma decode_src_single_leaf_witness :
  (strlen ["0"; "0"]%char = 0 -> decode_src true one_leaf ["0"; "0"]%char = Ret ([], 0)) /\
  (strlen ["0"; "0"]%char = 1 ->
   decode_src true one_leaf ["0"; "0"]%char = Exit "Invalid code to decode!") /\
  (2 <= strlen ["0"; "0"]%char -> decode_src true one_leaf ["0"; "0"]%char = Undefined).
Proof. apply (decode_src_single_leaf true one_leaf ["0"; "0"]%char). reflexivity. Defined.

(** Five times the symbol 97, encoded with the table of its leaf. *)
Lemma single_leaf_encodes_nothing_witness :
  exists (table : codetable_t) (out : bitstring_t),
    htree_to_codetable true 256 (Node 97 5 Null Null) = Ret table /\
    table !! 97 = Some (Some []) /\
    encode_src table (replicate 5 97) 5 = Ret out /\
    c_string out = [].
Proof. apply (single_leaf_encodes_nothing true 256 97 5 5); [reflexivity | lia]. Defined.

(** ** Packing and unpacking: the other direction, padding, bounds *)

Lemma bits_ok_digits byte : bits_ok (digits byte).
Proof.
  unfold digits. apply Forall_map, Forall_forall. intros i _.
  unfold byte2bit_digit, is_bit. simpl.
  destruct (byte2bit_shift byte i =? 1)%Z; auto.
Qed.

Lemma lookup_digits byte (j : nat) :
  j < 8 ->
  digits byte !! j =
    Some (if Z.testbit byte (Z.of_nat (7 - j)) then "1"%char else "0"%char).
Proof.
  intros Hj. unfold digits. rewrite list_lookup_fmap, lookup_seq_lt by assumption.
  cbn [fmap option_fmap option_map Nat.add]. f_equal.
  apply byte2bit_digit_testbit. assumption.
Qed.

(** A byte is the value packed from its eight digits. *)
Lemma chunk_value_digits byte :
  (0 <= byte < 256)%Z -> chunk_value 8 (digits byte) 128 = byte.
Proof.
  intros Hb. change 128%Z with (2 ^ Z.of_nat 7)%Z.
  pose proof (chunk_value_bound 8 (digits byte) 7 ltac:(lia)) as Hcv.
  change (2 ^ Z.of_nat 8)%Z with 256%Z in Hcv.
  apply Z.bits_inj'. intros n Hn.
  destruct (Z.lt_ge_cases n 8) as [Hlt | Hge].
  - replace n with (Z.of_nat (7 - (7 - Z.to_nat n))) by lia.
    rewrite (chunk_value_testbit 8 (digits byte) 7 (7 - Z.to_nat n)
               (bits_ok_digits byte)) by lia.
    rewrite lookup_digits by lia.
    destruct (Z.testbit byte (Z.of_nat (7 - (7 - Z.to_nat n)))).
    + apply bool_decide_eq_true_2. reflexivity.
    + apply bool_decide_eq_false_2. discriminate.
  - rewrite <- (Z.mod_small _ (2 ^ 8)) by (change (2 ^ 8)%Z with 256%Z; lia).
    rewrite <- (Z.mod_small byte (2 ^ 8)) by (change (2 ^ 8)%Z with 256%Z; lia).
    rewrite !Z.mod_pow2_bits_high by lia. reflexivity.
Qed.

Lemma chunk_value_zeros n : forall (s : bitstring_t) (k : nat) pv,
  chunk_value n (s ++ replicate k "0"%char) pv = chunk_value n s pv.
Proof.
  induction n as [|n IH]; intros s k pv; [reflexivity |].
  destruct s as [|c s].
  - simpl. destruct k as [|k]; [reflexivity |]. simpl.
    specialize (IH [] k (pv / 2)%Z). simpl in IH. rewrite IH.
    destruct n; reflexivity.
  - simpl. rewrite IH. reflexivity.
Qed.

Section PackingMore.

Variable DEBUG : bool.

(** One round of the inner loop reads at most the characters it has rounds
    for. *)
Lemma pack_byte_take n : forall (s : bitstring_t) byte pv,
  pack_byte DEBUG n s byte pv = pack_byte DEBUG n (take n s) byte pv.
Proof.
  induction n as [|n IH]; intros s byte pv; [reflexivity |].
  destruct s as [|c s]; [reflexivity |].
  cbn [pack_byte take]. destruct (is_nul c); [reflexivity |].
  destruct (Ascii.eqb c "1").
  - apply bind_ext. intros _. apply IH.
  - apply bind_ext. intros _. apply bind_ext. intros _. apply IH.
Qed.

Lemma populate_byte_array_map (bits : bitstring_t) (n : nat) (g : nat -> Z) :
  (forall i, i < n ->
     i * 8 < strlen bits /\ i * 8 <= length bits /\
     pack_byte DEBUG 8 (drop (i * 8) bits) 0 128 = Ret (g i)) ->
  populate_byte_array DEBUG (replicate n 0%Z) n bits = Ret (map g (seq 0 n)).
Proof.
  intros Hround. unfold populate_byte_array.
  destruct (for_loop_inv
    (fun i bytes => bytes = map g (seq 0 i) ++ replicate (n - i) 0%Z)
    (fun i bytes =>
       ASSERT DEBUG (i * 8 <? strlen bits);;
       if length bits <? i * 8 then Undefined
       else byte ← pack_byte DEBUG 8 (drop (i * 8) bits) 0%Z 128%Z; store bytes i byte)
    n 0 (replicate n 0%Z)) as (bytes & E & Hbytes).
  - simpl. rewrite Nat.sub_0_r. reflexivity.
  - intros j t Hj ->.
    destruct (Hround j ltac:(lia)) as (Hlt & Hle & Hbyte).
    destruct (Nat.ltb_spec (j * 8) (strlen bits)); [| lia].
    destruct (Nat.ltb_spec (length bits) (j * 8)); [lia |].
    change (ASSERT DEBUG true) with (Ret (A:=unit) tt). rewrite bind_Ret.
    rewrite Hbyte. cbn [mbind outcome_bind].
    replace (n - j) with (S (n - S j)) by lia. simpl replicate.
    pose proof (store_middle (map g (seq 0 j)) 0%Z
                  (replicate (n - S j) 0%Z)) as St.
    rewrite length_map, length_seq in St. rewrite St.
    eexists; split; [reflexivity |].
    rewrite seq_S, map_app. simpl. rewrite <- app_assoc. reflexivity.
  - rewrite E. f_equal. rewrite Hbytes. simpl.
    rewrite Nat.sub_diag. simpl. apply app_nil_r.
Qed.

Lemma bits_ok_flat_map_digits (c : list Z) : bits_ok (flat_map digits c).
Proof.
  induction c as [|b c IH]; [constructor |].
  cbn [flat_map]. apply Forall_app. split; [apply bits_ok_digits | exact IH].
Qed.

Lemma drop_flat_map_digits (c : list Z) i :
  drop (i * 8) (flat_map digits c) = flat_map digits (drop i c).
Proof.
  revert c. induction i as [|i IH]; intros c; [reflexivity |].
  destruct c as [|b c]; [reflexivity |].
  cbn [flat_map]. replace (S i * 8) with (length (digits b) + i * 8)
    by (rewrite length_digits; lia).
  rewrite drop_app_add. apply IH.
Qed.

(** Packing what [unpack] returns for an array of bytes gives the array
    back. *)
Theorem pack_unpack_roundtrip (c : list Z) :
  Forall (fun byte => (0 <= byte < 256)%Z) c ->
  exists bits,
    unpack DEBUG c (length c) = Ret bits /\
    strlen bits = 8 * length c /\
    pack DEBUG bits = Ret c.
Proof.
  intros Hbytes.
  exists (flat_map digits c ++ [NUL]).
  assert (Hstr : c_string (flat_map digits c ++ [NUL]) = flat_map digits c).
  { apply c_string_until_nul, nul_free_bits, bits_ok_flat_map_digits. }
  assert (Hlen : strlen (flat_map digits c ++ [NUL]) = 8 * length c).
  { unfold strlen. rewrite Hstr. apply length_flat_map_digits. }
  split; [rewrite unpack_digits, firstn_all by lia; reflexivity |].
  split; [exact Hlen |].
  unfold pack. rewrite Hlen, get_res_len_ceil.
  replace ((8 * length c + 7) / 8) with (length c)
    by (apply (Nat.div_unique _ 8 _ 7); lia).
  rewrite (populate_byte_array_map _ (length c) (fun i => default 0%Z (c !! i))).
  - f_equal. apply list_eq. intros i. rewrite list_lookup_fmap.
    destruct (Nat.lt_ge_cases i (length c)) as [Hi | Hi].
    + rewrite lookup_seq_lt by assumption. simpl.
      destruct (lookup_lt_is_Some_2 c i Hi) as [b ->]. reflexivity.
    + rewrite lookup_seq_ge by assumption. simpl.
      symmetry. apply lookup_ge_None_2. assumption.
  - intros i Hi. rewrite Hlen, length_app, length_flat_map_digits. cbn [length].
    split; [lia |]. split; [lia |].
    destruct (lookup_lt_is_Some_2 c i Hi) as [b Hb]. rewrite Hb. cbn [default].
    rewrite drop_app_le by (rewrite length_flat_map_digits; lia).
    rewrite drop_flat_map_digits, (drop_S c b i Hb). cbn [flat_map].
    rewrite pack_byte_take, <- !app_assoc.
    rewrite (take_app_length' (digits b)) by reflexivity.
    change 128%Z with (2 ^ Z.of_nat 7)%Z.
    rewrite pack_byte_value; [| apply bits_ok_digits | lia | lia | simpl; lia].
    f_equal. rewrite Z.add_0_l. apply chunk_value_digits.
    eapply Forall_lookup_1 in Hbytes; [| exact Hb]. exact Hbytes.
Qed.

(** [pack] does not tell a string of bits from the same string with '0'
    characters behind it that fit into the last byte. *)
Theorem pack_forgets_padding (s : bitstring_t) (k : nat) :
  bits_ok s ->
  (length s + k + 7) / 8 = (length s + 7) / 8 ->
  pack DEBUG (s ++ replicate k "0"%char) = pack DEBUG s.
Proof.
  intros Hs Hsame.
  assert (Hpad : bits_ok (s ++ replicate k "0"%char)).
  { apply Forall_app. split; [assumption |]. apply Forall_replicate. left. reflexivity. }
  rewrite !pack_bytes by assumption.
  rewrite length_app, length_replicate, !get_res_len_ceil, Hsame.
  f_equal. apply map_ext_in. intros i Hi. apply in_seq in Hi.
  assert (Hlt : i * 8 < length s).
  { apply get_res_len_covers. rewrite get_res_len_ceil. lia. }
  unfold packed_byte. rewrite drop_app_le by lia. apply chunk_value_zeros.
Qed.

(** [unpack] returns a string of [8 * len] characters '0' and '1' when the
    array has [len] bytes or more, and reads beyond the array when it has
    fewer. *)
Theorem unpack_length (c : list Z) (len : nat) :
  (len <= length c ->
   exists bits,
     unpack DEBUG c len = Ret bits /\
     length bits = 8 * len + 1 /\
     strlen bits = 8 * len /\
     bits_ok (c_string bits)) /\
  (length c < len -> unpack DEBUG c len = Undefined).
Proof.
  split.
  - intros Hlen. exists (flat_map digits (take len c) ++ [NUL]).
    assert (Hstr : c_string (flat_map digits (take len c) ++ [NUL]) =
                   flat_map digits (take len c)).
    { apply c_string_until_nul, nul_free_bits, bits_ok_flat_map_digits. }
    split; [apply unpack_digits; assumption |].
    split; [rewrite length_app, length_flat_map_digits, length_take; simpl; lia |].
    unfold strlen. rewrite Hstr.
    split; [rewrite length_flat_map_digits, length_take; lia |].
    apply bits_ok_flat_map_digits.
  - intros Hlen. unfold unpack. apply (for_loop_undefined _ (length c)).
    + intros j bits. destruct (c !! j) as [byte|]; [| left; reflexivity].
      unfold byte2bit. apply for_loop_cases. intros i b.
      unfold ASSERT. rewrite byte2bit_shift_bit, contract_true, bind_Ret.
      unfold store. destruct (8 * j + i <? length b);
        [right; eexists; reflexivity | left; reflexivity].
    + intros bits. rewrite lookup_ge_None_2 by lia. reflexivity.
    + lia.
Qed.

End PackingMore.

(** The bytes 0x15, 0x80 unpacked and packed again. *)
Lemma pack_unpack_roundtrip_witness :
  exists bits,
    unpack true [0x15; 0x80]%Z 2 = Ret bits /\
    strlen bits = 8 * 2 /\
    pack true bits = Ret [0x15; 0x80]%Z.
Proof.
  apply (pack_unpack_roundtrip true [0x15; 0x80]%Z).
  constructor; [lia |]. constructor; [lia |]. constructor.
Defined.

(** "1" and "100" pack to one byte. *)
Lemma pack_forgets_padding_witness :
  pack true (["1"%char] ++ replicate 2 "0"%char) = pack true ["1"%char].
Proof.
  apply (pack_forgets_padding true ["1"%char] 2).
  - constructor; [right; reflexivity | constructor].
  - reflexivity.
Defined.

(** One byte unpacked, and a second byte asked for. *)
Lemma unpack_length_witness :
  (exists bits,
     unpack true [0x15]%Z 1 = Ret bits /\
     length bits = 8 * 1 + 1 /\
     strlen bits = 8 * 1 /\
     bits_ok (c_string bits)) /\
  unpack true [0x15]%Z 2 = Undefined.
Proof.
  split.
  - apply (proj1 (unpack_length true [0x15]%Z 1)). simpl. lia.
  - apply (proj2 (unpack_length true [0x15]%Z 2)). simpl. lia.
Defined.

(** ** The frequency table of a text *)

Lemma occurrences_cons ch contents sym :
  occurrences (ch :: contents) sym =
    (if decide (nat_of_ascii ch = sym) then 1 else 0) + occurrences contents sym.
Proof.
  unfold occurrences. destruct (decide (nat_of_ascii ch = sym)) as [E | E].
  - rewrite filter_cons_True by assumption. reflexivity.
  - rewrite filter_cons_False by assumption. reflexivity.
Qed.

Lemma occurrences_pos contents sym :
  0 < occurrences contents sym <-> sym ∈ map nat_of_ascii contents.
Proof.
  induction contents as [|ch contents IH].
  - simpl. split; [unfold occurrences; simpl; lia | intros Hin; inversion Hin].
  - rewrite occurrences_cons. cbn [map]. rewrite elem_of_cons.
    destruct (decide (nat_of_ascii ch = sym)) as [E | E].
    + split; [intros _; left; congruence | intros _; lia].
    + rewrite <- IH. split; [intros Hpos; right; lia |].
      intros [E' | Hpos]; [congruence | lia].
Qed.

Lemma occurrences_le contents sym : occurrences contents sym <= length contents.
Proof. unfold occurrences. apply length_filter. Qed.

Lemma two_in_NoDup {A} (l : list A) a b :
  NoDup l -> a ∈ l -> b ∈ l -> a <> b -> 2 <= length l.
Proof.
  intros Hnd Ha Hb Hne. destruct l as [|x [|y l]]; simpl; [| | lia].
  - inversion Ha.
  - apply list_elem_of_singleton in Ha, Hb. congruence.
Qed.

Section FrequencyTable.

Variable DEBUG : bool.
Variable NUM_SYMBOLS : nat.

Lemma build_freqtable_loop_counts : forall (contents : list ascii) (table : freqtable_t),
  length table = NUM_SYMBOLS ->
  Forall (fun ch => nat_of_ascii ch < NUM_SYMBOLS) contents ->
  Forall (fun count => (count < 2 ^ 32)%N) table ->
  exists table' : freqtable_t,
    build_freqtable_loop DEBUG NUM_SYMBOLS contents table = Ret table' /\
    length table' = NUM_SYMBOLS /\
    forall sym count, table !! sym = Some count ->
      table' !! sym =
        Some ((count + N.of_nat (occurrences contents sym)) mod 2 ^ 32)%N.
Proof.
  induction contents as [|ch contents IH]; intros table Hlen Hrange Hsmall.
  - exists table. split; [reflexivity |]. split; [assumption |].
    intros sym count Hsym. rewrite Hsym. f_equal.
    unfold occurrences. simpl. rewrite N.add_0_r. symmetry. apply N.mod_small.
    eapply Forall_lookup_1 in Hsmall; [| exact Hsym]. exact Hsmall.
  - apply Forall_cons in Hrange as [Hch Hrange].
    cbn [build_freqtable_loop]. unfold ASSERT.
    destruct (Nat.ltb_spec (nat_of_ascii ch) NUM_SYMBOLS); [| lia].
    rewrite contract_true, bind_Ret.
    destruct (lookup_lt_is_Some_2 table (nat_of_ascii ch)) as [count0 Hc0]; [lia |].
    rewrite Hc0.
    destruct (IH (<[nat_of_ascii ch := uint_add count0 1]> table)) as (table' & E & Hlen' & Hcount).
    + rewrite length_insert. assumption.
    + assumption.
    + apply Forall_insert; [assumption |]. unfold uint_add.
      apply N.mod_upper_bound. discriminate.
    + exists table'. split; [exact E |]. split; [assumption |].
      intros sym count Hsym. rewrite occurrences_cons.
      destruct (decide (nat_of_ascii ch = sym)) as [<- | Hne].
      * rewrite Hsym in Hc0. injection Hc0 as <-.
        rewrite (Hcount (nat_of_ascii ch) (uint_add count 1))
          by (apply list_lookup_insert_eq; lia).
        f_equal. unfold uint_add.
        rewrite N.Div0.add_mod_idemp_l. f_equal. lia.
      * rewrite (Hcount sym count)
          by (rewrite list_lookup_insert_ne by assumption; assumption).
        reflexivity.
Qed.

(** The table that [build_freqtable] returns for a file that opens has
    [NUM_SYMBOLS] entries, and the entry of a symbol is the number of times
    the symbol is in the file, modulo 2^32. *)
Theorem build_freqtable_counts (contents : list ascii) :
  Forall (fun ch => nat_of_ascii ch < NUM_SYMBOLS) contents ->
  exists table : freqtable_t,
    build_freqtable DEBUG NUM_SYMBOLS (Some contents) = Ret table /\
    length table = NUM_SYMBOLS /\
    forall sym, sym < NUM_SYMBOLS ->
      table !! sym = Some (N.of_nat (occurrences contents sym) mod 2 ^ 32)%N.
Proof.
  intros Hrange.
  destruct (build_freqtable_loop_counts contents (replicate NUM_SYMBOLS 0%N))
    as (table & E & Hlen & Hcount).
  - apply length_replicate.
  - assumption.
  - apply Forall_replicate. reflexivity.
  - exists table. split; [exact E |]. split; [assumption |].
    intros sym Hsym.
    rewrite (Hcount sym 0%N) by (apply lookup_replicate_2; assumption).
    reflexivity.
Qed.

(** A character that is not below [NUM_SYMBOLS] stops [build_freqtable]:
    under [DEBUG] in its assertion, without it in a store beyond the
    table. *)
Theorem build_freqtable_beyond_table (before after : list ascii) (ch : ascii) :
  Forall (fun ch => nat_of_ascii ch < NUM_SYMBOLS) before ->
  NUM_SYMBOLS <= nat_of_ascii ch ->
  build_freqtable DEBUG NUM_SYMBOLS (Some (before ++ ch :: after)) =
    if DEBUG then Abort else Undefined.
Proof.
  intros Hbefore Hch. unfold build_freqtable.
  assert (Hgen : forall table : freqtable_t, length table = NUM_SYMBOLS ->
            build_freqtable_loop DEBUG NUM_SYMBOLS (before ++ ch :: after) table =
              if DEBUG then Abort else Undefined).
  { induction Hbefore as [|c0 before Hc0 _ IH]; intros table Hlen.
    - cbn [app build_freqtable_loop]. unfold ASSERT, contract.
      destruct (Nat.ltb_spec (nat_of_ascii ch) NUM_SYMBOLS); [lia |].
      destruct DEBUG; [reflexivity |]. rewrite bind_Ret.
      rewrite lookup_ge_None_2 by lia. reflexivity.
    - cbn [app build_freqtable_loop]. unfold ASSERT.
      destruct (Nat.ltb_spec (nat_of_ascii c0) NUM_SYMBOLS); [| lia].
      rewrite contract_true, bind_Ret.
      destruct (lookup_lt_is_Some_2 table (nat_of_ascii c0)) as [count Hcount]; [lia |].
      rewrite Hcount. apply IH. rewrite length_insert. assumption. }
  apply Hgen, length_replicate.
Qed.

End FrequencyTable.

(** The table of "aab" over 128 symbols. *)
Lemma build_freqtable_counts_witness :
  exists table : freqtable_t,
    build_freqtable true 128 (Some ["a"; "a"; "b"]%char) = Ret table /\
    length table = 128 /\
    forall sym, sym < 128 ->
      table !! sym = Some (N.of_nat (occurrences ["a"; "a"; "b"]%char sym) mod 2 ^ 32)%N.
Proof.
  apply (build_freqtable_counts true 128 ["a"; "a"; "b"]%char).
  repeat (constructor; [vm_compute; lia |]). constructor.
Defined.

(** The character 200 in a text over 128 symbols. *)
Lemma build_freqtable_beyond_table_witness :
  build_freqtable true 128 (Some (["a"%char] ++ "200"%char :: ["b"%char])) =
    (if true then Abort else Undefined).
Proof.
  apply (build_freqtable_beyond_table true 128 ["a"%char] ["b"%char] "200"%char).
  - constructor; [vm_compute; lia | constructor].
  - vm_compute. lia.
Defined.

(** ** From a text to its code and back *)

Section Text.

Variable DEBUG : bool.
Variable NUM_SYMBOLS : nat.
Context {PQ : PriorityQueue htree} {Laws : PriorityQueueLaws PQ}.

Lemma roundtrip_of_table (table : freqtable_t) (src : list symbol_t) :
  length table = NUM_SYMBOLS ->
  2 <= length (nonzero_symbols table) ->
  (forall sym, sym ∈ src -> sym ∈ nonzero_symbols table) ->
  exists H (ct : codetable_t) (code : bitstring_t),
    build_htree DEBUG NUM_SYMBOLS table = Ret H /\
    htree_to_codetable DEBUG NUM_SYMBOLS H = Ret ct /\
    encode_src ct src (length src) = Ret code /\
    decode_src DEBUG H code = Ret (src, length src).
Proof.
  intros Hlen Htwo Hsrc.
  destruct (build_htree_spec DEBUG NUM_SYMBOLS table Hlen Htwo) as (H & EH & Hw & Hl & _).
  assert (HH : interior H).
  { split; [assumption |]. apply two_leaves_interior.
    rewrite (Permutation_length Hl). assumption. }
  destruct (htree_to_codetable_spec DEBUG NUM_SYMBOLS H Hw) as (ct & Ect & _ & _ & Hpath).
  { intros sym Hsym. rewrite Hl in Hsym.
    apply nonzero_symbols_range in Hsym. lia. }
  assert (Hcode : forall sym, sym ∈ src ->
            exists path, ct !! sym = Some (Some path) /\
                         leaf_at H (code_string ct sym) = Some sym).
  { intros sym Hsym. destruct (Hpath sym) as (path & Hct & Hp).
    - rewrite Hl. apply Hsrc. assumption.
    - exists path. split; [assumption |]. unfold code_string. rewrite Hct.
      rewrite c_string_bits by (eapply leaf_at_bits; eassumption). assumption. }
  exists H, ct, (flat_map (code_string ct) src ++ [NUL]).
  split; [exact EH |]. split; [exact Ect |]. split.
  - apply encode_src_buffer. intros sym Hsym.
    destruct (Hcode sym Hsym) as (path & Hct & _). eauto.
  - rewrite (decode_src_traverse DEBUG H _ HH).
    rewrite (traverse_codes H (code_string ct) src [] HH)
      by (intros sym Hsym; destruct (Hcode sym Hsym) as (_ & _ & Hp); exact Hp).
    cbn [fst snd]. destruct (decide (H = H)); [reflexivity | contradiction].
Qed.

(** A text of fewer than 2^32 characters, all below [NUM_SYMBOLS], in which
    two different characters occur, goes through the whole codec: its
    frequency table gives a tree, the tree a code table, and decoding the
    encoding of the text returns the text. *)
Theorem text_roundtrip (contents : list ascii) (a b : ascii) :
  Forall (fun ch => nat_of_ascii ch < NUM_SYMBOLS) contents ->
  (N.of_nat (length contents) < 2 ^ 32)%N ->
  a ∈ contents -> b ∈ contents -> a <> b ->
  exists (table : freqtable_t) H (ct : codetable_t) (code : bitstring_t),
    build_freqtable DEBUG NUM_SYMBOLS (Some contents) = Ret table /\
    build_htree DEBUG NUM_SYMBOLS table = Ret H /\
    htree_to_codetable DEBUG NUM_SYMBOLS H = Ret ct /\
    encode_src ct (map nat_of_ascii contents) (length contents) = Ret code /\
    decode_src DEBUG H code = Ret (map nat_of_ascii contents, length contents).
Proof.
  intros Hrange Hshort Ha Hb Hab.
  assert (Hbuilt : exists table : freqtable_t,
            build_freqtable DEBUG NUM_SYMBOLS (Some contents) = Ret table /\
            length table = NUM_SYMBOLS /\
            forall sym, sym < NUM_SYMBOLS ->
              table !! sym = Some (N.of_nat (occurrences contents sym) mod 2 ^ 32)%N).
  { destruct (build_freqtable_loop_counts DEBUG NUM_SYMBOLS contents
                (replicate NUM_SYMBOLS 0%N))
      as (table & E & Hlen & Hcount);
      [apply length_replicate | assumption | apply Forall_replicate; reflexivity |].
    exists table. split; [exact E |]. split; [assumption |].
    intros sym Hsym.
    rewrite (Hcount sym 0%N) by (apply lookup_replicate_2; assumption).
    reflexivity. }
  destruct Hbuilt as (table & Etable & Hlen & Hcount).
  assert (Hnonzero : forall ch, ch ∈ contents ->
            nat_of_ascii ch ∈ nonzero_symbols table).
  { intros ch Hch. unfold nonzero_symbols. apply list_elem_of_filter.
    assert (Hlt : nat_of_ascii ch < NUM_SYMBOLS).
    { eapply Forall_forall in Hrange; eassumption. }
    split; [| apply elem_of_seq; lia].
    rewrite (Hcount _ Hlt). intros [= E].
    assert (Hpos : 0 < occurrences contents (nat_of_ascii ch)).
    { apply occurrences_pos, list_elem_of_fmap. exists ch. split; [reflexivity | assumption]. }
    pose proof (occurrences_le contents (nat_of_ascii ch)).
    rewrite N.mod_small in E by lia. lia. }
  assert (Htwo : 2 <= length (nonzero_symbols table)).
  { apply (two_in_NoDup _ (nat_of_ascii a) (nat_of_ascii b)).
    - unfold nonzero_symbols. apply NoDup_filter, NoDup_seq.
    - apply Hnonzero. assumption.
    - apply Hnonzero. assumption.
    - intros E. apply Hab.
      rewrite <- (ascii_nat_embedding a), <- (ascii_nat_embedding b), E. reflexivity. }
  destruct (roundtrip_of_table table (map nat_of_ascii contents) Hlen Htwo)
    as (H & ct & code & EH & Ect & Eenc & Edec).
  { intros sym Hsym. apply list_elem_of_fmap in Hsym as (ch & -> & Hch).
    apply Hnonzero. assumption. }
  rewrite length_map in Eenc, Edec.
  exists table, H, ct, code. auto.
Qed.

End Text.

(** The text "aaabbc" over 128 symbols. *)
Lemma text_roundtrip_witness :
  exists (table : freqtable_t) H (ct : codetable_t) (code : bitstring_t),
    build_freqtable true 128 (Some ["a"; "a"; "a"; "b"; "b"; "c"]%char) = Ret table /\
    build_htree true 128 table = Ret H /\
    htree_to_codetable true 128 H = Ret ct /\
    encode_src ct (map nat_of_ascii ["a"; "a"; "a"; "b"; "b"; "c"]%char) 6 = Ret code /\
    decode_src true H code =
      Ret (map nat_of_ascii ["a"; "a"; "a"; "b"; "b"; "c"]%char, 6).
Proof.
  apply (text_roundtrip true 128 ["a"; "a"; "a"; "b"; "b"; "c"]%char "a"%char "b"%char).
  - repeat (constructor; [vm_compute; lia |]). constructor.
  - vm_compute. reflexivity.
  - apply list_elem_of_In. simpl. tauto.
  - apply list_elem_of_In. simpl. tauto.
  - discriminate.
Defined.

(** ** The tree builder: what the tree holds *)

Lemma leaf_counts_eq v f l r :
  leaf_counts (Node v f l r) =
    if is_htree_leaf (Node v f l r) then [(v, f)] else leaf_counts l ++ leaf_counts r.
Proof. reflexivity. Qed.

Lemma merged_spec t1 t2 :
  is_htree t1 = true -> is_htree t2 = true ->
  is_htree (merged t1 t2) = true /\
  is_htree_leaf (merged t1 t2) = false /\
  root_frequency (merged t1 t2) = uint_add (root_frequency t1) (root_frequency t2) /\
  leaf_counts (merged t1 t2) ≡ₚ leaf_counts t1 ++ leaf_counts t2 /\
  (lighter_left t1 -> lighter_left t2 -> lighter_left (merged t1 t2)).
Proof.
  intros H1 H2.
  destruct t1 as [|v1 f1 l1 r1]; [discriminate |].
  destruct t2 as [|v2 f2 l2 r2]; [discriminate |].
  unfold merged. cbn [root_frequency].
  set (t1 := Node v1 f1 l1 r1) in *. set (t2 := Node v2 f2 l2 r2) in *.
  destruct (N.leb_spec f1 f2) as [Hle | Hgt].
  - assert (Hl : is_htree_leaf (Node 0 (uint_add f1 f2) t1 t2) = false).
    { subst t1 t2. simpl. destruct (uint_add f1 f2 <=? 0)%N; reflexivity. }
    split; [| split; [exact Hl | split; [reflexivity | split]]].
    + cbn [is_htree]. fold t1 t2. rewrite H1, H2. subst t1 t2. simpl.
      rewrite N.eqb_refl. apply orb_true_r.
    + rewrite leaf_counts_eq, Hl. reflexivity.
    + intros L1 L2. cbn [lighter_left]. right. subst t1 t2. simpl. auto.
  - assert (Hl : is_htree_leaf (Node 0 (uint_add f1 f2) t2 t1) = false).
    { subst t1 t2. simpl. destruct (uint_add f1 f2 <=? 0)%N; reflexivity. }
    split; [| split; [exact Hl | split; [reflexivity | split]]].
    + cbn [is_htree]. fold t1 t2. rewrite H1, H2. subst t1 t2. simpl.
      rewrite (uint_add_comm f1 f2), N.eqb_refl. apply orb_true_r.
    + rewrite leaf_counts_eq, Hl. apply Permutation_app_comm.
    + intros L1 L2. cbn [lighter_left]. right. subst t1 t2. simpl.
      split; [assumption |]. split; [assumption | lia].
Qed.

Section BuilderMore.

Variable DEBUG : bool.
Variable NUM_SYMBOLS : nat.
Context {PQ : PriorityQueue htree} {Laws : PriorityQueueLaws PQ}.

(** A property of the items of the queue that no order of the items and no
    merge of two of them breaks holds of the tree that the loop returns. *)
Lemma build_htree_loop_invariant (I : list htree -> Prop) :
  (forall l l', l ≡ₚ l' -> I l -> I l') ->
  (forall t1 t2 rest, is_htree t1 = true -> is_htree t2 = true ->
     I (t1 :: t2 :: rest) -> I (merged t1 t2 :: rest)) ->
  forall fuel (Q : pq_t),
    pq_elems Q <> [] ->
    length (pq_elems Q) <= fuel ->
    length (pq_elems Q) <= pq_capacity Q ->
    Forall (fun t => is_htree t = true) (pq_elems Q) ->
    I (pq_elems Q) ->
    exists H, build_htree_loop DEBUG fuel Q = Ret H /\ I [H].
Proof.
  intros Hperm Hmerge.
  induction fuel as [|fuel IH]; intros Q Hne Hfuel Hcap Hwf HI.
  - destruct (pq_elems Q); [contradiction | simpl in Hfuel; lia].
  - cbn [build_htree_loop]. rewrite (pq_not_empty Q Hne).
    destruct (pq_rem_spec Q (pq_not_empty Q Hne)) as [Hrem1 Hcap1].
    destruct (pq_rem Q) as [tree1 Q1]. cbn [fst snd] in *.
    assert (Hw1 : is_htree tree1 = true /\
                  Forall (fun t => is_htree t = true) (pq_elems Q1)).
    { rewrite Hrem1 in Hwf. apply Forall_cons in Hwf. exact Hwf. }
    destruct Hw1 as [Hw1 Hwf1].
    unfold ASSERT. rewrite Hw1, contract_true, bind_Ret.
    pose proof (Permutation_length Hrem1) as Hlen1. cbn [length] in Hlen1.
    destruct (pq_empty Q1) eqn:Hempty1.
    + apply pq_empty_spec in Hempty1. rewrite Hempty1 in Hrem1.
      exists tree1. split; [reflexivity |]. exact (Hperm _ _ Hrem1 HI).
    + destruct (pq_rem_spec Q1 Hempty1) as [Hrem2 Hcap2].
      destruct (pq_rem Q1) as [tree2 Q2]. cbn [fst snd] in *.
      assert (Hw2 : is_htree tree2 = true /\
                    Forall (fun t => is_htree t = true) (pq_elems Q2)).
      { rewrite Hrem2 in Hwf1. apply Forall_cons in Hwf1. exact Hwf1. }
      destruct Hw2 as [Hw2 Hwf2].
      rewrite Hw2, contract_true, bind_Ret.
      pose proof (Permutation_length Hrem2) as Hlen2. cbn [length] in Hlen2.
      destruct (merged_spec tree1 tree2 Hw1 Hw2) as (Hwm & _).
      assert (HI2 : I (merged tree1 tree2 :: pq_elems Q2)).
      { apply Hmerge; [assumption | assumption |].
        apply (Hperm (pq_elems Q)); [| assumption].
        rewrite Hrem1, Hrem2. reflexivity. }
      destruct tree1 as [|v1 f1 l1 r1]; [discriminate |].
      destruct tree2 as [|v2 f2 l2 r2]; [discriminate |].
      cbn [get_frequency]. rewrite !bind_Ret.
      change (if (f1 <=? f2)%N
              then Node 0 (uint_add f1 f2) (Node v1 f1 l1 r1) (Node v2 f2 l2 r2)
              else Node 0 (uint_add f1 f2) (Node v2 f2 l2 r2) (Node v1 f1 l1 r1))
        with (merged (Node v1 f1 l1 r1) (Node v2 f2 l2 r2)).
      set (root := merged (Node v1 f1 l1 r1) (Node v2 f2 l2 r2)) in *.
      rewrite pq_not_full by lia. simpl negb. rewrite contract_true, bind_Ret.
      destruct (pq_add_spec Q2 root) as [Hadd Hcapadd]; [apply pq_not_full; lia |].
      pose proof (Permutation_length Hadd) as Hlenadd. cbn [length] in Hlenadd.
      apply IH.
      * intros N. rewrite N in Hlenadd. discriminate.
      * lia.
      * lia.
      * rewrite Hadd. constructor; assumption.
      * apply (Hperm (root :: pq_elems Q2)); [symmetry; assumption | assumption].
Qed.

Lemma leaf_counts_leaf_nodes (table : freqtable_t) i :
  i <= length table ->
  flat_map leaf_counts (leaf_nodes table i) =
    map (fun sym => (sym, default 0%N (table !! sym))) (nonzero_below table i).
Proof.
  intros Hi. pose proof (leaf_nodes_leaf table i Hi) as Hleaf.
  unfold leaf_nodes in *. induction (nonzero_below table i) as [|j l IH];
    [reflexivity |].
  apply Forall_cons in Hleaf as [Hj Hl]. cbn [map flat_map].
  unfold leaf_node at 1. unfold leaf_node in Hj.
  rewrite leaf_counts_eq, Hj, IH by assumption. reflexivity.
Qed.

Lemma root_frequency_interior H :
  is_htree H = true -> is_htree_leaf H = false ->
  (root_frequency H < 2 ^ 32)%N.
Proof.
  intros Hw Hl. destruct H as [|v f l r]; [discriminate |].
  destruct (is_htree_interior_inv _ _ _ _ Hw Hl) as (Hwl & Hwr & Hi).
  simpl in Hi. rewrite Hwl, Hwr in Hi. simpl in Hi.
  destruct l; [discriminate |]. destruct r; [discriminate |].
  apply N.eqb_eq in Hi. simpl. rewrite Hi. unfold uint_add.
  apply N.mod_upper_bound. discriminate.
Qed.

Lemma build_htree_contents (table : freqtable_t) :
  length table = NUM_SYMBOLS ->
  2 <= length (nonzero_symbols table) ->
  exists H,
    build_htree DEBUG NUM_SYMBOLS table = Ret H /\
    is_htree H = true /\
    is_htree_leaf H = false /\
    lighter_left H /\
    leaf_counts H ≡ₚ nonzero_counts table /\
    root_frequency H = (total_frequency table mod 2 ^ 32)%N.
Proof.
  intros Hlen Htwo.
  destruct (build_pq_spec DEBUG NUM_SYMBOLS table Hlen) as [_ Hbuild].
  destruct (Hbuild Htwo) as (Q & E & Hcnt & Hcap & Hperm).
  cbn [fst snd] in *.
  assert (Hnz : nonzero_below table NUM_SYMBOLS = nonzero_symbols table).
  { unfold nonzero_symbols, nonzero_below. rewrite Hlen. reflexivity. }
  pose proof (length_nonzero_below table NUM_SYMBOLS) as Hbound.
  pose proof (leaf_nodes_leaf table NUM_SYMBOLS ltac:(lia)) as Hleaf.
  pose proof (Permutation_length Hperm) as Hlenq.
  unfold leaf_nodes in Hlenq. rewrite length_map, Hnz in Hlenq.
  rewrite Hnz in Hbound.
  assert (Hne : pq_elems Q <> []).
  { intros N. rewrite N in Hlenq. simpl in Hlenq. lia. }
  assert (Hwf : Forall (fun t => is_htree t = true) (pq_elems Q)).
  { rewrite Hperm. eapply Forall_impl; [exact Hleaf |]. exact is_htree_leaf_is_htree. }
  destruct (build_htree_loop_spec DEBUG NUM_SYMBOLS Q Hne ltac:(lia) ltac:(lia) Hwf)
    as (H & EH & Hw & Hl & _).
  destruct (build_htree_loop_invariant
    (fun l => Forall lighter_left l /\
              flat_map leaf_counts l ≡ₚ nonzero_counts table /\
              (sum_frequency l mod 2 ^ 32 = total_frequency table mod 2 ^ 32)%N))
    with (fuel := NUM_SYMBOLS) (Q := Q) as (H' & EH' & HL & HC & HS).
  - intros l l' Hp (HL & HC & HS). split; [rewrite <- Hp; assumption |].
    split; [rewrite <- (Permutation_flat_map leaf_counts Hp); assumption |].
    rewrite <- (sum_frequency_perm _ _ Hp). assumption.
  - intros t1 t2 rest H1 H2 (HL & HC & HS).
    destruct (merged_spec t1 t2 H1 H2) as (_ & _ & Hf & Hlc & Hll).
    apply Forall_cons in HL as [L1 HL]. apply Forall_cons in HL as [L2 HL].
    split; [constructor; [apply Hll; assumption | assumption] |].
    split.
    + cbn [flat_map] in HC |- *. rewrite Hlc, <- app_assoc. exact HC.
    + unfold sum_frequency in HS |- *. cbn [foldr] in HS |- *.
      rewrite Hf. unfold uint_add. rewrite N.Div0.add_mod_idemp_l.
      rewrite <- HS. f_equal. lia.
  - assumption.
  - lia.
  - lia.
  - assumption.
  - split; [| split].
    + rewrite Hperm. eapply Forall_impl; [exact Hleaf |].
      intros t Ht. destruct t; simpl; auto.
    + rewrite (Permutation_flat_map leaf_counts Hperm).
      rewrite leaf_counts_leaf_nodes by lia. rewrite Hnz. reflexivity.
    + rewrite (sum_frequency_perm _ _ Hperm), sum_leaf_nodes by lia.
      rewrite <- Hlen, firstn_all. reflexivity.
  - rewrite EH in EH'. injection EH' as <-.
    assert (HlH : is_htree_leaf H = false).
    { apply two_leaves_interior. rewrite (Permutation_length Hl).
      rewrite (Permutation_length (Permutation_flat_map leaves Hperm)).
      rewrite leaves_leaf_nodes by lia. rewrite Hnz. assumption. }
    exists H. unfold build_htree. rewrite E, bind_Ret.
    split; [exact EH |]. split; [assumption |]. split; [assumption |].
    apply Forall_cons in HL as [HL _]. split; [assumption |].
    cbn [flat_map] in HC. rewrite app_nil_r in HC. split; [assumption |].
    unfold sum_frequency in HS. cbn [foldr] in HS. rewrite N.add_0_r in HS.
    rewrite <- HS. symmetry. apply N.mod_small.
    apply root_frequency_interior; assumption.
Qed.

(** The leaves of the tree that [build_htree] returns are the symbols of
    nonzero frequency with the frequencies of the table, and the frequency
    at its root is the sum of the table modulo 2^32. *)
Theorem build_htree_counts (table : freqtable_t) :
  length table = NUM_SYMBOLS ->
  2 <= length (nonzero_symbols table) ->
  exists H,
    build_htree DEBUG NUM_SYMBOLS table = Ret H /\
    leaf_counts H ≡ₚ nonzero_counts table /\
    (forall sym count, (sym, count) ∈ leaf_counts H ->
       table !! sym = Some count /\ (0 < count)%N) /\
    root_frequency H = (total_frequency table mod 2 ^ 32)%N.
Proof.
  intros Hlen Htwo.
  destruct (build_htree_contents table Hlen Htwo) as (H & E & _ & _ & _ & HC & HR).
  exists H. split; [exact E |]. split; [exact HC |]. split; [| exact HR].
  intros sym count Hin. rewrite HC in Hin. unfold nonzero_counts in Hin.
  apply list_elem_of_fmap in Hin as (sym' & [= -> ->] & Hin).
  unfold nonzero_symbols in Hin.
  destruct (nonzero_below_elem table (length table) sym' ltac:(lia) Hin)
    as (_ & freq & Hfreq & Hpos).
  rewrite Hfreq. simpl. auto.
Qed.

(** The tree that [build_htree] returns is well formed, its root is an
    interior node, and at every interior node of it the frequency at the
    left child is not greater than the one at the right child. *)
Theorem build_htree_lighter_left (table : freqtable_t) :
  length table = NUM_SYMBOLS ->
  2 <= length (nonzero_symbols table) ->
  exists H,
    build_htree DEBUG NUM_SYMBOLS table = Ret H /\
    is_htree H = true /\
    is_htree_leaf H = false /\
    lighter_left H.
Proof.
  intros Hlen Htwo.
  destruct (build_htree_contents table Hlen Htwo) as (H & E & Hw & Hl & HL & _).
  exists H. auto.
Qed.

End BuilderMore.

(** The tree of the frequencies of "aaabbc". *)
Lemma build_htree_counts_witness :
  exists H,
    build_htree true 4 example_table = Ret H /\
    leaf_counts H ≡ₚ nonzero_counts example_table /\
    (forall sym count, (sym, count) ∈ leaf_counts H ->
       example_table !! sym = Some count /\ (0 < count)%N) /\
    root_frequency H = (total_frequency example_table mod 2 ^ 32)%N.
Proof.
  apply (build_htree_counts true 4 example_table).
  - reflexivity.
  - vm_compute. lia.
Defined.

Lemma build_htree_lighter_left_witness :
  exists H,
    build_htree true 4 example_table = Ret H /\
    is_htree H = true /\
    is_htree_leaf H = false /\
    lighter_left H.
Proof.
  apply (build_htree_lighter_left true 4 example_table).
  - reflexivity.
  - vm_compute. lia.
Defined.

(** ** Releasing any tree *)

Lemma heap_tree_is_null h p t : heap_tree h p t -> Heap.is_NULL p = is_null t.
Proof. destruct 1; reflexivity. Qed.

Lemma heap_tree_load h p v f l r :
  heap_tree h p (Node v f l r) ->
  exists node,
    Heap.load h p = Ret node /\
    Heap.value node = v /\ Heap.frequency node = f /\
    heap_tree h (Heap.left node) l /\ heap_tree h (Heap.right node) r.
Proof.
  intros Ht. inversion Ht as [|a node l' r' Hnode Hl Hr]; subst.
  exists node. unfold Heap.load. rewrite Hnode. auto.
Qed.

Lemma heap_is_htree_leaf h p t :
  heap_tree h p t -> Heap.is_htree_leaf h p = Ret (is_htree_leaf t).
Proof.
  intros Ht. unfold Heap.is_htree_leaf. rewrite (heap_tree_is_null h p t Ht).
  destruct t as [|v f l r]; [reflexivity |]. simpl is_null. cbv iota.
  destruct (heap_tree_load h p v f l r Ht) as (node & -> & _ & Hf & Hl & Hr).
  rewrite bind_Ret, Hf. simpl.
  destruct (f <=? 0)%N; [reflexivity |].
  rewrite (heap_tree_is_null _ _ _ Hl), (heap_tree_is_null _ _ _ Hr). reflexivity.
Qed.

(** The body that [is_htree] and [is_htree_interior] share, given the
    verdicts on the two children. *)
Lemma heap_interior_check h p v f l r (wl wr : outcome bool) :
  heap_tree h p (Node v f l r) ->
  wl = Ret (is_htree l) -> wr = Ret (is_htree r) ->
  (node ← Heap.load h p;
   b ← wl;
   if negb b then Ret false
   else
     b' ← wr;
     if negb b' then Ret false
     else
       nl ← Heap.load h (Heap.left node);
       nr ← Heap.load h (Heap.right node);
       Ret (Heap.frequency node =? uint_add (Heap.frequency nl) (Heap.frequency nr))%N)
  = Ret (is_htree_interior (Node v f l r)).
Proof.
  intros Ht -> ->.
  destruct (heap_tree_load h p v f l r Ht) as (node & -> & _ & Hf & Hl & Hr).
  rewrite !bind_Ret. cbn [is_htree_interior].
  destruct (is_htree l) eqn:Hwl; [| reflexivity].
  simpl negb. cbv iota.
  destruct (is_htree r) eqn:Hwr; [| reflexivity].
  simpl. destruct l as [|lv lf ll lr]; [discriminate |].
  destruct r as [|rv rf rl rr]; [discriminate |].
  destruct (heap_tree_load _ _ _ _ _ _ Hl) as (nl & -> & _ & Hfl & _).
  destruct (heap_tree_load _ _ _ _ _ _ Hr) as (nr & -> & _ & Hfr & _).
  rewrite !bind_Ret, Hf, Hfl, Hfr. reflexivity.
Qed.

(** On a heap that holds a tree, the checks of the invariant read the
    verdicts of Task 1. *)
Lemma heap_is_htree : forall fuel h p t,
  heap_tree h p t -> nodes t < fuel ->
  Heap.is_htree fuel h p = Ret (is_htree t).
Proof.
  induction fuel as [|fuel IH]; intros h p t Ht Hfuel; [lia |].
  cbn [Heap.is_htree]. rewrite (heap_tree_is_null h p t Ht).
  destruct t as [|v f l r]; [reflexivity |]. simpl is_null. cbv iota.
  rewrite (heap_is_htree_leaf h p _ Ht), bind_Ret.
  rewrite is_htree_unfold. simpl is_null. cbv iota.
  destruct (is_htree_leaf (Node v f l r)); [reflexivity |].
  simpl orb.
  destruct (heap_tree_load h p v f l r Ht) as (node & Hload & _ & _ & Hl & Hr).
  simpl in Hfuel.
  pose proof (heap_interior_check h p v f l r
                (Heap.is_htree fuel h (Heap.left node))
                (Heap.is_htree fuel h (Heap.right node)) Ht
                (IH h _ l Hl ltac:(lia)) (IH h _ r Hr ltac:(lia))) as Hcheck.
  rewrite Hload, bind_Ret in Hcheck. rewrite Hload, bind_Ret. exact Hcheck.
Qed.

Lemma heap_is_htree_interior fuel h p v f l r :
  heap_tree h p (Node v f l r) -> nodes (Node v f l r) <= fuel ->
  Heap.is_htree_interior fuel h p = Ret (is_htree_interior (Node v f l r)).
Proof.
  intros Ht Hfuel. unfold Heap.is_htree_interior.
  rewrite (heap_tree_is_null h p _ Ht). simpl is_null. cbv iota.
  destruct (heap_tree_load h p v f l r Ht) as (node & Hload & _ & _ & Hl & Hr).
  simpl in Hfuel.
  pose proof (heap_interior_check h p v f l r
                (Heap.is_htree fuel h (Heap.left node))
                (Heap.is_htree fuel h (Heap.right node)) Ht
                (heap_is_htree fuel h _ l Hl ltac:(lia))
                (heap_is_htree fuel h _ r Hr ltac:(lia))) as Hcheck.
  rewrite Hload, bind_Ret in Hcheck. rewrite Hload, bind_Ret. exact Hcheck.
Qed.

(** [free_htree] and [elem_free] never return: on every heap that holds a
    well-formed tree, whatever its shape, the recursion goes down the left
    children to a leaf, frees it and reads it. *)
Theorem free_htree_never_returns (DEBUG : bool) :
  forall (fuel : nat) (h : gmap nat Heap.htree_node) (p : Heap.ptr) (t : htree),
    heap_tree h p t -> is_htree t = true -> nodes t < fuel ->
    Heap.free_htree DEBUG fuel h p = Undefined /\
    Heap.elem_free DEBUG fuel h p = Undefined.
Proof.
  assert (Hfree : forall fuel h p t,
            heap_tree h p t -> is_htree t = true -> nodes t < fuel ->
            Heap.free_htree DEBUG fuel h p = Undefined).
  { induction fuel as [|fuel IH]; intros h p t Ht Hw Hfuel.
    - lia.
    - cbn [Heap.free_htree].
      assert (Hpre : Heap.contract DEBUG (Heap.is_htree (S fuel) h p) = Ret tt).
      { unfold Heap.contract. destruct DEBUG; [| reflexivity].
        rewrite (heap_is_htree (S fuel) h p t Ht) by lia. rewrite Hw. reflexivity. }
      rewrite Hpre, bind_Ret, (heap_is_htree_leaf h p t Ht), bind_Ret.
      destruct t as [|v f l r]; [discriminate |].
      destruct (heap_tree_load h p v f l r Ht) as (node & Hload & _ & _ & Hl & Hr).
      destruct (is_htree_leaf (Node v f l r)) eqn:Hleaf.
      + inversion Ht as [|a node' l' r' Hnode _ _]; subst.
        assert (Hfreed : Heap.load (delete a h) (Some a) = Undefined).
        { unfold Heap.load. rewrite lookup_delete_eq. reflexivity. }
        unfold Heap.free. rewrite Hnode, bind_Ret.
        unfold Heap.contract. destruct DEBUG.
        * unfold Heap.is_htree_interior. cbn [Heap.is_NULL].
          rewrite Hfreed. reflexivity.
        * rewrite bind_Ret, Hfreed. reflexivity.
      + rewrite bind_Ret.
        destruct (is_htree_interior_inv _ _ _ _ Hw Hleaf) as (Hwl & _ & Hi).
        assert (Hmid : Heap.contract DEBUG (Heap.is_htree_interior (S fuel) h p) = Ret tt).
        { unfold Heap.contract. destruct DEBUG; [| reflexivity].
          rewrite (heap_is_htree_interior (S fuel) h p v f l r Ht) by lia.
          rewrite Hi. reflexivity. }
        rewrite Hmid, bind_Ret, Hload, bind_Ret.
        rewrite (IH h (Heap.left node) l Hl Hwl) by (simpl in Hfuel; lia).
        reflexivity. }
  intros fuel h p t Ht Hw Hfuel.
  split; [eapply Hfree; eassumption |].
  unfold Heap.elem_free.
  destruct (Heap.contract DEBUG (Heap.is_htree fuel h p)) eqn:Hc;
    simpl; try (eapply Hfree; eassumption).
  - unfold Heap.contract in Hc. destruct DEBUG; [| discriminate].
    destruct t as [|v f l r]; [discriminate |].
    destruct fuel as [|fuel]; [lia |].
    rewrite (heap_is_htree (S fuel) h p _ Ht) in Hc by lia.
    rewrite Hw in Hc. discriminate.
  - unfold Heap.contract in Hc. destruct DEBUG; [| discriminate].
    destruct fuel as [|fuel]; [lia |].
    rewrite (heap_is_htree (S fuel) h p _ Ht) in Hc by lia.
    rewrite Hw in Hc. discriminate.
  - unfold Heap.contract in Hc. destruct DEBUG; [| discriminate].
    destruct fuel as [|fuel]; [lia |].
    rewrite (heap_is_htree (S fuel) h p _ Ht) in Hc by lia.
    rewrite Hw in Hc. discriminate.
  - unfold Heap.contract in Hc. destruct DEBUG; [| discriminate].
    destruct fuel as [|fuel]; [lia |].
    rewrite (heap_is_htree (S fuel) h p _ Ht) in Hc by lia.
    rewrite Hw in Hc. discriminate.
Qed.

(** The tree of two leaves on a heap of three nodes. *)
Lemma free_htree_never_returns_witness :
  Heap.free_htree true 4 two_leaves_heap (Some 1) = Undefined /\
  Heap.elem_free true 4 two_leaves_heap (Some 1) = Undefined.
Proof.
  apply (free_htree_never_returns true 4 two_leaves_heap (Some 1) two_leaves).
  - apply (heap_tree_node two_leaves_heap 1
             {| Heap.value := 0; Heap.frequency := 5;
                Heap.left := Some 2; Heap.right := Some 3 |}).
    + reflexivity.
    + apply (heap_tree_node two_leaves_heap 2
               {| Heap.value := 97; Heap.frequency := 3;
                  Heap.left := None; Heap.right := None |});
        [reflexivity | constructor | constructor].
    + apply (heap_tree_node two_leaves_heap 3
               {| Heap.value := 98; Heap.frequency := 2;
                  Heap.left := None; Heap.right := None |});
        [reflexivity | constructor | constructor].
  - reflexivity.
  - simpl. lia.
Defined.

(** ** Copying a string *)

Lemma c_string_lookup (s : bitstring_t) : forall j,
  j < strlen s -> s !! j = c_string s !! j.
Proof.
  unfold strlen. induction s as [|c s IH]; intros j Hj; [simpl in Hj; lia |].
  simpl in Hj |- *. destruct (is_nul c); [simpl in Hj; lia |].
  destruct j as [|j]; [reflexivity |]. simpl in Hj |- *. apply IH. lia.
Qed.

Lemma lookup_strlen (s : bitstring_t) : default NUL (s !! strlen s) = NUL.
Proof.
  unfold strlen. induction s as [|c s IH]; [reflexivity |].
  simpl. destruct (is_nul c) eqn:Hc.
  - simpl. unfold is_nul in Hc. apply Ascii.eqb_eq in Hc. assumption.
  - simpl. exact IH.
Qed.

Section Strings.

Variable DEBUG : bool.

(** [create_char_ptr] returns a copy of a string with fewer than [INT_MAX]
    characters: under [DEBUG] when the characters are '0' and '1', without
    it whatever they are. *)
Theorem create_char_ptr_copy (str : bitstring_t) :
  (Z.of_nat (strlen str) < INT_MAX)%Z ->
  DEBUG = false \/ bits_ok (c_string str) ->
  create_char_ptr DEBUG str = Ret (c_string str ++ [NUL]).
Proof.
  intros Hshort Hchars. unfold create_char_ptr.
  destruct (Z.leb_spec INT_MAX (Z.of_nat (strlen str))); [lia |].
  set (n := strlen str).
  set (f := fun j => default NUL (str !! j)).
  destruct (for_loop_inv
    (fun i res => res = map f (seq 0 i) ++ replicate (n + 1 - i) NUL)
    (fun i res =>
       ASSERT DEBUG (is_nul (f i) || Ascii.eqb (f i) "0" || Ascii.eqb (f i) "1");;
       store res i (f i))
    (n + 1) 0 (replicate (n + 1) NUL)) as (res & E & Hres).
  - rewrite Nat.sub_0_r. reflexivity.
  - intros j t Hj ->.
    assert (Hok : ASSERT DEBUG (is_nul (f j) || Ascii.eqb (f j) "0" || Ascii.eqb (f j) "1")
                  = Ret tt).
    { unfold ASSERT, contract. destruct Hchars as [-> | Hbits].
      - destruct (_ || _); reflexivity.
      - destruct (Nat.eq_dec j n) as [-> | Hne].
        + subst f n. cbv beta. rewrite lookup_strlen. reflexivity.
        + subst f. cbv beta. rewrite c_string_lookup by (fold n; lia).
          destruct (lookup_lt_is_Some_2 (c_string str) j) as [c Hc];
            [fold (strlen str); fold n; lia |].
          rewrite Hc. simpl.
          eapply Forall_lookup_1 in Hbits; [| exact Hc].
          destruct Hbits as [-> | ->]; reflexivity. }
    rewrite Hok, bind_Ret.
    replace (n + 1 - j) with (S (n - j)) by lia. simpl replicate.
    pose proof (store_middle (map f (seq 0 j)) NUL (replicate (n - j) NUL) (f j)) as St.
    rewrite length_map, length_seq in St. rewrite St.
    eexists; split; [reflexivity |].
    rewrite seq_S, map_app, <- app_assoc. simpl.
    replace (n + 1 - S j) with (n - j) by lia. reflexivity.
  - refine (eq_trans E _). f_equal. rewrite Hres.
    replace (n + 1 - (0 + (n + 1))) with 0 by lia. simpl replicate.
    rewrite app_nil_r. simpl. rewrite seq_app, map_app. simpl. f_equal.
    + apply list_eq. intros j. rewrite list_lookup_fmap.
      destruct (Nat.lt_ge_cases j n) as [Hj | Hj].
      * rewrite lookup_seq_lt by assumption. simpl. subst f. cbv beta.
        rewrite c_string_lookup by (fold n; lia).
        destruct (lookup_lt_is_Some_2 (c_string str) j) as [c Hc];
          [fold (strlen str); fold n; lia |].
        rewrite Hc. reflexivity.
      * rewrite lookup_seq_ge by assumption. simpl. symmetry.
        apply lookup_ge_None_2. fold (strlen str). fold n. assumption.
    + subst f n. cbv beta. rewrite lookup_strlen. reflexivity.
Qed.

End Strings.

(** The copy of "01". *)
Lemma create_char_ptr_copy_witness :
  create_char_ptr true ["0"; "1"]%char = Ret (c_string ["0"; "1"]%char ++ [NUL]).
Proof.
  apply (create_char_ptr_copy true ["0"; "1"]%char).
  - vm_compute. reflexivity.
  - right. constructor; [left; reflexivity |].
    constructor; [right; reflexivity | constructor].
Defined.

(** ** The queue of leaves and the two passes of the decoder *)

Section QueueOfLeaves.

Variable DEBUG : bool.
Variable NUM_SYMBOLS : nat.
Context {PQ : PriorityQueue htree} {Laws : PriorityQueueLaws PQ}.

(** Given an empty queue of capacity [NUM_SYMBOLS] and a table with two
    symbols of nonzero frequency or more, [build_pq] returns the queue
    with one leaf for each of these symbols, holding its frequency, and
    nothing else; the queue is never full when a leaf is added. *)
Theorem build_pq_leaves (Q : pq_t) (table : freqtable_t) :
  length table = NUM_SYMBOLS ->
  pq_elems Q = [] -> pq_capacity Q = NUM_SYMBOLS ->
  2 <= length (nonzero_symbols table) ->
  exists Q',
    build_pq DEBUG NUM_SYMBOLS Q table = Ret Q' /\
    pq_elems Q' ≡ₚ
      map (fun sym => Node sym (default 0%N (table !! sym)) Null Null)
          (nonzero_symbols table) /\
    Forall (fun t => is_htree_leaf t = true) (pq_elems Q') /\
    pq_capacity Q' = NUM_SYMBOLS.
Proof.
  intros Hlen Hempty Hcap Htwo.
  destruct (build_pq_loop_leaves DEBUG NUM_SYMBOLS table Q Hlen Hempty Hcap)
    as ([Q' cnt] & E & Hcnt & Hcap' & Hperm).
  cbn [fst snd] in *. cbv zeta in E.
  assert (Hnz : nonzero_below table NUM_SYMBOLS = nonzero_symbols table).
  { unfold nonzero_symbols, nonzero_below. rewrite Hlen. reflexivity. }
  exists Q'. unfold build_pq, REQUIRES.
  replace (pq_empty Q) with true by (symmetry; apply pq_empty_spec; assumption).
  rewrite contract_true, bind_Ret, E, bind_Ret.
  rewrite Hnz in Hcnt. destruct (Nat.ltb_spec cnt 2); [lia |].
  split; [reflexivity |]. unfold leaf_nodes, leaf_node in Hperm. rewrite Hnz in Hperm.
  split; [exact Hperm |]. split; [| assumption].
  pose proof (leaf_nodes_leaf table NUM_SYMBOLS ltac:(lia)) as Hleaf.
  unfold leaf_nodes, leaf_node in Hleaf. rewrite Hnz in Hleaf.
  rewrite Hperm. exact Hleaf.
Qed.

End QueueOfLeaves.

Section Passes.

Variable DEBUG : bool.


End Passes.

(** The queue of the frequencies of "aaabbc". *)
Lemma build_pq_leaves_witness :
  exists Q',
    build_pq true 4 (pq_new 4 (htree_higher_priority true)) example_table = Ret Q' /\
    pq_elems Q' ≡ₚ
      map (fun sym => Node sym (default 0%N (example_table !! sym)) Null Null)
          (nonzero_symbols example_table) /\
    Forall (fun t => is_htree_leaf t = true) (pq_elems Q') /\
    pq_capacity Q' = 4.
Proof.
  apply (build_pq_leaves true 4 (pq_new 4 (htree_higher_priority true)) example_table).
  - reflexivity.
  - reflexivity.
  - reflexivity.
  - vm_compute. lia.
Defined.


(** ** Packing a string with other characters *)

Lemma bits_ok_as_packed_bit (s : bitstring_t) : bits_ok (map as_packed_bit s).
Proof.
  apply Forall_map, Forall_forall. intros c _. unfold as_packed_bit, is_bit. simpl.
  destruct (Ascii.eqb c "1"); auto.
Qed.

Lemma pack_byte_as_packed_bit n : forall (s : bitstring_t) byte pv,
  nul_free s ->
  pack_byte false n s byte pv = pack_byte false n (map as_packed_bit s) byte pv.
Proof.
  induction n as [|n IH]; intros s byte pv Hfree; [reflexivity |].
  destruct Hfree as [|c s Hc Hfree]; [reflexivity |].
  cbn [map pack_byte]. rewrite Hc.
  assert (Hn : is_nul (as_packed_bit c) = false)
    by (unfold as_packed_bit; destruct (Ascii.eqb c "1"); reflexivity).
  rewrite Hn.
  assert (H1 : Ascii.eqb (as_packed_bit c) "1" = Ascii.eqb c "1")
    by (unfold as_packed_bit; destruct (Ascii.eqb c "1"); reflexivity).
  rewrite H1.
  assert (Hoff : forall b, ASSERT false b = Ret tt) by (intros []; reflexivity).
  rewrite !Hoff, !bind_Ret.
  destruct (Ascii.eqb c "1"); apply IH; assumption.
Qed.

(** The inner loop under [DEBUG] stops at a character that is neither '0'
    nor '1' nor NUL. *)
Lemma pack_byte_aborts n : forall (good : bitstring_t) bad rest byte (k : nat),
  bits_ok good -> is_nul bad = false -> ~ is_bit bad ->
  length good < n -> n <= S k -> (0 <= byte)%Z ->
  (byte + 2 ^ Z.of_nat (S k) <= 256)%Z ->
  pack_byte true n (good ++ bad :: rest) byte (2 ^ Z.of_nat k) = Abort.
Proof.
  induction n as [|n IH]; intros good bad rest byte k Hgood Hnul Hbad Hlen Hn Hb Hfit;
    [lia |].
  assert (Hp : (2 ^ Z.of_nat (S k) = 2 * 2 ^ Z.of_nat k)%Z).
  { rewrite Nat2Z.inj_succ, Z.pow_succ_r by lia. reflexivity. }
  assert (Hpos : (0 < 2 ^ Z.of_nat k)%Z) by (apply Z.pow_pos_nonneg; lia).
  destruct Hgood as [|c good Hc Hgood].
  - cbn [app pack_byte]. rewrite Hnul.
    destruct (Ascii.eqb_spec bad "1") as [-> | _];
      [exfalso; apply Hbad; right; reflexivity |].
    destruct (Ascii.eqb_spec bad "0") as [-> | _];
      [exfalso; apply Hbad; left; reflexivity |].
    reflexivity.
  - cbn [app pack_byte]. rewrite (is_bit_not_nul c Hc).
    simpl in Hlen. destruct k as [|k]; [lia |].
    assert (Hpv : (0 <? 2 ^ Z.of_nat (S k))%Z = true) by (apply Z.ltb_lt; assumption).
    unfold ASSERT. rewrite Hpv, pow2_half.
    assert (Hp' : (2 ^ Z.of_nat (S k) = 2 * 2 ^ Z.of_nat k)%Z).
    { rewrite Nat2Z.inj_succ, Z.pow_succ_r by lia. reflexivity. }
    assert (Hpos' : (0 < 2 ^ Z.of_nat k)%Z) by (apply Z.pow_pos_nonneg; lia).
    destruct Hc as [-> | ->]; simpl.
    + apply IH; try assumption; lia.
    + rewrite Z.mul_1_r, Z.mod_small by lia. apply IH; try assumption; lia.
Qed.

(** A loop whose rounds return and keep [P] up to round [k], where the body
    aborts, aborts. *)
Lemma for_loop_abort {St : Type} (P : St -> Prop) (body : nat -> St -> outcome St)
    (k : nat) :
  (forall j s, j < k -> P s -> exists s', body j s = Ret s' /\ P s') ->
  (forall s, P s -> body k s = Abort) ->
  forall n i s, i <= k < i + n -> P s -> for_loop n i body s = Abort.
Proof.
  intros Hbefore Hk. induction n as [|n IH]; intros i s Hi Hs; [lia |].
  simpl. destruct (Nat.eq_dec i k) as [-> | Hne].
  - rewrite Hk by assumption. reflexivity.
  - destruct (Hbefore i s ltac:(lia) Hs) as (s' & E & Hs'). rewrite E. simpl.
    apply IH; [lia | assumption].
Qed.

(** With its assertions off, [pack] takes every character other than '1'
    for a 0 bit; with them on, it aborts at the first character that is
    neither '0' nor '1'. *)
Theorem pack_other_characters (good rest : bitstring_t) (bad : bit_t) :
  bits_ok good -> is_nul bad = false -> ~ is_bit bad -> nul_free rest ->
  pack false (good ++ bad :: rest) =
    pack false (map as_packed_bit (good ++ bad :: rest)) /\
  pack true (good ++ bad :: rest) = Abort.
Proof.
  intros Hgood Hnul Hbad Hrest.
  set (s := good ++ bad :: rest).
  assert (Hfree : nul_free s).
  { subst s. apply Forall_app. split; [apply nul_free_bits; assumption |].
    constructor; assumption. }
  assert (Hstr : strlen s = length s).
  { unfold strlen. rewrite c_string_nul_free by assumption. reflexivity. }
  split.
  - unfold pack. rewrite Hstr.
    assert (Hstr' : strlen (map as_packed_bit s) = length s).
    { unfold strlen. rewrite c_string_bits by apply bits_ok_as_packed_bit.
      apply length_map. }
    rewrite Hstr'. unfold populate_byte_array. apply for_loop_ext.
    intros j t _. rewrite Hstr, Hstr', length_map. apply bind_ext. intros _.
    destruct (length s <? j * 8); [reflexivity |].
    rewrite skipn_map, <- pack_byte_as_packed_bit; [reflexivity |].
    apply Forall_drop. assumption.
  - unfold pack, populate_byte_array. rewrite Hstr.
    set (k := length good / 8).
    assert (Hk : k * 8 <= length good < k * 8 + 8).
    { subst k. pose proof (Nat.div_mod_eq (length good) 8).
      pose proof (Nat.mod_upper_bound (length good) 8 ltac:(lia)). lia. }
    assert (Hlen : length s = length good + S (length rest)).
    { subst s. rewrite length_app. reflexivity. }
    assert (Hres : k < get_res_len (length s)).
    { rewrite get_res_len_ceil.
      pose proof (Nat.div_mod_eq (length s + 7) 8).
      pose proof (Nat.mod_upper_bound (length s + 7) 8 ltac:(lia)). lia. }
    apply (for_loop_abort (fun t => length t = get_res_len (length s)) _ k).
    + intros j t Hj Ht.
      destruct (Nat.ltb_spec (j * 8) (length s)); [| lia].
      destruct (Nat.ltb_spec (length s) (j * 8)); [lia |].
      change (ASSERT true true) with (Ret (A:=unit) tt). rewrite bind_Ret.
      rewrite pack_byte_take. subst s.
      rewrite drop_app_le by lia.
      rewrite take_app_le by (rewrite length_drop; lia).
      rewrite <- pack_byte_take.
      change 128%Z with (2 ^ Z.of_nat 7)%Z.
      rewrite pack_byte_value;
        [| apply Forall_drop; assumption | lia | lia | simpl; lia].
      rewrite bind_Ret. unfold store.
      destruct (Nat.ltb_spec j (length t)); [| lia].
      eexists. split; [reflexivity |]. rewrite length_insert. assumption.
    + intros t _.
      destruct (Nat.ltb_spec (k * 8) (length s)); [| lia].
      destruct (Nat.ltb_spec (length s) (k * 8)); [lia |].
      change (ASSERT true true) with (Ret (A:=unit) tt). rewrite bind_Ret.
      subst s. rewrite drop_app_le by lia.
      change 128%Z with (2 ^ Z.of_nat 7)%Z.
      rewrite pack_byte_aborts; try assumption;
        [reflexivity | apply Forall_drop; assumption
         | rewrite length_drop; lia | lia | lia | simpl; lia].
    + lia.
    + apply length_replicate.
Qed.

(** Packing "1x1". *)
Lemma pack_other_characters_witness :
  pack false (["1"%char] ++ "x"%char :: ["1"%char]) =
    pack false (map as_packed_bit (["1"%char] ++ "x"%char :: ["1"%char])) /\
  pack true (["1"%char] ++ "x"%char :: ["1"%char]) = Abort.
Proof.
  apply (pack_other_characters ["1"%char] ["1"%char] "x"%char).
  - constructor; [right; reflexivity | constructor].
  - reflexivity.
  - intros [E | E]; discriminate.
  - constructor; [reflexivity | constructor].
Defined.
